(** * Langbly translate: the incremental translation pipeline

    A shallow embedding of the pure core of the action (the utilities
    with [batchStrings], [src/formats/json.ts], [src/formats/markdown.ts],
    [src/placeholders.ts], [src/client.ts], the per-file functions of
    [src/translate.ts] and the parsing of the target languages in
    [src/main.ts]) together with the properties the specification states
    about it, and further properties that the code has.

    Conventions.
    - A JavaScript string is a [string]; one [ascii] stands for one code
      unit (the code units below 256), so [String.length] is the
      [.length] of the source.
    - A JavaScript [number] that counts or measures is a [Z] or a [nat];
      one that may be any number, [NaN] included, is a [Num.number].
    - A [Map] that is only read with [get]/[has] is a [gmap]; a [Map] or a
      plain object whose iteration order is observed is an association
      list kept in that order.

    The file has four parts: the definitions, module by module as in the
    source tree; the facts about them; the properties of the
    specification; further properties of the code. *)

From Stdlib Require Import ZArith NArith Lia Bool Ascii String List.
From Stdlib Require Import Numbers.DecimalString.
From Stdlib Require Numbers.DecimalNat.
From Stdlib Require QArith.QArith_base QArith.Qround.
From stdpp Require Import base option list gmap strings.

Import ListNotations.
Local Open Scope string_scope.
Local Open Scope list_scope.
Local Open Scope Z_scope.

(** [simpl] computes [+:+] on a string that starts with a known code unit. *)
#[local] Arguments String.append !s1 s2 : simpl nomatch.

(** * Part I: definitions *)

(** ** The string operations of the host language *)

Module Str.

(** [s.length] *)
Definition len (s : string) : Z := Z.of_nat (String.length s).

(** The line feed, written [\n] in the source. *)
Definition LF : string := String "010" "".

(** [s.slice(0, n)] for [0 <= n]: the first [n] code units, or all of
    [s] when it is shorter. *)
Fixpoint take (n : nat) (s : string) : string :=
  match n, s with
  | S n', String c s' => String c (take n' s')
  | _, _ => ""
  end.

(** [s.slice(n)] for [0 <= n]. *)
Fixpoint drop (n : nat) (s : string) : string :=
  match n, s with
  | S n', String _ s' => drop n' s'
  | _, _ => s
  end.

(** White space and line terminators, as [trimStart] understands them,
    among the code units below 256: TAB, LF, VT, FF, CR, SP, NBSP. *)
Definition is_white_space (c : ascii) : bool :=
  match N_of_ascii c with
  | 9 | 10 | 11 | 12 | 13 | 32 | 160 => true
  | _ => false
  end%N.

(** [s.trimStart()] *)
Fixpoint trimStart (s : string) : string :=
  match s with
  | String c s' => if is_white_space c then trimStart s' else s
  | "" => ""
  end.

(** [s.startsWith(p)] *)
Definition startsWith (s p : string) : bool := String.prefix p s.

(** [s.indexOf(p, from)] for [from <= s.length]; [None] is the [-1] of
    the source. *)
Definition indexOf (s p : string) (from : nat) : option nat :=
  String.index from p s.

(** [s.split(sep)] for a separator of one code unit: never empty. *)
Fixpoint split (sep : ascii) (s : string) : list string :=
  match s with
  | "" => [""]
  | String c s' =>
      if (c =? sep)%char then "" :: split sep s'
      else match split sep s' with
           | first :: others => String c first :: others
           | [] => [String c ""]
           end
  end.

(** [s.includes(c)] for one code unit. *)
Fixpoint includes (s : string) (c : ascii) : bool :=
  match s with
  | "" => false
  | String c' rest => (c' =? c)%char || includes rest c
  end.

(** The expansion of a replacement {e string} by [String.prototype.replace]
    (GetSubstitution) when the pattern is a string, so that there are no
    captures: [$$] is a dollar, [$&] the matched text, [$`] what precedes
    the match and [$'] what follows it; every other code unit, also a
    dollar before anything else, stands for itself. *)
Fixpoint substitution (matched str : string) (position : nat)
    (template : string) : string :=
  match template with
  | "" => ""
  | String a tail =>
      if (a =? "$")%char then
        match tail with
        | String c rest =>
            if (c =? "$")%char then String "$" (substitution matched str position rest)
            else if (c =? "&")%char then
              matched +:+ substitution matched str position rest
            else if (c =? "`")%char then
              take position str +:+ substitution matched str position rest
            else if (c =? "'")%char then
              drop (position + String.length matched) str
                +:+ substitution matched str position rest
            else String a (substitution matched str position tail)
        | "" => String a ""
        end
      else String a (substitution matched str position tail)
  end.

(** [s.replace(pattern, replacement)] with a {e string} pattern and a
    {e string} replacement: the first occurrence only. *)
Definition replace (s pattern replacement : string) : string :=
  match indexOf s pattern 0 with
  | None => s
  | Some pos =>
      take pos s
        +:+ substitution pattern s pos replacement
        +:+ drop (pos + String.length pattern) s
  end.

(** [`${n}`] for a natural number, and for an integer. *)
Definition of_nat (n : nat) : string := NilEmpty.string_of_uint (Nat.to_uint n).
Definition of_Z (z : Z) : string := NilEmpty.string_of_int (Z.to_int z).

End Str.

(** ** Batch scheduler ([batchStrings] and [countCharacters] of the utilities) *)

Module Batch.

(** The three locals of [batchStrings]: [batches], [currentBatch],
    [currentChars]. *)
Record state := State {
  batches : list (list string);
  currentBatch : list string;
  currentChars : Z
}.

Definition init : state := State [] [] 0.

(** [batches.push(currentBatch); currentBatch = []; currentChars = 0]. *)
Definition push_current (st : state) : state :=
  State (batches st ++ [currentBatch st]) [] 0.

(** One iteration of [for (const s of strings)]. *)
Definition step (maxItems maxChars : Z) (st : state) (s : string) : state :=
  let len := Str.len s in
  if maxChars <? len then
    let st' :=
      if 0 <? Z.of_nat (length (currentBatch st)) then push_current st else st in
    State (batches st' ++ [[s]]) (currentBatch st') (currentChars st')
  else
    let st' :=
      if (maxItems <=? Z.of_nat (length (currentBatch st)))
         || (maxChars <? currentChars st + len)
      then push_current st else st in
    State (batches st') (currentBatch st' ++ [s]) (currentChars st' + len).

Definition batchStrings (strings : list string) (maxItems maxChars : Z)
  : list (list string) :=
  let st := fold_left (step maxItems maxChars) strings init in
  if 0 <? Z.of_nat (length (currentBatch st))
  then batches st ++ [currentBatch st]
  else batches st.

(** [countCharacters]: [strings.reduce((sum, s) => sum + s.length, 0)]. *)
Definition countCharacters (strings : list string) : Z :=
  fold_left (fun sum s => sum + Str.len s) strings 0.

(** The sum of the lengths of the strings of a batch. *)
Definition total_length (b : list string) : Z :=
  fold_right (fun s n => Str.len s + n) 0 b.

End Batch.

(** ** The batches: the vocabulary of the specification *)

Module BatchSpec.

Import Batch.

Section Limits.

Variables maxItems maxChars : Z.

(** What a finished batch satisfies: it is not empty, has at most
    [maxItems] strings, at most [maxChars] code units when it has two
    strings or more, and a string longer than [maxChars] is alone. *)
Record good_batch (b : list string) : Prop := {
  good_nonempty : b <> [];
  good_items : Z.of_nat (length b) <= maxItems;
  good_chars : (2 <= length b)%nat -> countCharacters b <= maxChars;
  good_alone : forall s, In s b -> maxChars < Str.len s -> b = [s]
}.

(** What the accumulating batch satisfies. *)
Record open_batch (b : list string) (chars : Z) : Prop := {
  open_items : Z.of_nat (length b) <= maxItems;
  open_count : chars = countCharacters b;
  open_chars : b <> [] -> chars <= maxChars;
  open_small : forall s, In s b -> Str.len s <= maxChars
}.

Record inv (seen : list string) (st : state) : Prop := {
  inv_concat : concat (batches st) ++ currentBatch st = seen;
  inv_done : Forall good_batch (batches st);
  inv_open : open_batch (currentBatch st) (currentChars st)
}.

End Limits.

End BatchSpec.

(** ** Hierarchical documents ([src/formats/json.ts]) *)

Module Json.

#[local] Unset Elimination Schemes.

(** A parsed document. An object is the list of its own properties in
    the order [Object.entries] yields them. A number is carried as an
    integer: the code passes numbers by without looking at them. *)
Inductive json :=
| JNull
| JBool (b : bool)
| JNum (n : Z)
| JStr (s : string)
| JArr (items : list json)
| JObj (props : list (string * json)).

#[local] Set Elimination Schemes.

Abbreviation object := (list (string * json)).

(** Induction on documents, with the hypothesis for every element
    of an array and for every property value of an object. *)

Section Induction.

Variable P : json -> Prop.
Hypothesis case_null : P JNull.
Hypothesis case_bool : forall b, P (JBool b).
Hypothesis case_num : forall n, P (JNum n).
Hypothesis case_str : forall s, P (JStr s).
Hypothesis case_arr : forall items, Forall P items -> P (JArr items).
Hypothesis case_obj :
  forall props, Forall (fun kv => P (snd kv)) props -> P (JObj props).

Fixpoint json_ind (v : json) : P v :=
  match v with
  | JNull => case_null
  | JBool b => case_bool b
  | JNum n => case_num n
  | JStr s => case_str s
  | JArr items =>
      case_arr items
        ((fix all (l : list json) : Forall P l :=
            match l with
            | [] => List.Forall_nil P
            | x :: l' => List.Forall_cons P x l' (json_ind x) (all l')
            end) items)
  | JObj props =>
      case_obj props
        ((fix all (l : object) : Forall (fun kv => P (snd kv)) l :=
            match l with
            | [] => List.Forall_nil _
            | kv :: l' => List.Forall_cons _ kv l' (json_ind (snd kv)) (all l')
            end) props)
  end.

End Induction.

Record FlatEntry := Entry { key : string; value : string }.

(** *** Ordinary objects

    What the code relies on when it reads and writes properties of the
    objects it builds from [{}]. *)

Fixpoint own_get (obj : object) (k : string) : option json :=
  match obj with
  | [] => None
  | (k', v) :: rest => if (k' =? k)%string then Some v else own_get rest k
  end.

Fixpoint replace_own (obj : object) (k : string) (v : json) : object :=
  match obj with
  | [] => []
  | (k', v') :: rest =>
      if (k' =? k)%string then (k', v) :: rest
      else (k', v') :: replace_own rest k v
  end.

Definition digit (c : ascii) : option N :=
  let n := N_of_ascii c in
  if ((48 <=? n) && (n <=? 57))%N then Some (n - 48)%N else None.

Fixpoint digits (s : string) (acc : N) : option N :=
  match s with
  | "" => Some acc
  | String c s' =>
      match digit c with
      | Some d => digits s' (acc * 10 + d)%N
      | None => None
      end
  end.

(** A property name is an array index when it is the canonical decimal
    form of an integer below [2^32 - 1]. *)
Definition array_index (k : string) : option N :=
  match k with
  | "" => None
  | String c rest =>
      if (c =? "0")%char && negb (rest =? "")%string then None
      else match digits k 0 with
           | Some n => if (n <? 2 ^ 32 - 1)%N then Some n else None
           | None => None
           end
  end.

(** The own properties of an ordinary object are enumerated array
    indices first, in ascending order, then the other names in the order
    of their creation: [must_precede k k'] when [k] is enumerated before
    [k'] whatever the order of creation. *)
Definition must_precede (k k' : string) : bool :=
  match array_index k, array_index k' with
  | Some i, Some j => (i <? j)%N
  | Some _, None => true
  | None, _ => false
  end.

(** The creation of the own property [k], which [obj] does not have. *)
Fixpoint define_own (obj : object) (k : string) (v : json) : object :=
  match obj with
  | [] => [(k, v)]
  | (k', v') :: rest =>
      if must_precede k k' then (k, v) :: obj
      else (k', v') :: define_own rest k v
  end.

Definition PROTO : string := "__proto__".

(** [obj[k] = v] for an object whose prototype is [Object.prototype]:
    an own property keeps its place; [__proto__] is otherwise the
    accessor inherited from the prototype, whose setter creates no
    property; any other name is created. *)
Definition assign (obj : object) (k : string) (v : json) : object :=
  match own_get obj k with
  | Some _ => replace_own obj k v
  | None => if (k =? PROTO)%string then obj else define_own obj k v
  end.

(** *** flattenJson *)

(** [prefix ? `${prefix}.${k}` : k] *)
Definition full_key (prefix k : string) : string :=
  if (prefix =? "")%string then k else prefix +:+ "." +:+ k.

(** The body of the loop of [flattenJson] for one property value [v]
    whose key is [fullKey]. *)
Fixpoint flatten_value (v : json) (fullKey : string) : list FlatEntry :=
  match v with
  | JStr s => [Entry fullKey s]
  | JObj props =>
      flat_map (fun kv => flatten_value (snd kv) (full_key fullKey (fst kv))) props
  | JNull | JBool _ | JNum _ | JArr _ => []
  end.

Definition flattenJson (obj : object) (prefix : string) : list FlatEntry :=
  flat_map (fun kv => flatten_value (snd kv) (full_key prefix (fst kv))) obj.

(** *** unflattenJson *)

(** The walk along [parts] from [current] and the final assignment, for
    one entry. The objects are updated in place in the source; here the
    updated object is returned.

    [typeof current[part]] is ["object"] also for [null] and for an
    array, neither of which the walk can meet, since the tree it walks
    holds only what earlier entries put there: strings and objects (see
    [JsonFacts.unflattenJson_built]).

    The model is one of the document alone. At a segment [__proto__]
    that is not the last one the source walks on in [Object.prototype]
    and writes there, for this and for later entries to find; the
    model does not follow it and keeps the document as it is. It is
    the code for the entries whose keys have no segment [__proto__]
    ([JsonKeys.proto_free]), and the properties of Parts III and IV
    are stated for such entries only. *)
Fixpoint set_path (current : object) (parts : list string) (value : string)
  : object :=
  match parts with
  | [] => current
  | [last] => assign current last (JStr value)
  | part :: rest =>
      match own_get current part with
      | Some (JObj child) => assign current part (JObj (set_path child rest value))
      | Some JNull | Some (JArr _) => current
      | Some (JBool _) | Some (JNum _) | Some (JStr _) =>
          assign current part (JObj (set_path [] rest value))
      | None =>
          (* [part in current] holds for the names inherited from
             [Object.prototype]; their values are functions, except
             [__proto__], which is the prototype itself: an object, so
             the walk moves into it and leaves the document. *)
          if (part =? PROTO)%string then current
          else assign current part (JObj (set_path [] rest value))
      end
  end.

Definition unflattenJson (entries : list FlatEntry) : object :=
  fold_left
    (fun root e => set_path root (Str.split "." (key e)) (value e))
    entries [].

(** *** computeDiff and mergeTranslations *)

(** [new Map(entries.map((e) => [e.key, e.value]))]: a later entry
    overrides an earlier one with the same key. *)
Definition flat_map_of (entries : list FlatEntry) : gmap string string :=
  fold_left (fun m e => <[key e := value e]> m) entries ∅.

Definition computeDiff (sourceEntries : list FlatEntry)
    (existingTarget : option object) : list FlatEntry :=
  match existingTarget with
  | None => sourceEntries
  | Some target =>
      let existingFlat := flat_map_of (flattenJson target "") in
      List.filter
        (fun entry => negb (bool_decide (is_Some (existingFlat !! key entry))))
        sourceEntries
  end.

Definition mergeTranslations (sourceEntries : list FlatEntry)
    (translated : gmap string string) (existingTarget : option object)
  : object :=
  let existingFlat :=
    match existingTarget with
    | Some target => flat_map_of (flattenJson target "")
    | None => ∅
    end in
  let merged :=
    map (fun entry =>
           Entry (key entry)
             (default (default (value entry) (existingFlat !! key entry))
                      (translated !! key entry)))
        sourceEntries in
  unflattenJson merged.

End Json.

(** ** Documents: the vocabulary of the specification *)

Module JsonSpec.

Import Json.

(** A path is the list of the property names from the root to a value. *)
Abbreviation path := (list string).

(** The string leaves of a value in depth-first order, properties in
    object order; each leaf comes with its path from the value. *)
Fixpoint leaves (v : json) : list (path * string) :=
  match v with
  | JStr s => [([], s)]
  | JObj props =>
      flat_map
        (fun kv => map (fun leaf => (fst kv :: fst leaf, snd leaf)) (leaves (snd kv)))
        props
  | JNull | JBool _ | JNum _ | JArr _ => []
  end.

(** The key the code gives a path below the key [prefix]. *)
Definition dotted (prefix : string) (p : path) : string :=
  fold_left full_key p prefix.

(** Every leaf is a string: no array, number, boolean or null. *)
Fixpoint string_leaved (v : json) : bool :=
  match v with
  | JStr _ => true
  | JObj props => forallb (fun kv => string_leaved (snd kv)) props
  | JNull | JBool _ | JNum _ | JArr _ => false
  end.

(** A name that the dotted notation can carry: not empty, without dot. *)
Definition segment (k : string) : bool :=
  negb (k =? "")%string && negb (Str.includes k ".").

Fixpoint distinct (names : list string) : bool :=
  match names with
  | [] => true
  | k :: rest => negb (existsb (String.eqb k) rest) && distinct rest
  end.

(** The names are in the order in which an object enumerates them. *)
Fixpoint enumerated (names : list string) : bool :=
  match names with
  | [] => true
  | k :: rest => forallb (fun k' => negb (must_precede k' k)) rest && enumerated rest
  end.

(** The property lists that are objects: the names are distinct and in
    enumeration order, at every level. *)
Fixpoint well_formed (v : json) : bool :=
  match v with
  | JObj props =>
      distinct (map fst props) && enumerated (map fst props)
      && forallb (fun kv => well_formed (snd kv)) props
  | JArr items => forallb well_formed items
  | JNull | JBool _ | JNum _ | JStr _ => true
  end.

(** The names are distinct segments, at every level. *)
Fixpoint unambiguous (v : json) : bool :=
  match v with
  | JObj props =>
      forallb (fun kv => segment (fst kv)) props
      && distinct (map fst props)
      && forallb (fun kv => unambiguous (snd kv)) props
  | JNull | JBool _ | JNum _ | JStr _ | JArr _ => true
  end.

(** The values that the dotted notation represents faithfully: strings,
    and non-empty objects of such values under names that are segments
    other than [__proto__]. *)
Definition plain_name (k : string) : bool := segment k && negb (k =? PROTO)%string.

Definition is_nil {A} (l : list A) : bool :=
  match l with [] => true | _ :: _ => false end.

Definition plain_props (plain : json -> bool) (props : object) : bool :=
  forallb (fun kv => plain_name (fst kv)) props
  && distinct (map fst props) && enumerated (map fst props)
  && forallb (fun kv => plain (snd kv)) props.

Fixpoint plain (v : json) : bool :=
  match v with
  | JStr _ => true
  | JObj props => plain_props plain props && negb (is_nil props)
  | JNull | JBool _ | JNum _ | JArr _ => false
  end.

(** A document of plain values; the document itself may be empty. *)
Definition plain_doc (d : object) : bool := plain_props plain d.

(** The values whose names, at every level, are plain, distinct and
    in enumeration order, whatever the leaves are. *)
Fixpoint named (v : json) : bool :=
  match v with
  | JObj props => plain_props named props
  | JNull | JBool _ | JNum _ | JStr _ | JArr _ => true
  end.

Definition named_doc (d : object) : bool := plain_props named d.

(** What flattening keeps of a value: the strings, and the objects
    that have a string somewhere below them. *)
Fixpoint prune (v : json) : option json :=
  match v with
  | JStr s => Some (JStr s)
  | JObj props =>
      match flat_map
              (fun kv => match prune (snd kv) with
                         | Some v' => [(fst kv, v')]
                         | None => []
                         end) props with
      | [] => None
      | kept => Some (JObj kept)
      end
  | JNull | JBool _ | JNum _ | JArr _ => None
  end.

Definition prune_doc (d : object) : object :=
  flat_map
    (fun kv => match prune (snd kv) with
               | Some v' => [(fst kv, v')]
               | None => []
               end) d.

(** *** Building a document from leaves with their paths

    [unflattenJson] without the dotted notation. *)

Definition build (ls : list (path * string)) (root : object) : object :=
  fold_left (fun root leaf => set_path root (fst leaf) (snd leaf)) ls root.

Definition under (k : string) (leaf : path * string) : path * string :=
  (k :: fst leaf, snd leaf).

(** The object the walk finds or makes at [k]. *)
Definition child (obj : object) (k : string) : object :=
  match own_get obj k with
  | Some (JObj c) => c
  | _ => []
  end.

(** [k] does not hold a value whose [typeof] is ["object"] without its
    being an object. *)
Definition walkable (obj : object) (k : string) : Prop :=
  match own_get obj k with
  | Some JNull | Some (JArr _) => False
  | _ => True
  end.

(** The value [v], found at key [k], with every string leaf replaced by
    what [f] makes of its key and its string. *)
Fixpoint relabel (f : string -> string -> string) (v : json) (k : string) : json :=
  match v with
  | JStr s => JStr (f k s)
  | JObj props =>
      JObj (map (fun kv => (fst kv, relabel f (snd kv) (full_key k (fst kv)))) props)
  | JNull | JBool _ | JNum _ | JArr _ => v
  end.

Definition relabel_doc (f : string -> string -> string) (d : object) : object :=
  map (fun kv => (fst kv, relabel f (snd kv) (full_key "" (fst kv)))) d.

(** The value recorded for [k] in a flattening: that of the last entry
    with this key. *)
Definition flat_lookup (entries : list FlatEntry) (k : string) : option string :=
  value <$> List.find (fun e => (key e =? k)%string) (rev entries).

(** The value that the merge gives the source entry [(k, v)]: the
    translated value if there is one, otherwise the value the existing
    target has for [k] if there is one, otherwise [v]. *)
Definition merged_value (translated : gmap string string)
    (existingTarget : option object) (k v : string) : string :=
  match translated !! k with
  | Some t => t
  | None =>
      match existingTarget with
      | Some target =>
          match flat_lookup (flattenJson target "") k with
          | Some e => e
          | None => v
          end
      | None => v
      end
  end.

Definition merged_entry (translated : gmap string string)
    (existingTarget : option object) (e : FlatEntry) : FlatEntry :=
  Entry (key e) (merged_value translated existingTarget (key e) (value e)).

(** What the induction on a plain value establishes: its leaves, read
    below a fresh name [k] that nothing has to follow, add the property
    [k] with that value. *)
Definition grafts (v : json) : Prop :=
  plain v = true ->
  forall obj k,
    plain_name k = true ->
    ~ In k (map fst obj) ->
    Forall (fun k' => must_precede k k' = false) (map fst obj) ->
    build (map (under k) (leaves v)) obj = obj ++ [(k, v)].

End JsonSpec.

(** ** Markdown documents ([src/formats/markdown.ts]) *)

Module Markdown.

Record MarkdownFile := File { frontmatter : option string; body : string }.

Definition DELIMITER : string := "---".

Definition splitMarkdown (content : string) : MarkdownFile :=
  let trimmed := Str.trimStart content in
  if negb (Str.startsWith trimmed DELIMITER) then File None content
  else
    match Str.indexOf trimmed (Str.LF +:+ DELIMITER) 3 with
    | None => File None content
    | Some endIndex =>
        File (Some (Str.take (endIndex + 4) trimmed))
             (Str.drop (endIndex + 4) trimmed)
    end.

(** [!frontmatter] holds for [null] and for the empty string. *)
Definition assembleMarkdown (frontmatter : option string)
    (translatedBody : string) : string :=
  match frontmatter with
  | None | Some "" => translatedBody
  | Some fm => fm +:+ translatedBody
  end.

End Markdown.

(** ** Placeholder guard ([src/placeholders.ts]) *)

Module Placeholders.

(** *** The regular expressions

    The six patterns are sequences of character classes, each taken
    once, or repeated greedily. *)

Inductive cclass :=
| Lit (c : ascii)          (* the code unit itself *)
| OneOf (chars : string)   (* [sdfu@] *)
| Except (c : ascii)       (* [^)] *)
| Letter_                  (* [a-zA-Z_] *)
| Word                     (* \w *)
| Digit.                   (* \d *)

Inductive atom :=
| One (c : cclass)
| Star (c : cclass)
| Plus (c : cclass).

Abbreviation regex := (list atom).

Definition between (lo hi : N) (a : ascii) : bool :=
  ((lo <=? N_of_ascii a) && (N_of_ascii a <=? hi))%N.

Definition is_letter_ (a : ascii) : bool :=
  between 97 122 a || between 65 90 a || (a =? "_")%char.

Fixpoint occurs (a : ascii) (chars : string) : bool :=
  match chars with
  | "" => false
  | String c rest => (a =? c)%char || occurs a rest
  end.

Definition cmatch (c : cclass) (a : ascii) : bool :=
  match c with
  | Lit c => (a =? c)%char
  | OneOf chars => occurs a chars
  | Except c => negb (a =? c)%char
  | Letter_ => is_letter_ a
  | Word => is_letter_ a || between 48 57 a
  | Digit => between 48 57 a
  end.

(** [c*] followed by the continuation [k]: the longest run first, then
    shorter ones. The result is the length of the match. *)
Fixpoint match_star (c : cclass) (k : string -> option nat) (s : string)
  : option nat :=
  match s with
  | String a s' =>
      if cmatch c a then
        match match_star c k s' with
        | Some n => Some (S n)
        | None => k s
        end
      else k s
  | "" => k s
  end.

(** The length of the match of [r] at the start of [s], if any. *)
Fixpoint match_here (r : regex) (s : string) : option nat :=
  match r with
  | [] => Some O
  | One c :: r' =>
      match s with
      | String a s' => if cmatch c a then S <$> match_here r' s' else None
      | "" => None
      end
  | Star c :: r' => match_star c (match_here r') s
  | Plus c :: r' =>
      match s with
      | String a s' =>
          if cmatch c a then S <$> match_star c (match_here r') s' else None
      | "" => None
      end
  end.

Definition PLACEHOLDER_PATTERNS : list regex := [
  (* /\{\{[a-zA-Z_]\w*\}\}/g *)
  [One (Lit "{"); One (Lit "{"); One Letter_; Star Word; One (Lit "}"); One (Lit "}")];
  (* /\{[a-zA-Z_]\w*\}/g *)
  [One (Lit "{"); One Letter_; Star Word; One (Lit "}")];
  (* /%\d+\$[sdfu@]/g *)
  [One (Lit "%"); Plus Digit; One (Lit "$"); One (OneOf "sdfu@")];
  (* /%[sdfu@]/g *)
  [One (Lit "%"); One (OneOf "sdfu@")];
  (* /\$\{[a-zA-Z_]\w*\}/g *)
  [One (Lit "$"); One (Lit "{"); One Letter_; Star Word; One (Lit "}")];
  (* /\$t\([^)]+\)/g *)
  [One (Lit "$"); One (Lit "t"); One (Lit "("); Plus (Except ")"); One (Lit ")")]
].

(** *** The token map

    A [Map] iterated in insertion order. *)

Abbreviation token_map := (list (string * string)).

(** [map.set(k, v)] *)
Fixpoint map_set (m : token_map) (k v : string) : token_map :=
  match m with
  | [] => [(k, v)]
  | (k', v') :: rest =>
      if (k' =? k)%string then (k', v) :: rest else (k', v') :: map_set rest k v
  end.

(** *** protectPlaceholders *)

(** The two variables the replacer closes over. *)
Record scan_state := Scan { idx : nat; placeholders : token_map }.

Definition scan (A : Type) : Type := scan_state -> A * scan_state.

Definition ret {A} (a : A) : scan A := fun st => (a, st).

Definition bind {A B} (m : scan A) (f : A -> scan B) : scan B :=
  fun st => let (a, st') := m st in f a st'.

Notation "'let*' x := m 'in' k" := (bind m (fun x => k))
  (at level 10, x name, m at level 100, k at level 200).

(** The replacer: [(match) => { ... return token; }] *)
Definition replacer (matched : string) : scan string :=
  fun st =>
    let token := "__PH" +:+ Str.of_nat (idx st) +:+ "__" in
    (token, Scan (S (idx st)) (map_set (placeholders st) token matched)).

(** [s.replace(pattern, replacer)] for a global pattern: the matches
    are found from left to right, each search starting where the
    previous match ended; [skip] counts the code units of [s] that the
    previous match still covers. No pattern of the list matches the
    empty string. *)
Fixpoint replace_all (pattern : regex) (s : string) (skip : nat) : scan string :=
  match s with
  | "" => ret ""
  | String a s' =>
      match skip with
      | S n => replace_all pattern s' n
      | O =>
          match match_here pattern s with
          | Some (S n) =>
              let* token := replacer (Str.take (S n) s) in
              let* rest := replace_all pattern s' n in
              ret (token +:+ rest)
          | Some O | None =>
              let* rest := replace_all pattern s' O in
              ret (String a rest)
          end
      end
  end.

Record ProtectedText := Protected { text : string; protected_map : token_map }.

Definition protectPlaceholders (input : string) : ProtectedText :=
  let (result, st) :=
    fold_left
      (fun acc pattern => replace_all pattern (fst acc) O (snd acc))
      PLACEHOLDER_PATTERNS
      (input, Scan O []) in
  Protected result (placeholders st).

(** *** restorePlaceholders *)

Definition restorePlaceholders (input : string) (placeholders : token_map)
  : string :=
  fold_left
    (fun result entry => Str.replace result (fst entry) (snd entry))
    placeholders input.

(** *** Texts without placeholders *)

(** No match of [pattern] starts anywhere in [s]. *)
Fixpoint unmatched (pattern : regex) (s : string) : bool :=
  match s with
  | "" => true
  | String _ s' =>
      match match_here pattern s with
      | Some (S _) => false
      | Some O | None => true
      end && unmatched pattern s'
  end.

Definition placeholder_free (s : string) : bool :=
  forallb (fun pattern => unmatched pattern s) PLACEHOLDER_PATTERNS.

End Placeholders.

(** ** The numbers of the host language *)

Module Num.

(** A [number]: a finite one, as the rational number it is, or one of
    the three others. Every finite double is a rational number; the
    model has all of them. *)
Inductive number :=
| Finite (q : QArith_base.Q)
| NaN
| Infinity
| NegInfinity.

Definition of_Z (n : Z) : number := Finite (QArith_base.inject_Z n).

(** [Math.min(x, bound)] for an integer [bound]: [NaN] if [x] is. *)
Definition min (x : number) (bound : Z) : number :=
  match x with
  | Finite q =>
      if QArith_base.Qle_bool q (QArith_base.inject_Z bound) then x else of_Z bound
  | NaN => NaN
  | Infinity => of_Z bound
  | NegInfinity => NegInfinity
  end.

End Num.

(** ** Translation client ([src/client.ts]) *)

Module Client.

Import Num.

(** [500 * 2 ** attempt]: the product is a double up to attempt 1015,
    and [Infinity] from there on. *)
Definition backoff (attempt : nat) : number :=
  if (attempt <=? 1015)%nat then of_Z (500 * 2 ^ Z.of_nat attempt) else Infinity.

Section Retry.

(** The type of a decoded response body. *)
Variable Body : Type.

(** What [resp.json()] comes to: the decoded body, or the error it
    rejects with when the body is not JSON (a response without
    content, say). *)
Inductive parsed :=
| Parsed (data : Body)
| ParseError (message : string).

(** What the loop reads of a [Response]. [retryAfter] stands for the
    [retry-after] header: [None] when [resp.headers.get] gives [null]
    or the empty string, which are falsy; otherwise the number that
    [Number(retryAfter) * 1000] is for the header, [NaN] when the
    header is not the notation of a number (an HTTP date, say).
    [errorMessage] is [error.message] of the decoded body, if the
    body is JSON and has one. *)
Record Response := {
  status : Z;
  statusText : string;
  retryAfter : option number;
  errorMessage : option string;
  json : parsed
}.

(** What one [fetch] comes to: it throws (network failure, or the
    timeout of 30 seconds), or it yields a response. *)
Inductive fetched :=
| Rejected (message : string)
| Responded (resp : Response).

(** What the caller sees of [postWithRetry]. *)
Inductive outcome :=
| Returns (data : Body)
| Throws (message : string).

(** What the network and the clock see of it: the requests, and the
    delays [sleep] is called with. *)
Inductive event :=
| Fetch (attempt : nat)
| Sleep (ms : number).

Definition RETRIABLE_STATUS_CODES : list Z := [429; 500; 502; 503; 504].

Definition retriable (status : Z) : bool :=
  existsb (Z.eqb status) RETRIABLE_STATUS_CODES.

(** [resp.ok] *)
Definition ok (resp : Response) : bool :=
  (200 <=? status resp) && (status resp <=? 299).

(** [`Langbly API error (${resp.status}): ${message}`] *)
Definition api_error (resp : Response) : string :=
  "Langbly API error (" +:+ Str.of_Z (status resp) +:+ "): "
    +:+ default (statusText resp) (errorMessage resp).

Variable maxRetries : nat.

(** [`Langbly API request failed after ${this.maxRetries + 1} attempts: ...`] *)
Definition failed_after (message : string) : string :=
  "Langbly API request failed after " +:+ Str.of_nat (maxRetries + 1)
    +:+ " attempts: " +:+ message.

(** The network: what the [fetch] of each attempt comes to. *)
Variable network : nat -> fetched.

(** The [for] loop from [attempt] on; [left] is the number of
    iterations it still has, [maxRetries + 1 - attempt]. *)
Fixpoint attempts_from (left attempt : nat) (lastError : option string)
    (log : list event) : outcome * list event :=
  match left with
  | O => (Throws (default "Request failed" lastError), log)
  | S left' =>
      let log := log ++ [Fetch attempt] in
      match network attempt with
      | Rejected message =>
          if (attempt <? maxRetries)%nat then
            attempts_from left' (S attempt) (Some message)
              (log ++ [Sleep (backoff attempt)])
          else (Throws (failed_after message), log)
      | Responded resp =>
          if ok resp then
            match json resp with
            | Parsed data => (Returns data, log)
            | ParseError message => (Throws message, log)
            end
          else if negb (retriable (status resp)) then
            (Throws (api_error resp), log)
          else if (attempt <? maxRetries)%nat then
            let delay :=
              match retryAfter resp with
              | Some millis => Num.min millis 30000
              | None => backoff attempt
              end in
            attempts_from left' (S attempt) lastError (log ++ [Sleep delay])
          else (Throws (api_error resp), log)
      end
  end.

Definition postWithRetry : outcome * list event :=
  attempts_from (S maxRetries) O None [].

End Retry.

Arguments status {Body}.
Arguments statusText {Body}.
Arguments retryAfter {Body}.
Arguments errorMessage {Body}.
Arguments json {Body}.
Arguments ok {Body}.
Arguments api_error {Body}.
Arguments attempts_from {Body}.
Arguments postWithRetry {Body}.
Arguments Rejected {Body}.
Arguments Responded {Body}.
Arguments Parsed {Body}.
Arguments ParseError {Body}.
Arguments Returns {Body}.
Arguments Throws {Body}.

(** The client is constructed with [maxRetries = 2]. *)
Definition MAX_RETRIES : nat := 2.

End Client.

(** ** The retry policy: the vocabulary of the specification *)

Module ClientSpec.

Import Num Client.

Section Policy.

Context {Body : Type}.

(** The failures the code retries: a rejected [fetch], or a response
    whose status is in [RETRIABLE_STATUS_CODES]. *)
Definition transient (f : fetched Body) : bool :=
  match f with
  | Rejected _ => true
  | Responded resp => retriable (status resp)
  end.

(** The failures the specification calls transient: a rejected
    [fetch], status 429, or any status of the 5xx class. *)
Definition transient_by_class (f : fetched Body) : bool :=
  match f with
  | Rejected _ => true
  | Responded resp =>
      (status resp =? 429) || ((500 <=? status resp) && (status resp <=? 599))
  end.

Definition MAX_WAIT : Z := 30000.

(** The delay after a transient failure of the given attempt. For a
    response with a [retry-after] header that is not empty it is the
    hint of the server in milliseconds, capped, and [NaN] when the
    header is not a number; otherwise it is the exponential
    backoff. *)
Definition wait_after (f : fetched Body) (attempt : nat) : number :=
  match f with
  | Responded resp =>
      match retryAfter resp with
      | Some millis =>
          match millis with
          | NaN => NaN
          | _ => Num.min millis MAX_WAIT
          end
      | None => backoff attempt
      end
  | Rejected _ => backoff attempt
  end.

Variable network : nat -> fetched Body.

(** [more + 1] requests from [attempt] on, with a wait after each
    but the last. *)
Fixpoint schedule (more attempt : nat) : list event :=
  match more with
  | O => [Fetch attempt]
  | S more' =>
      Fetch attempt :: Sleep (wait_after (network attempt) attempt)
        :: schedule more' (S attempt)
  end.

Definition is_fetch (e : event) : bool :=
  match e with Fetch _ => true | Sleep _ => false end.

(** The number of requests in a log. *)
Definition requests (log : list event) : nat := length (List.filter is_fetch log).

(** What the caller gets of a response that is [ok]: the decoded
    body, or the error of the decoding. *)
Definition delivered (resp : Response Body) : outcome Body :=
  match json resp with
  | Parsed data => Returns data
  | ParseError message => Throws message
  end.

(** The error raised when the last attempt fails too. *)
Definition terminal_error (maxRetries : nat) (f : fetched Body) : string :=
  match f with
  | Rejected message => failed_after maxRetries message
  | Responded resp => api_error resp
  end.

End Policy.

End ClientSpec.

(** ** The documents and networks of the examples *)

Module Fixtures.

Import Json Num Client.

(** A document of the test suite. *)
Definition settings_document : object :=
  [("nav", JObj [("home", JStr "Home"); ("about", JStr "About")]);
   ("settings", JObj [("theme", JObj [("dark", JStr "Dark Mode");
                                      ("light", JStr "Light Mode")])])].

Definition abc_document : object :=
  [("a", JStr "Hello"); ("b", JStr "World"); ("c", JStr "New")].

(** A source with leaves that are not strings. *)
Definition mixed_document : object :=
  [("title", JStr "Hello"); ("count", JNum 42);
   ("menu", JObj [("items", JArr [JStr "a"]); ("open", JStr "Open")]);
   ("meta", JObj [("version", JNum 1)])].

Definition dotted_name_document : object := [("a.b", JStr "x")].

(** A name that is a path of the dotted notation into another name. *)
Definition prefix_document : object := [("a", JStr "x"); ("a.b", JStr "y")].

Definition ambiguous_document : object :=
  [("a.b", JStr "x"); ("a", JObj [("b", JStr "y")])].

Definition indented_document : string :=
  Str.LF +:+ "---" +:+ Str.LF +:+ "title: Test" +:+ Str.LF +:+ "---"
    +:+ Str.LF +:+ "Body".

(** A response with a body that is JSON; [hint] is the number of
    seconds in its [retry-after] header, if it has the header. *)
Definition respond (status : Z) (text : string) (hint : option Z) : fetched unit :=
  Responded {| status := status; statusText := text;
               retryAfter := option_map (fun seconds => of_Z (seconds * 1000)) hint;
               errorMessage := None; json := Parsed tt |}.

(** A response whose [retry-after] header is an HTTP date. *)
Definition respond_dated (status : Z) (text : string) : fetched unit :=
  Responded {| status := status; statusText := text; retryAfter := Some NaN;
               errorMessage := None; json := Parsed tt |}.

(** A response without content: [resp.json()] rejects. *)
Definition respond_empty (status : Z) (text : string) : fetched unit :=
  Responded {| status := status; statusText := text; retryAfter := None;
               errorMessage := None;
               json := ParseError "Unexpected end of JSON input" |}.

(** Busy with a date, then down, then busy with a hint of a minute. *)
Definition busy_then_down : nat -> fetched unit :=
  fun attempt =>
    match attempt with
    | O => respond_dated 503 "Service Unavailable"
    | 1%nat => Rejected "fetch failed"
    | _ => respond 429 "Too Many Requests" (Some 60)
    end.

Definition always_501 : nat -> fetched unit :=
  fun _ => respond 501 "Not Implemented" None.

Definition always_down : nat -> fetched unit := fun _ => Rejected "fetch failed".

Definition braces : Placeholders.regex := nth 1 Placeholders.PLACEHOLDER_PATTERNS [].
Definition positional : Placeholders.regex := nth 2 Placeholders.PLACEHOLDER_PATTERNS [].
Definition nested : Placeholders.regex := nth 5 Placeholders.PLACEHOLDER_PATTERNS [].

End Fixtures.

(** ** The batches, continued: neighbours *)

Module BatchNeighbours.

Import Batch.

(** The strings the loop has placed so far, in order. *)
Definition flat (st : state) : list string := concat (batches st) ++ currentBatch st.

Section Limits.

Variables maxItems maxChars : Z.

(** Two batches that could not have been sent as one: together they
    have more than [maxItems] strings or more than [maxChars] code
    units. *)
Definition unmergeable (b1 b2 : list string) : Prop :=
  maxItems < Z.of_nat (length b1) + Z.of_nat (length b2)
  \/ maxChars < total_length b1 + total_length b2.

(** Every batch is unmergeable with the next one. *)
Fixpoint chained (bs : list (list string)) : Prop :=
  match bs with
  | b1 :: (b2 :: _) as rest => unmergeable b1 b2 /\ chained rest
  | _ => True
  end.

Definition head_length (b : list string) : Z :=
  match b with
  | [] => 0
  | s :: _ => Str.len s
  end.

(** The batch [b], pushed last, could not take the first string of
    the accumulating batch. *)
Definition closed (b current : list string) : Prop :=
  (current <> [] /\ maxItems <= Z.of_nat (length b))
  \/ maxChars < total_length b + head_length current.

(** What the loop keeps true of its state, whatever the limits. *)
Record greedy (st : state) : Prop := {
  greedy_count : currentChars st = total_length (currentBatch st);
  greedy_chain : chained (batches st);
  greedy_last : forall b, last (batches st) = Some b -> closed b (currentBatch st)
}.

End Limits.

End BatchNeighbours.

(** ** The retry policy, continued: the waits *)

Module ClientWaits.

Import Num Client.

Definition TIMEOUT_MAX : Z := 2147483647.

(** [setTimeout(resolve, ms)]: the milliseconds the timer of the
    runtime is set to. A delay from 1 to [TIMEOUT_MAX] is truncated to
    an integer; for any other, and for [NaN], the timer is set to 1. *)
Definition lasts (ms : number) : Z :=
  match ms with
  | Finite q =>
      if QArith_base.Qle_bool (QArith_base.inject_Z 1) q
         && QArith_base.Qle_bool q (QArith_base.inject_Z TIMEOUT_MAX)
      then Qround.Qfloor q
      else 1
  | NaN | Infinity | NegInfinity => 1
  end.

(** The milliseconds the timers of a log are set to, in all. *)
Definition total_wait (log : list event) : Z :=
  fold_right (fun e ms => match e with Sleep d => lasts d + ms | Fetch _ => ms end)
    0 log.

(** No timer of the log is set to more than [bound]. *)
Definition waits_within (bound : Z) (log : list event) : Prop :=
  Forall (fun e => match e with Sleep d => lasts d <= bound | Fetch _ => True end) log.

End ClientWaits.

(** ** More string operations of the host language *)

Module StrTrim.

Import Str.

(** [s.trimEnd()] *)
Fixpoint trimEnd (s : string) : string :=
  match s with
  | "" => ""
  | String c s' =>
      match trimEnd s' with
      | "" => if is_white_space c then "" else String c ""
      | kept => String c kept
      end
  end.

(** [s.trim()] *)
Definition trim (s : string) : string := trimEnd (trimStart s).

(** [!s]: a string is falsy when it is empty. *)
Definition is_empty (s : string) : bool :=
  match s with "" => true | String _ _ => false end.

(** Every code unit of [s] satisfies [p]. *)
Fixpoint all (p : ascii -> bool) (s : string) : bool :=
  match s with
  | "" => true
  | String c s' => p c && all p s'
  end.

End StrTrim.

(** ** The translation of a file ([src/translate.ts]) *)

Module Pipeline.

Import Json Markdown.

(** What an awaited call comes to: its value, or the error it throws. *)
Inductive completion (A : Type) : Type :=
| Fulfilled (a : A)
| Thrown (message : string).

Arguments Fulfilled {A}.
Arguments Thrown {A}.

Definition and_then {A B} (m : completion A) (k : A -> completion B)
  : completion B :=
  match m with
  | Fulfilled a => k a
  | Thrown message => Thrown message
  end.

Notation "'await' x := m 'in' k" := (and_then m (fun x => k))
  (at level 10, x name, m at level 100, k at level 200).

(** The errors of the engine for a property read of [undefined]. *)
Definition UNDEFINED_PROTECTED : string :=
  "Cannot read properties of undefined (reading 'protected')".
Definition UNDEFINED_TEXT : string :=
  "Cannot read properties of undefined (reading 'text')".

(** [{ ...e, protected: protectPlaceholders(e.value) }] *)
Record ProtectedEntry := Guarded {
  entry : FlatEntry;
  protected : Placeholders.ProtectedText
}.

Definition guard (e : FlatEntry) : ProtectedEntry :=
  Guarded e (Placeholders.protectPlaceholders (value e)).

(** [e.protected.text] *)
Definition sent (e : ProtectedEntry) : string := Placeholders.text (protected e).

(** The two variables the loops of [batchTranslateWithPlaceholders]
    update. *)
Record progress := Progress {
  translated : gmap string string;
  entryIndex : nat
}.

(** The limits [batchTranslateWithPlaceholders] batches with. *)
Definition MAX_ITEMS : Z := 50.
Definition MAX_CHARS : Z := 10000.

Section Service.

(** [client.translate(batch, ...)] in iteration [i] of the loop over
    the batches: the [text]s of the translations it resolves to, or
    the error it rejects with. *)
Variable translate : nat -> list string -> completion (list string).

(** [for (const result of resultArray)] *)
Fixpoint store (protectedEntries : list ProtectedEntry)
    (results : list string) (st : progress) : completion progress :=
  match results with
  | [] => Fulfilled st
  | result :: rest =>
      match protectedEntries !! entryIndex st with
      | None => Thrown UNDEFINED_PROTECTED
      | Some e =>
          let restored :=
            Placeholders.restorePlaceholders result
              (Placeholders.protected_map (protected e)) in
          store protectedEntries rest
            (Progress (<[key (entry e) := restored]> (translated st))
                      (S (entryIndex st)))
      end
  end.

(** [for (let i = 0; i < batches.length; i++)], from [i] on. *)
Fixpoint translate_batches (protectedEntries : list ProtectedEntry)
    (i : nat) (batches : list (list string)) (st : progress)
  : completion progress :=
  match batches with
  | [] => Fulfilled st
  | batch :: rest =>
      await results := translate i batch in
      await st' := store protectedEntries results st in
      translate_batches protectedEntries (S i) rest st'
  end.

Definition batchTranslateWithPlaceholders (entries : list FlatEntry)
  : completion (gmap string string) :=
  let protectedEntries := map guard entries in
  let values := map sent protectedEntries in
  let batches := Batch.batchStrings values MAX_ITEMS MAX_CHARS in
  await st := translate_batches protectedEntries 0 batches (Progress ∅ 0) in
  Fulfilled (translated st).

(** What a call for one file and one language returns, and the
    document it hands to the serializer for the output path, if it
    writes one. *)
Record summary (Doc : Type) := Summary {
  files : Z;
  chars : Z;
  written : option Doc
}.

Arguments Summary {Doc}.

(** [translateJsonFile] from the parsed source on. [existingTarget]
    is the parsed target file, an object, or [None] when reading or
    parsing the file fails. Of the output the model has the document
    that is serialized, not the text. *)
Definition translateJsonFile (sourceJson : object)
    (existingTarget : option object) (dryRun : bool)
  : completion (summary object) :=
  let sourceEntries := flattenJson sourceJson "" in
  match sourceEntries with
  | [] => Fulfilled (Summary 0 0 None)
  | _ :: _ =>
      let toTranslate := computeDiff sourceEntries existingTarget in
      match toTranslate with
      | [] => Fulfilled (Summary 0 0 None)
      | _ :: _ =>
          if dryRun then
            Fulfilled
              (Summary 0 (Batch.countCharacters (map value toTranslate)) None)
          else
            await translated := batchTranslateWithPlaceholders toTranslate in
            let merged :=
              mergeTranslations sourceEntries translated existingTarget in
            Fulfilled
              (Summary 1 (Batch.countCharacters (map value toTranslate))
                       (Some merged))
      end
  end.

(** [Object.entries] of an array: the indices as names. *)
Definition indexed (items : list json) : object :=
  imap (fun i v => (Str.of_nat i, v)) items.

(** [parseYaml] from the loaded value on, for the values that JSON
    has too. *)
Definition parseYaml (parsed : json) : list FlatEntry :=
  match parsed with
  | JObj props => flattenJson props ""
  | JArr items => flattenJson (indexed items) ""
  | JNull | JBool _ | JNum _ | JStr _ => []
  end.

(** [translateYamlFile] from the loaded source on; what it writes is
    the object [serializeYaml] hands to the YAML printer. *)
Definition translateYamlFile (parsed : json)
    (existingTarget : option object) (dryRun : bool)
  : completion (summary object) :=
  let sourceEntries := parseYaml parsed in
  match sourceEntries with
  | [] => Fulfilled (Summary 0 0 None)
  | _ :: _ =>
      let toTranslate := computeDiff sourceEntries existingTarget in
      match toTranslate with
      | [] => Fulfilled (Summary 0 0 None)
      | _ :: _ =>
          if dryRun then
            Fulfilled
              (Summary 0 (Batch.countCharacters (map value toTranslate)) None)
          else
            await translated := batchTranslateWithPlaceholders toTranslate in
            let merged :=
              mergeTranslations sourceEntries translated existingTarget in
            let mergedEntries := flattenJson merged "" in
            Fulfilled
              (Summary 1 (Batch.countCharacters (map value toTranslate))
                       (Some (unflattenJson mergedEntries)))
      end
  end.

(** [client.translate(body, ...)] with one string: the first of the
    translations. *)
Definition translate_one (text : string) : completion (option string) :=
  await translations := translate 0 [text] in
  Fulfilled (head translations).

(** [translateMarkdownFile] from the content of the source on; what
    it writes is the content of the output. *)
Definition translateMarkdownFile (sourceContent : string) (dryRun : bool)
  : completion (summary string) :=
  let parts := splitMarkdown sourceContent in
  if StrTrim.is_empty (StrTrim.trim (body parts)) then
    Fulfilled (Summary 0 0 None)
  else if dryRun then Fulfilled (Summary 0 (Str.len (body parts)) None)
  else
    await result := translate_one (body parts) in
    match result with
    | None => Thrown UNDEFINED_TEXT
    | Some text =>
        let translatedContent := assembleMarkdown (frontmatter parts) text in
        Fulfilled (Summary 1 (Str.len (body parts)) (Some translatedContent))
    end.

End Service.

Arguments Summary {Doc}.
Arguments files {Doc}.
Arguments chars {Doc}.
Arguments written {Doc}.

End Pipeline.

(** ** The translation of a file: the vocabulary of its properties *)

Module PipelineSpec.

Import Json Pipeline.

(** What [translated.set] records for a protected entry when the
    service answers its text with [f]. *)
Definition record (f : string -> string) (m : gmap string string)
    (e : ProtectedEntry) : gmap string string :=
  <[key (entry e) :=
      Placeholders.restorePlaceholders (f (sent e))
        (Placeholders.protected_map (protected e))]> m.

(** What the code restores of the answer [f] gives for the protected
    form of [v]. *)
Definition restored (f : string -> string) (v : string) : string :=
  let p := Placeholders.protectPlaceholders v in
  Placeholders.restorePlaceholders (f (Placeholders.text p))
    (Placeholders.protected_map p).

(** The entry that the loop records for [e] when the service answers
    with [f]. *)
Definition translated_entry (f : string -> string) (e : FlatEntry) : FlatEntry :=
  Entry (key e) (restored f (value e)).

(** The value the target has for the key [k]. *)
Definition existing_value (existingTarget : option object) (k : string)
  : option string :=
  match existingTarget with
  | Some target => JsonSpec.flat_lookup (flattenJson target "") k
  | None => None
  end.

(** The value of the output at key [k], where the source has [v]: the
    one the target has already, or else the translation of [v]. *)
Definition output_value (f : string -> string) (existingTarget : option object)
    (k v : string) : string :=
  default (restored f v) (existing_value existingTarget k).

(** A service that answers each string by itself: every call resolves
    to the images of its strings under [f]. *)
Definition pointwise (translate : nat -> list string -> completion (list string))
    (f : string -> string) : Prop :=
  forall i batch, translate i batch = Fulfilled (map f batch).

(** A service that answers, when it does, with one text for each
    string. *)
Definition aligned (translate : nat -> list string -> completion (list string))
  : Prop :=
  forall i batch results,
    translate i batch = Fulfilled results -> length results = length batch.

(** A service that answers every call, with at most one text for each
    string. *)
Definition answers_within
    (translate : nat -> list string -> completion (list string)) : Prop :=
  forall i batch,
    exists results,
      translate i batch = Fulfilled results
      /\ (length results <= length batch)%nat.

(** The batches that are sent for the entries. *)
Definition batches_of (entries : list FlatEntry) : list (list string) :=
  Batch.batchStrings (map sent (map guard entries)) MAX_ITEMS MAX_CHARS.

End PipelineSpec.
(** ** The indentation of the source ([detectIndent] of [src/translate.ts]) *)

Module Indent.

Import Str.

Definition TAB : ascii := "009".
Definition CR : ascii := "013".
Definition NL : ascii := "010".
Definition SPACE : ascii := " ".

(** The code units after which [^] matches under the flag [m], among
    those below 256: LF and CR. *)
Definition is_line_terminator (c : ascii) : bool :=
  match N_of_ascii c with
  | 10 | 13 => true
  | _ => false
  end%N.

(** What [\s+] takes at the start of [s]: all the white space there
    is; [\s] is the white space of [is_white_space]. *)
Fixpoint white_prefix (s : string) : string :=
  match s with
  | String c s' => if is_white_space c then String c (white_prefix s') else ""
  | "" => ""
  end.

(** [content.match(/^(\s+)/m)]: the group of the leftmost match, if
    there is a match. [line_start] tells whether [^] matches where [s]
    starts. *)
Fixpoint first_indent (line_start : bool) (s : string) : option string :=
  match s with
  | "" => None
  | String c s' =>
      if line_start && is_white_space c then Some (white_prefix s)
      else first_indent (is_line_terminator c) s'
  end.

(** [number | string] *)
Inductive indentation :=
| Count (n : nat)
| Text (s : string).

Definition detectIndent (content : string) : indentation :=
  match first_indent true content with
  | None => Count 2
  | Some indent =>
      if includes indent TAB then Text (String TAB "")
      else Count (String.length indent)
  end.

End Indent.

(** ** The indentation of the source: the vocabulary of its properties *)

Module IndentSpec.

Import Str Indent.

(** [n] spaces. *)
Fixpoint spaces (n : nat) : string :=
  match n with
  | O => ""
  | S n' => String SPACE (spaces n')
  end.

(** A first line: not empty, no white space at its start, no line
    terminator in it. *)
Definition first_line (s : string) : bool :=
  match s with
  | "" => false
  | String c _ =>
      negb (is_white_space c) && StrTrim.all (fun c => negb (is_line_terminator c)) s
  end.

(** The text goes on with something other than white space, or ends. *)
Definition starts_black (s : string) : bool :=
  match s with
  | "" => true
  | String c _ => negb (is_white_space c)
  end.

End IndentSpec.

(** ** The inputs of the action ([run] of [src/main.ts]) *)

Module Inputs.

Definition COMMA : ascii := ",".

(** [targetLanguagesRaw.split(",").map((l) => l.trim()).filter((l) => l.length > 0)] *)
Definition targetLanguages (targetLanguagesRaw : string) : list string :=
  List.filter (fun l => 0 <? Str.len l)
    (map StrTrim.trim (Str.split COMMA targetLanguagesRaw)).

(** What [run] does next. *)
Inductive checked :=
| Failed (message : string)
| Proceeds (targetLanguages : list string).

(** [run] once the inputs are read, that is once every call of
    [core.getInput] and [core.getBooleanInput] has returned, up to the
    check of the parsed list; [targetLanguagesRaw] is the value
    returned for [target-languages]. It is
    [core.setFailed("No target languages specified")] and [return], or
    on to the files with the list. *)
Definition check_languages (targetLanguagesRaw : string) : checked :=
  match targetLanguages targetLanguagesRaw with
  | [] => Failed "No target languages specified"
  | _ :: _ => Proceeds (targetLanguages targetLanguagesRaw)
  end.

(** A code unit that names no language: a comma or white space. *)
Definition separates (c : ascii) : bool :=
  (c =? COMMA)%char || Str.is_white_space c.

End Inputs.
(** ** The tokens of the placeholder guard *)

Module Tokens.

Import Placeholders.

(** [`__PH${idx}__`] *)
Definition token (i : nat) : string := "__PH" +:+ Str.of_nat i +:+ "__".

(** The first [n] tokens. *)
Definition tokens (n : nat) : list string := map token (seq 0 n).

(** The state of a scan in which the tokens recorded are those handed
    out, in the order in which they were handed out. *)
Definition numbered (st : scan_state) : Prop :=
  map fst (placeholders st) = tokens (idx st).

End Tokens.
(** ** The client as the service of the pipeline ([translate] of [src/client.ts]) *)

Module Service.

Import Client ClientSpec Pipeline.

(** The body of a response, decoded: what
    [data.data.translations.map(...)] comes to, the [text]s of the
    translations or the error of the engine for a body of another
    form. *)
Abbreviation decoded := (completion (list string)).

(** [translate] for an array of strings, over the network that
    answers its request. *)
Definition translate (network : nat -> fetched decoded) : completion (list string) :=
  match fst (postWithRetry MAX_RETRIES network) with
  | Returns texts => texts
  | Throws message => Thrown message
  end.

(** The service the pipeline sees when what the network does for the
    strings [q] of call [i] is [network i q]. *)
Definition over (network : nat -> list string -> nat -> fetched decoded)
  : nat -> list string -> completion (list string) :=
  fun i q => translate (network i q).

(** The network answers the request, after fewer failures than the
    client retries, with the images of the strings under [f]. *)
Definition recovers (f : string -> string) (q : list string)
    (network : nat -> fetched decoded) : Prop :=
  exists k resp,
    (k <= MAX_RETRIES)%nat
    /\ (forall a, (a < k)%nat -> transient (network a) = true)
    /\ network k = Responded resp
    /\ ok resp = true
    /\ json resp = Parsed (Fulfilled (map f q)).

End Service.
(** ** Texts with tokens: the vocabulary of the properties of the guard *)

Module Marked.

Import Placeholders Tokens.

(** A text in which tokens stand: what precedes the first token, and
    the tokens in their order, each with what follows it up to the
    next token. *)
Record marked := Mark {
  lead : string;
  parts : list (nat * string)
}.

Fixpoint render_parts (ps : list (nat * string)) : string :=
  match ps with
  | [] => ""
  | (i, s) :: rest => token i +:+ s +:+ render_parts rest
  end.

(** The text, with its tokens. *)
Definition render (t : marked) : string := lead t +:+ render_parts (parts t).

(** The original of the token [i], if [originals] has one. *)
Definition original (originals : list (nat * string)) (i : nat) : option string :=
  snd <$> List.find (fun io => (fst io =? i)%nat) originals.

Fixpoint restored_parts (originals : list (nat * string))
    (ps : list (nat * string)) : string :=
  match ps with
  | [] => ""
  | (i, s) :: rest =>
      default (token i) (original originals i) +:+ s
        +:+ restored_parts originals rest
  end.

(** The text, with the original in the place of every token that has
    one. *)
Definition restored (originals : list (nat * string)) (t : marked) : string :=
  lead t +:+ restored_parts originals (parts t).

(** The [Map] of the tokens to the originals. *)
Definition token_entries (originals : list (nat * string)) : token_map :=
  map (fun io => (token (fst io), snd io)) originals.

(** The text with [o] in the place of the token [j], where it stands
    first. *)
Fixpoint put_parts (j : nat) (o : string) (before : string)
    (ps : list (nat * string)) : marked :=
  match ps with
  | [] => Mark before []
  | (i, s) :: rest =>
      if (i =? j)%nat then Mark (before +:+ o +:+ s) rest
      else
        let t := put_parts j o s rest in
        Mark before ((i, lead t) :: parts t)
  end.

Definition put (j : nat) (o : string) (t : marked) : marked :=
  put_parts j o (lead t) (parts t).

(** What may follow the text between two tokens: nothing, or a token. *)
Definition ends_or_token (rest : string) : Prop :=
  rest = "" \/ exists i Z, rest = token i +:+ Z.

Definition is_digit (c : ascii) : bool := between 48 57 c.

(** No [PH] with a digit after it: nothing that could be the middle of
    a token. *)
Fixpoint clear (s : string) : bool :=
  match s with
  | String a (String b (String c _) as s') =>
      negb ((a =? "P")%char && (b =? "H")%char && is_digit c) && clear s'
  | _ => true
  end.

(** A replacement string that stands for itself: no dollar before
    [$], [&], a backquote or a quote. *)
Fixpoint inert (template : string) : bool :=
  match template with
  | String a (String c _ as tail) =>
      negb ((a =? "$")%char
            && ((c =? "$")%char || (c =? "&")%char || (c =? "`")%char
                || (c =? "'")%char))
      && inert tail
  | _ => true
  end.

(** The originals of a token map, each with the number of its
    token when the tokens are numbered in order. *)
Definition indexed (m : token_map) : list (nat * string) :=
  imap (fun i entry => (i, snd entry)) m.

(** The code units of which tokens consist. *)
Definition token_unit (c : ascii) : bool :=
  (c =? "_")%char || (c =? "P")%char || (c =? "H")%char || is_digit c.

(** The code units with which a token begins. *)
Definition token_head (c : ascii) : bool :=
  (c =? "_")%char || (c =? "P")%char || (c =? "H")%char.

(** A pattern of which no match starts within a token, or ends
    within the first four code units of one. *)
Definition guarded (pattern : regex) : Prop :=
  (forall c s, token_unit c = true -> match_here pattern (String c s) = None)
  /\ (forall s n, match_here pattern s = Some n ->
        exists m c, n = S m /\ String.get m s = Some c /\ token_head c = false).

End Marked.
(** ** Keys: the vocabulary of the properties of the entries *)

Module JsonKeys.

Import Json.

(** No key of the entries has [__proto__] among its segments. *)
Definition proto_free (entries : list FlatEntry) : bool :=
  forallb
    (fun e => negb (existsb (String.eqb PROTO) (Str.split "." (key e))))
    entries.

End JsonKeys.
(** ** The services, networks and files of the examples *)

Module Samples.

Import Json Client Pipeline Service.

Definition french (s : string) : string := "fr:" +:+ s.

(** A service that answers every string with its image under [f]. *)
Definition answering (f : string -> string)
  : nat -> list string -> completion (list string) :=
  fun _ batch => Fulfilled (map f batch).

(** A service that answers the calls before call [k], and fails from
    then on. *)
Definition failing_from (k : nat) (message : string)
  : nat -> list string -> completion (list string) :=
  fun i batch => if (i <? k)%nat then Fulfilled (map french batch) else Thrown message.

Definition abc_target : object := [("b", JStr "Monde"); ("a", JStr "Bonjour")].

Definition greeting_document : object :=
  [("greeting", JStr "Hello {name}"); ("farewell", JStr "Bye")].

(** A document whose first string is longer than a batch may be. *)
Definition long_document : object :=
  [("a", JStr (IndentSpec.spaces (Z.to_nat 10001))); ("b", JStr "Hello {name}")].

Definition post : string :=
  "---" +:+ Str.LF +:+ "title: Test" +:+ Str.LF +:+ "---" +:+ Str.LF +:+ "Body".

Definition post_frontmatter : string :=
  "---" +:+ Str.LF +:+ "title: Test" +:+ Str.LF +:+ "---".

Definition answer (status : Z) (texts : list string) : fetched decoded :=
  Responded {| status := status; statusText := "OK"; retryAfter := None;
               errorMessage := None; json := Parsed (Fulfilled texts) |}.

(** A network on which the first [failures] requests are rejected and
    the next one is answered. *)
Definition flaky (failures : nat) (f : string -> string) (q : list string)
  : nat -> fetched decoded :=
  fun attempt =>
    if (attempt <? failures)%nat then Rejected "fetch failed"
    else answer 200 (map f q).

(** Two rejected requests before every answer. *)
Definition unsteady (f : string -> string)
  : nat -> list string -> nat -> fetched decoded :=
  fun _ q => flaky 2 f q.

(** A network that answers the third request, with status 200 or with
    another one. *)
Definition third_time (status : Z) : nat -> fetched unit :=
  fun attempt =>
    if (attempt <? 2)%nat then Fixtures.respond 503 "Service Unavailable" (Some 1)
    else Fixtures.respond status "Done" None.

End Samples.
(** * Part II: facts *)

(** ** Strings *)

Module StrFacts.

Import Str.

Lemma len_nonneg s : 0 <= len s.
Proof. unfold len. lia. Qed.

Lemma take_drop n s : take n s +:+ drop n s = s.
Proof.
  revert s. induction n as [|n IH]; intros [|c s]; simpl; try reflexivity.
  now rewrite IH.
Qed.

Lemma startsWith_nonempty s c p : startsWith s (String c p) = true -> s <> "".
Proof. intros H ->. discriminate. Qed.

(** *** [split] *)

Lemma split_nonempty sep s : split sep s <> [].
Proof.
  destruct s as [|c s]; simpl; [discriminate|].
  destruct (c =? sep)%char; [discriminate|].
  destruct (split sep s); discriminate.
Qed.

(** Splitting around a separator splits both sides. *)
Lemma split_app sep s1 s2 :
  split sep (s1 +:+ String sep s2) = split sep s1 ++ split sep s2.
Proof.
  induction s1 as [|c s1 IH]; simpl.
  - now rewrite Ascii.eqb_refl.
  - destruct (c =? sep)%char; [now rewrite IH|].
    rewrite IH. destruct (split sep s1) as [|first others] eqn:E.
    + now destruct (split_nonempty sep s1).
    + reflexivity.
Qed.

Lemma split_whole sep s : includes s sep = false -> split sep s = [s].
Proof.
  induction s as [|c s IH]; simpl; [reflexivity|].
  intros H. apply orb_false_iff in H as [-> H]. now rewrite (IH H).
Qed.

(** *** The tests of the repository have [\n] in their strings. *)

Example trimStart_example : trimStart (LF +:+ " " +:+ "a b ") = "a b ".
Proof. reflexivity. Qed.

Example replace_first_only : replace "a-b-c" "-" "+" = "a+b-c".
Proof. reflexivity. Qed.

Example replace_dollar_patterns :
  replace "abc" "b" "[$$|$&|$`|$'|$1|$]" = "a[$|b|a|c|$1|$]c".
Proof. reflexivity. Qed.

End StrFacts.

(** ** Batch scheduler *)

Module BatchFacts.

Import Batch.

(** The scenarios of the test suite. *)
Example batch_small :
  batchStrings ["Hello"; "World"] 50 10000 = [["Hello"; "World"]].
Proof. reflexivity. Qed.

Example batch_max_items :
  batchStrings ["a"; "b"; "c"; "d"; "e"] 2 10000 = [["a"; "b"]; ["c"; "d"]; ["e"]].
Proof. reflexivity. Qed.

Example batch_max_chars :
  batchStrings ["hello"; "world"; "foo"] 50 8 = [["hello"]; ["world"; "foo"]].
Proof. reflexivity. Qed.

Example batch_oversized :
  batchStrings ["ab"; "0123456789"; "cd"] 50 5 = [["ab"]; ["0123456789"]; ["cd"]].
Proof. reflexivity. Qed.

Example batch_empty : batchStrings [] 50 10000 = [].
Proof. reflexivity. Qed.

(** With [maxItems = 0] the guard [currentBatch.length >= maxItems] holds
    for the empty batch, which is then pushed. *)
Example batch_zero_items : batchStrings ["a"] 0 10 = [[]; ["a"]].
Proof. reflexivity. Qed.

(** [countCharacters] is the sum of the lengths. *)
Lemma countCharacters_total b : countCharacters b = total_length b.
Proof.
  unfold countCharacters.
  assert (H : forall acc, fold_left (fun sum s => sum + Str.len s) b acc
                          = acc + total_length b).
  { induction b as [|s b IH]; intros acc; simpl; [lia|]. rewrite IH. lia. }
  apply H.
Qed.

Section Invariant.

Variables maxItems maxChars : Z.
Hypothesis items_pos : 1 <= maxItems.

Abbreviation good_batch := (BatchSpec.good_batch maxItems maxChars).
Abbreviation open_batch := (BatchSpec.open_batch maxItems maxChars).
Abbreviation inv := (BatchSpec.inv maxItems maxChars).

Lemma countCharacters_snoc l s :
  countCharacters (l ++ [s]) = countCharacters l + Str.len s.
Proof. unfold countCharacters. now rewrite fold_left_app. Qed.

Lemma open_batch_nil : open_batch [] 0.
Proof. split; simpl; try easy. lia. Qed.

Lemma open_is_good b chars :
  b <> [] -> open_batch b chars -> good_batch b.
Proof.
  intros Hne [Hi Hc Hch Hs]. split; auto.
  - intros _. subst chars. auto.
  - intros s Hin Hlt. apply Hs in Hin. lia.
Qed.

Lemma singleton_good s : good_batch [s].
Proof.
  split; simpl; try easy; try lia.
  intros s' [->|[]] _. reflexivity.
Qed.

Lemma inv_init : inv [] init.
Proof. split; simpl; auto using open_batch_nil. Qed.

Lemma inv_push_current seen st :
  currentBatch st <> [] -> inv seen st -> inv seen (push_current st).
Proof.
  intros Hne [Hc Hd Ho]. split; simpl.
  - rewrite concat_app. simpl. now rewrite !app_nil_r.
  - apply Forall_app. split; [assumption|].
    constructor; [|constructor]. eapply open_is_good; eauto.
  - apply open_batch_nil.
Qed.

Lemma length_pos_nonnil {A} (l : list A) :
  (0 <? Z.of_nat (length l)) = true <-> l <> [].
Proof. destruct l; simpl; split; intros; try easy. Qed.

Lemma inv_step seen st s :
  inv seen st -> inv (seen ++ [s]) (step maxItems maxChars st s).
Proof.
  intros Hinv. unfold step.
  destruct (Z.ltb_spec maxChars (Str.len s)) as [Hbig|Hfit].
  - (* An oversized string: flush, then a batch of its own. *)
    assert (Hflush : inv seen
      (if 0 <? Z.of_nat (length (currentBatch st)) then push_current st else st)
      /\ currentBatch
           (if 0 <? Z.of_nat (length (currentBatch st)) then push_current st else st)
         = []).
    { destruct (0 <? Z.of_nat (length (currentBatch st))) eqn:E.
      - apply length_pos_nonnil in E. split; [now apply inv_push_current|reflexivity].
      - split; [assumption|]. destruct (currentBatch st); [reflexivity|discriminate]. }
    destruct Hflush as [[Hc Hd Ho] Hnil]. split; simpl.
    + rewrite Hnil in *. rewrite concat_app. simpl.
      rewrite !app_nil_r in *. now rewrite Hc.
    + apply Forall_app. split; [assumption|].
      constructor; [apply singleton_good|constructor].
    + assumption.
  - (* A string that fits the budget on its own. *)
    set (full := (maxItems <=? Z.of_nat (length (currentBatch st)))
                 || (maxChars <? currentChars st + Str.len s)).
    destruct full eqn:E; subst full.
    + assert (Hne : currentBatch st <> []).
      { intros Hnil. destruct Hinv as [_ _ [_ Hcnt _ _]].
        rewrite Hnil in *. simpl in *. subst.
        apply orb_true_iff in E as [E|E].
        - apply Z.leb_le in E. lia.
        - apply Z.ltb_lt in E. unfold countCharacters in Hcnt. simpl in Hcnt. lia. }
      destruct (inv_push_current _ _ Hne Hinv) as [Hc Hd _].
      split; simpl.
      * simpl in Hc. rewrite app_nil_r in Hc. now rewrite Hc.
      * assumption.
      * split; simpl.
        -- lia.
        -- unfold countCharacters. simpl. lia.
        -- intros _. lia.
        -- intros s' [<-|[]]. assumption.
    + apply orb_false_iff in E as [E1 E2].
      apply Z.leb_gt in E1. apply Z.ltb_ge in E2.
      destruct Hinv as [Hc Hd [Hi Hcnt Hch Hs]]. split; simpl.
      * now rewrite app_assoc, Hc.
      * assumption.
      * split.
        -- rewrite length_app. simpl. lia.
        -- rewrite countCharacters_snoc. lia.
        -- intros _. assumption.
        -- intros s' Hin. apply in_app_or in Hin as [Hin|[->|[]]]; auto.
Qed.

Lemma inv_fold strings : forall seen st,
  inv seen st ->
  inv (seen ++ strings) (fold_left (step maxItems maxChars) strings st).
Proof.
  induction strings as [|s strings IH]; intros seen st Hinv; simpl.
  - now rewrite app_nil_r.
  - replace (seen ++ s :: strings) with ((seen ++ [s]) ++ strings)
      by now rewrite <- app_assoc.
    apply IH. now apply inv_step.
Qed.

(** Every batch of the result is a [good_batch], and the batches
    concatenate to the input. *)
Lemma batchStrings_good strings :
  Forall good_batch (batchStrings strings maxItems maxChars)
  /\ concat (batchStrings strings maxItems maxChars) = strings.
Proof.
  unfold batchStrings.
  pose proof (inv_fold strings [] init inv_init) as [Hc Hd Ho].
  simpl in Hc.
  destruct (0 <? Z.of_nat (length (currentBatch _))) eqn:E.
  - apply length_pos_nonnil in E. split.
    + apply Forall_app. split; [assumption|].
      constructor; [|constructor]. eapply open_is_good; eauto.
    + rewrite concat_app. simpl. now rewrite app_nil_r.
  - split; [assumption|].
    destruct (currentBatch _); [|discriminate].
    now rewrite app_nil_r in Hc.
Qed.

End Invariant.

End BatchFacts.

(** ** Markdown documents *)

Module MarkdownFacts.

Import Str Markdown.

(** The scenarios of the test suite. *)

Example split_frontmatter :
  splitMarkdown ("---" +:+ LF +:+ "title: Hello" +:+ LF +:+ "---" +:+ LF +:+ LF +:+ "# Doc")
  = File (Some ("---" +:+ LF +:+ "title: Hello" +:+ LF +:+ "---"))
         (LF +:+ LF +:+ "# Doc").
Proof. reflexivity. Qed.

Example split_no_frontmatter :
  splitMarkdown ("# Just a heading" +:+ LF +:+ "Some text.")
  = File None ("# Just a heading" +:+ LF +:+ "Some text.").
Proof. reflexivity. Qed.

Example split_unclosed :
  splitMarkdown ("---" +:+ LF +:+ "title: Incomplete" +:+ LF +:+ "text")
  = File None ("---" +:+ LF +:+ "title: Incomplete" +:+ LF +:+ "text").
Proof. reflexivity. Qed.

Example split_empty_body :
  splitMarkdown ("---" +:+ LF +:+ "title: Empty" +:+ LF +:+ "---")
  = File (Some ("---" +:+ LF +:+ "title: Empty" +:+ LF +:+ "---")) "".
Proof. reflexivity. Qed.

(** The test "handles leading whitespace": what precedes the opening
    delimiter is in neither part. *)
Example split_leading_whitespace :
  splitMarkdown (LF +:+ LF +:+ "---" +:+ LF +:+ "title: Test" +:+ LF +:+ "---" +:+ LF +:+ LF +:+ "Body")
  = File (Some ("---" +:+ LF +:+ "title: Test" +:+ LF +:+ "---")) (LF +:+ LF +:+ "Body").
Proof. reflexivity. Qed.

(** The two parts of a document with frontmatter are the two sides of a
    cut of the trimmed content, and the first is not empty. *)
Lemma split_cut content fm :
  frontmatter (splitMarkdown content) = Some fm ->
  fm <> "" /\ fm +:+ body (splitMarkdown content) = trimStart content.
Proof.
  unfold splitMarkdown.
  destruct (startsWith (trimStart content) DELIMITER) eqn:Hstart; simpl;
    [|discriminate].
  destruct (indexOf _ _ _) as [endIndex|]; simpl; [|discriminate].
  intros [= <-]. split.
  - apply StrFacts.startsWith_nonempty in Hstart.
    destruct (trimStart content) as [|c s]; [congruence|].
    replace (endIndex + 4)%nat with (S (endIndex + 3)) by lia. discriminate.
  - apply StrFacts.take_drop.
Qed.

Lemma split_without_frontmatter content :
  frontmatter (splitMarkdown content) = None ->
  body (splitMarkdown content) = content.
Proof.
  unfold splitMarkdown.
  destruct (startsWith (trimStart content) DELIMITER); simpl; [|reflexivity].
  destruct (indexOf _ _ _); simpl; [discriminate|reflexivity].
Qed.

Lemma assemble_some fm b : fm <> "" -> assembleMarkdown (Some fm) b = fm +:+ b.
Proof. destruct fm; [congruence|reflexivity]. Qed.

Lemma assemble_split content :
  assembleMarkdown (frontmatter (splitMarkdown content))
                   (body (splitMarkdown content))
  = match frontmatter (splitMarkdown content) with
    | Some _ => trimStart content
    | None => content
    end.
Proof.
  destruct (frontmatter (splitMarkdown content)) as [fm|] eqn:E.
  - destruct (split_cut _ _ E) as [Hne Hcut].
    now rewrite assemble_some.
  - simpl. now apply split_without_frontmatter.
Qed.

End MarkdownFacts.

(** ** Hierarchical documents *)

Module JsonFacts.

Import Json JsonSpec.

(** *** The scenarios of the test suite *)

Example flatten_nested :
  flattenJson
    [("nav", JObj [("home", JStr "Home"); ("about", JStr "About Us")]);
     ("footer", JObj [("copyright", JStr "Copyright 2026")])] ""
  = [Entry "nav.home" "Home"; Entry "nav.about" "About Us";
     Entry "footer.copyright" "Copyright 2026"].
Proof. reflexivity. Qed.

Example flatten_deep :
  flattenJson [("a", JObj [("b", JObj [("c", JObj [("d", JStr "deep")])])])] ""
  = [Entry "a.b.c.d" "deep"].
Proof. reflexivity. Qed.

Example flatten_skips :
  flattenJson
    [("text", JStr "Hello"); ("count", JNum 42); ("active", JBool true);
     ("items", JArr [JStr "a"; JStr "b"]); ("empty", JNull)] ""
  = [Entry "text" "Hello"].
Proof. reflexivity. Qed.

Example unflatten_nested :
  unflattenJson
    [Entry "nav.home" "Accueil"; Entry "nav.about" "A propos";
     Entry "footer.copyright" "Droits 2026"]
  = [("nav", JObj [("home", JStr "Accueil"); ("about", JStr "A propos")]);
     ("footer", JObj [("copyright", JStr "Droits 2026")])].
Proof. reflexivity. Qed.

Example diff_missing_keys :
  computeDiff [Entry "a" "Hello"; Entry "b" "World"; Entry "c" "New"]
              (Some [("a", JStr "Bonjour"); ("b", JStr "Monde")])
  = [Entry "c" "New"].
Proof. vm_compute. reflexivity. Qed.

Example merge_with_existing :
  mergeTranslations [Entry "a" "Hello"; Entry "b" "World"; Entry "c" "New"]
                    {["c" := "Nouveau"]}
                    (Some [("b", JStr "Monde"); ("a", JStr "Bonjour")])
  = [("a", JStr "Bonjour"); ("b", JStr "Monde"); ("c", JStr "Nouveau")].
Proof. vm_compute. reflexivity. Qed.

(** An array index is enumerated before the names created earlier. *)
Example unflatten_array_index :
  unflattenJson [Entry "b" "x"; Entry "1" "y"]
  = [("1", JStr "y"); ("b", JStr "x")].
Proof. reflexivity. Qed.

(** What the dotted notation does not carry. *)

Example unflatten_flatten_empty_object :
  unflattenJson (flattenJson [("a", JObj []); ("b", JStr "x")] "") = [("b", JStr "x")].
Proof. reflexivity. Qed.

Example unflatten_flatten_empty_name :
  unflattenJson (flattenJson [("", JObj [("b", JStr "x")])] "") = [("b", JStr "x")].
Proof. reflexivity. Qed.

Example flatten_empty_name_collision :
  flattenJson [("", JObj [("b", JStr "x")]); ("b", JStr "y")] ""
  = [Entry "b" "x"; Entry "b" "y"].
Proof. reflexivity. Qed.

Example unflatten_flatten_proto :
  unflattenJson (flattenJson [("__proto__", JStr "x"); ("b", JStr "y")] "")
  = [("b", JStr "y")].
Proof. reflexivity. Qed.

(** A source with leaves that are not strings: they are not in the
    merge. *)
Example merge_mixed :
  mergeTranslations (flattenJson Fixtures.mixed_document "")
    {["title" := "Bonjour"]} None
  = [("title", JStr "Bonjour"); ("menu", JObj [("open", JStr "Open")])].
Proof. vm_compute. reflexivity. Qed.

(** *** Own properties *)

Lemma own_get_In obj k v : own_get obj k = Some v -> In (k, v) obj.
Proof.
  induction obj as [|[k' v'] obj IH]; simpl; [discriminate|].
  destruct (String.eqb_spec k' k) as [->|Hne].
  - intros [= ->]. now left.
  - intros H. right. auto.
Qed.

Lemma own_get_None obj k : own_get obj k = None <-> ~ In k (map fst obj).
Proof.
  induction obj as [|[k' v'] obj IH]; simpl.
  - tauto.
  - destruct (String.eqb_spec k' k) as [->|Hne].
    + split; [discriminate|]. intros H. destruct H. now left.
    + rewrite IH. tauto.
Qed.

Lemma own_get_replace obj k v :
  own_get obj k <> None -> own_get (replace_own obj k v) k = Some v.
Proof.
  induction obj as [|[k' v'] obj IH]; simpl; [congruence|].
  destruct (String.eqb_spec k' k) as [->|Hne]; simpl.
  - now rewrite String.eqb_refl.
  - intros H. apply String.eqb_neq in Hne. rewrite Hne. auto.
Qed.

Lemma own_get_define obj k v :
  own_get obj k = None -> own_get (define_own obj k v) k = Some v.
Proof.
  induction obj as [|[k' v'] obj IH]; simpl.
  - now rewrite String.eqb_refl.
  - destruct (String.eqb_spec k' k) as [->|Hne]; [discriminate|].
    intros H. destruct (must_precede k k'); simpl.
    + now rewrite String.eqb_refl.
    + apply String.eqb_neq in Hne. rewrite Hne. auto.
Qed.

Lemma replace_replace obj k v v' :
  replace_own (replace_own obj k v) k v' = replace_own obj k v'.
Proof.
  induction obj as [|[k' w] obj IH]; simpl; [reflexivity|].
  destruct (k' =? k)%string eqn:E; simpl; rewrite E; [reflexivity|].
  now rewrite IH.
Qed.

Lemma replace_define obj k v v' :
  own_get obj k = None ->
  replace_own (define_own obj k v) k v' = define_own obj k v'.
Proof.
  induction obj as [|[k' w] obj IH]; simpl.
  - now rewrite String.eqb_refl.
  - destruct (k' =? k)%string eqn:E; [discriminate|]. intros H.
    destruct (must_precede k k'); simpl.
    + now rewrite String.eqb_refl.
    + rewrite E. now rewrite IH.
Qed.

(** A name that nothing must follow is created at the end. *)
Lemma define_last obj k v :
  Forall (fun k' => must_precede k k' = false) (map fst obj) ->
  define_own obj k v = obj ++ [(k, v)].
Proof.
  induction obj as [|[k' w] obj IH]; simpl; [reflexivity|].
  intros H. inversion H as [|? ? Hk' Hrest]; subst.
  rewrite Hk'. now rewrite IH.
Qed.

Lemma own_get_assign obj k v :
  k <> PROTO -> own_get (assign obj k v) k = Some v.
Proof.
  intros Hk. unfold assign. destruct (own_get obj k) eqn:E.
  - apply own_get_replace. congruence.
  - apply String.eqb_neq in Hk. rewrite Hk. now apply own_get_define.
Qed.

Lemma assign_assign obj k v v' :
  k <> PROTO -> assign (assign obj k v) k v' = assign obj k v'.
Proof.
  intros Hk. unfold assign at 1. rewrite own_get_assign by assumption.
  unfold assign. destruct (own_get obj k) eqn:E.
  - apply replace_replace.
  - apply String.eqb_neq in Hk. rewrite Hk. now apply replace_define.
Qed.

Lemma assign_last obj k v :
  k <> PROTO -> ~ In k (map fst obj) ->
  Forall (fun k' => must_precede k k' = false) (map fst obj) ->
  assign obj k v = obj ++ [(k, v)].
Proof.
  intros Hk Hfresh Hord. unfold assign.
  apply own_get_None in Hfresh. rewrite Hfresh.
  apply String.eqb_neq in Hk. rewrite Hk. now apply define_last.
Qed.

(** *** The leaves and the flattening *)

Lemma dotted_snoc prefix p k :
  dotted prefix (p ++ [k]) = full_key (dotted prefix p) k.
Proof. unfold dotted. now rewrite fold_left_app. Qed.

(** The entries of a flattening are the string leaves, in their order,
    each under the dotted key of its path. *)
Lemma flatten_value_leaves v : forall fullKey,
  flatten_value v fullKey
  = map (fun leaf => Entry (dotted fullKey (fst leaf)) (snd leaf)) (leaves v).
Proof.
  induction v as [| | | |items _|props IH] using json_ind;
    intros fullKey; try reflexivity.
  simpl. induction props as [|[k v] props IHprops]; simpl; [reflexivity|].
  inversion IH as [|? ? Hv Hrest]; subst.
  rewrite map_app, map_map. simpl.
  rewrite (IHprops Hrest). f_equal. apply Hv.
Qed.

Lemma flattenJson_leaves obj prefix :
  flattenJson obj prefix
  = map (fun leaf => Entry (dotted prefix (fst leaf)) (snd leaf)) (leaves (JObj obj)).
Proof. apply (flatten_value_leaves (JObj obj)). Qed.

(** *** Dotted keys and paths *)

Lemma full_key_empty k : full_key "" k = k.
Proof. reflexivity. Qed.

Lemma full_key_nonempty prefix k :
  prefix <> "" -> full_key prefix k = prefix +:+ String "." k.
Proof.
  intros H. unfold full_key. apply String.eqb_neq in H. now rewrite H.
Qed.

Lemma segment_spec k :
  segment k = true -> k <> "" /\ Str.split "." k = [k].
Proof.
  unfold segment. intros H. apply andb_true_iff in H as [H1 H2].
  apply negb_true_iff in H1, H2. split.
  - now apply String.eqb_neq.
  - now apply StrFacts.split_whole.
Qed.

Lemma append_nonempty s t : s <> "" -> s +:+ t <> "".
Proof. destruct s; [congruence|discriminate]. Qed.

(** Splitting the dotted key of a path of segments gives the path back. *)
Lemma split_dotted p :
  p <> [] -> Forall (fun k => segment k = true) p ->
  dotted "" p <> "" /\ Str.split "." (dotted "" p) = p.
Proof.
  induction p as [|k p IH] using rev_ind; [congruence|].
  intros _ Hall. apply Forall_app in Hall as [Hp Hk].
  inversion Hk as [|? ? Hseg _]; subst.
  apply segment_spec in Hseg as [Hne Hsplit].
  rewrite dotted_snoc. destruct p as [|k0 p0].
  - simpl. now rewrite full_key_empty.
  - destruct IH as [IHne IHsplit]; [discriminate|assumption|].
    rewrite full_key_nonempty by assumption. split.
    + now apply append_nonempty.
    + rewrite StrFacts.split_app. now rewrite IHsplit, Hsplit.
Qed.

(** *** Names in a list of properties *)

Lemma distinct_app_cons l1 k l2 :
  distinct (l1 ++ k :: l2) = true -> ~ In k l1.
Proof.
  induction l1 as [|k1 l1 IH]; simpl; [tauto|].
  intros H. apply andb_true_iff in H as [H1 H2].
  apply negb_true_iff in H1. intros [->|Hin]; [|now apply IH].
  assert (existsb (String.eqb k) (l1 ++ k :: l2) = true); [|congruence].
  apply existsb_exists. exists k. split; [|apply String.eqb_refl].
  apply in_or_app. right. now left.
Qed.

Lemma enumerated_app_cons l1 k l2 :
  enumerated (l1 ++ k :: l2) = true ->
  Forall (fun k' => must_precede k k' = false) l1.
Proof.
  induction l1 as [|k1 l1 IH]; simpl; [constructor|].
  intros H. apply andb_true_iff in H as [H1 H2]. constructor; [|now apply IH].
  rewrite forallb_forall in H1. apply negb_true_iff, H1.
  apply in_or_app. right. now left.
Qed.

(** *** Building below a name *)

Lemma set_path_under obj k q s :
  q <> [] -> k <> PROTO -> walkable obj k ->
  set_path obj (k :: q) s = assign obj k (JObj (set_path (child obj k) q s)).
Proof.
  intros Hq Hk Hwalk. destruct q as [|k' q]; [congruence|].
  unfold walkable, child in *. cbn [set_path].
  destruct (own_get obj k) as [[]|]; try reflexivity; try contradiction.
  apply String.eqb_neq in Hk. now rewrite Hk.
Qed.

Lemma walkable_assign obj k c :
  k <> PROTO -> walkable (assign obj k (JObj c)) k.
Proof. intros Hk. unfold walkable. now rewrite own_get_assign. Qed.

Lemma child_assign obj k c :
  k <> PROTO -> child (assign obj k (JObj c)) k = c.
Proof. intros Hk. unfold child. now rewrite own_get_assign. Qed.

(** The leaves below [k] build the object at [k] from what [k] held. *)
Lemma build_under k ls :
  k <> PROTO -> ls <> [] -> Forall (fun leaf => fst leaf <> []) ls ->
  forall obj, walkable obj k ->
    build (map (under k) ls) obj = assign obj k (JObj (build ls (child obj k))).
Proof.
  intros Hk. induction ls as [|[q s] ls IH]; [congruence|].
  intros _ Hall obj Hwalk. inversion Hall as [|? ? Hq Hrest]; subst.
  simpl in Hq. unfold build in *. cbn [map fold_left under fst snd].
  rewrite set_path_under by assumption.
  destruct ls as [|l ls]; [reflexivity|].
  rewrite IH; [|discriminate|assumption|now apply walkable_assign].
  rewrite child_assign by assumption. now rewrite assign_assign.
Qed.

Lemma build_app ls1 ls2 obj : build (ls1 ++ ls2) obj = build ls2 (build ls1 obj).
Proof. unfold build. apply fold_left_app. Qed.

Lemma leaves_obj_cons k v props :
  leaves (JObj ((k, v) :: props)) = map (under k) (leaves v) ++ leaves (JObj props).
Proof. reflexivity. Qed.

Lemma leaves_obj_paths props :
  Forall (fun leaf => fst leaf <> []) (leaves (JObj props)).
Proof.
  induction props as [|[k v] props IH]; [constructor|].
  rewrite leaves_obj_cons. apply Forall_app. split; [|assumption].
  apply Forall_forall. intros leaf Hin. apply list_elem_of_In in Hin.
  apply in_map_iff in Hin as [l [<- _]]. discriminate.
Qed.

Lemma plain_props_spec f props :
  plain_props f props = true ->
  Forall (fun kv => plain_name (fst kv) = true) props
  /\ distinct (map fst props) = true
  /\ enumerated (map fst props) = true
  /\ Forall (fun kv => f (snd kv) = true) props.
Proof.
  unfold plain_props. rewrite !andb_true_iff, !forallb_forall.
  intros [[[H1 H2] H3] H4]. repeat split; try assumption.
  - apply Forall_forall. intros x Hx. apply H1. now apply list_elem_of_In.
  - apply Forall_forall. intros x Hx. apply H4. now apply list_elem_of_In.
Qed.

Lemma plain_obj_spec props :
  plain (JObj props) = true -> plain_doc props = true /\ props <> [].
Proof.
  cbn [plain]. intros H. apply andb_true_iff in H as [H1 H2]. split; [assumption|].
  destruct props; [discriminate|discriminate].
Qed.

Lemma plain_name_spec k : plain_name k = true -> segment k = true /\ k <> PROTO.
Proof.
  unfold plain_name. intros H. apply andb_true_iff in H as [H1 H2].
  split; [assumption|]. now apply String.eqb_neq, negb_true_iff.
Qed.

Lemma plain_leaves v : plain v = true -> leaves v <> [].
Proof.
  induction v as [| | | |items _|props IH] using json_ind; try discriminate.
  intros H. apply plain_obj_spec in H as [Hdoc Hne].
  destruct props as [|[k v] props]; [congruence|].
  apply plain_props_spec in Hdoc as (_ & _ & _ & Hplain).
  inversion Hplain as [|? ? Hv _]; subst. inversion IH as [|? ? IHv _]; subst.
  rewrite leaves_obj_cons. specialize (IHv Hv). simpl in IHv.
  destruct (leaves v); [congruence|discriminate].
Qed.

Lemma build_props props :
  Forall (fun kv => grafts (snd kv)) props ->
  Forall (fun kv => plain_name (fst kv) = true) props ->
  Forall (fun kv => plain (snd kv) = true) props ->
  forall obj,
    distinct (map fst obj ++ map fst props) = true ->
    enumerated (map fst obj ++ map fst props) = true ->
    build (leaves (JObj props)) obj = obj ++ props.
Proof.
  induction props as [|[k v] props IH]; intros Hgraft Hnames Hplain obj Hd He.
  - simpl. now rewrite app_nil_r.
  - inversion Hgraft as [|? ? Hv Hgraft']; subst.
    inversion Hnames as [|? ? Hk Hnames']; subst.
    inversion Hplain as [|? ? Hpv Hplain']; subst.
    simpl in Hv, Hk, Hpv, Hd, He.
    rewrite leaves_obj_cons, build_app.
    rewrite (Hv Hpv obj k Hk);
      [|now apply distinct_app_cons in Hd|now apply enumerated_app_cons in He].
    rewrite IH; try assumption.
    + now rewrite <- app_assoc.
    + rewrite map_app. simpl. now rewrite <- app_assoc.
    + rewrite map_app. simpl. now rewrite <- app_assoc.
Qed.

Lemma plain_grafts v : grafts v.
Proof.
  induction v as [| | | |items _|props IH] using json_ind;
    intros Hplain obj k Hk Hfresh Hlast; try discriminate;
    apply plain_name_spec in Hk as Hk'; destruct Hk' as [_ Hproto].
  - simpl. unfold build. simpl. now apply assign_last.
  - apply plain_obj_spec in Hplain as Hdoc. destruct Hdoc as [Hdoc Hne].
    apply plain_props_spec in Hdoc as (Hnames & Hd & He & Hvals).
    rewrite build_under; try assumption.
    + replace (child obj k) with (@nil (string * json)).
      * rewrite (build_props props IH Hnames Hvals []); try assumption.
        simpl. now apply assign_last.
      * unfold child. apply own_get_None in Hfresh. now rewrite Hfresh.
    + now apply plain_leaves.
    + apply leaves_obj_paths.
    + unfold walkable. apply own_get_None in Hfresh. now rewrite Hfresh.
Qed.

Lemma build_plain_doc d : plain_doc d = true -> build (leaves (JObj d)) [] = d.
Proof.
  intros H. apply plain_props_spec in H as (Hnames & Hd & He & Hvals).
  apply (build_props d); try assumption.
  apply Forall_forall. intros kv _. apply plain_grafts.
Qed.

(** *** The round trip *)

Lemma fold_left_map {A B C} (f : A -> B -> A) (g : C -> B) l : forall a,
  fold_left f (map g l) a = fold_left (fun a x => f a (g x)) l a.
Proof. induction l as [|x l IH]; intros a; simpl; [reflexivity|apply IH]. Qed.

Lemma map_fixed {A} (f : A -> A) l : Forall (fun x => f x = x) l -> map f l = l.
Proof.
  induction 1 as [|x l Hx _ IH]; simpl; [reflexivity|]. now rewrite Hx, IH.
Qed.

Lemma unflatten_build entries :
  unflattenJson entries
  = build (map (fun e => (Str.split "." (key e), value e)) entries) [].
Proof. unfold unflattenJson, build. now rewrite fold_left_map. Qed.

(** The paths of an unambiguous value are made of segments. *)
Lemma unambiguous_paths v :
  unambiguous v = true ->
  Forall (fun leaf => Forall (fun k => segment k = true) (fst leaf)) (leaves v).
Proof.
  induction v as [| | | |items _|props IH] using json_ind; intros H;
    try (constructor; constructor).
  cbn [unambiguous] in H. apply andb_true_iff in H as [H Hvals].
  apply andb_true_iff in H as [Hnames _].
  rewrite forallb_forall in Hnames, Hvals.
  induction props as [|[k v] props IHprops]; [constructor|].
  inversion IH as [|? ? IHv IHrest]; subst. simpl in IHv.
  rewrite leaves_obj_cons. apply Forall_app. split.
  - specialize (IHv (Hvals (k, v) (or_introl eq_refl))).
    apply Forall_forall. intros leaf Hin. apply list_elem_of_In in Hin.
    apply in_map_iff in Hin as [l [<- Hl]]. simpl. constructor.
    + apply (Hnames (k, v)). now left.
    + rewrite Forall_forall in IHv. apply IHv. now apply list_elem_of_In.
  - apply IHprops; [assumption| |]; intros x Hx; [apply Hnames|apply Hvals];
      now right.
Qed.

Lemma unflatten_flatten_build d :
  unambiguous (JObj d) = true ->
  unflattenJson (flattenJson d "") = build (leaves (JObj d)) [].
Proof.
  intros H. rewrite unflatten_build, flattenJson_leaves, map_map. f_equal.
  apply map_fixed. cbn [key value].
  pose proof (unambiguous_paths _ H) as Hseg.
  pose proof (leaves_obj_paths d) as Hne.
  rewrite Forall_forall in Hseg, Hne. apply Forall_forall.
  intros [p s] Hin. specialize (Hseg _ Hin). specialize (Hne _ Hin).
  simpl in *. now destruct (split_dotted p Hne Hseg) as [_ ->].
Qed.

Lemma forallb_impl {A} (f g : A -> bool) l :
  Forall (fun x => f x = true -> g x = true) l ->
  forallb f l = true -> forallb g l = true.
Proof.
  induction 1 as [|x l Hx _ IH]; simpl; [reflexivity|].
  intros H. apply andb_true_iff in H as [H1 H2].
  now rewrite (Hx H1), (IH H2).
Qed.

Lemma plain_doc_unambiguous d :
  Forall (fun kv => plain (snd kv) = true -> unambiguous (snd kv) = true) d ->
  plain_doc d = true -> unambiguous (JObj d) = true.
Proof.
  intros IH H. unfold plain_doc, plain_props in H. cbn [unambiguous].
  apply andb_true_iff in H as [H Hvals]. apply andb_true_iff in H as [H _].
  apply andb_true_iff in H as [Hnames Hd].
  rewrite Hd, andb_true_r. apply andb_true_iff. split.
  - revert Hnames. apply forallb_impl. apply Forall_forall. intros kv _ Hk.
    now apply plain_name_spec in Hk as [Hk _].
  - revert Hvals. now apply forallb_impl.
Qed.

Lemma plain_unambiguous v : plain v = true -> unambiguous v = true.
Proof.
  induction v as [| | | |items _|props IH] using json_ind; try reflexivity.
  intros H. apply plain_obj_spec in H as [H _]. now apply plain_doc_unambiguous.
Qed.

(** A plain document is what its flattening unflattens to. *)
Lemma unflatten_flatten d :
  plain_doc d = true -> unflattenJson (flattenJson d "") = d.
Proof.
  intros H. rewrite unflatten_flatten_build.
  - now apply build_plain_doc.
  - apply plain_doc_unambiguous; [|assumption].
    apply Forall_forall. intros kv _. apply plain_unambiguous.
Qed.

(** *** What flattening keeps *)

Lemma prune_obj props :
  prune (JObj props)
  = match prune_doc props with [] => None | kept => Some (JObj kept) end.
Proof. reflexivity. Qed.

Lemma prune_doc_cons k v props :
  prune_doc ((k, v) :: props)
  = match prune v with Some v' => [(k, v')] | None => [] end ++ prune_doc props.
Proof. reflexivity. Qed.

(** Pruning keeps the leaves. *)
Lemma leaves_prune v :
  leaves v = match prune v with Some v' => leaves v' | None => [] end.
Proof.
  induction v as [| | | |items _|props IH] using json_ind; try reflexivity.
  assert (H : leaves (JObj props) = leaves (JObj (prune_doc props))).
  { induction props as [|[k v] props IHprops]; [reflexivity|].
    inversion IH as [|? ? IHv IHrest]; subst. simpl in IHv.
    rewrite prune_doc_cons, leaves_obj_cons, (IHprops IHrest), IHv.
    destruct (prune v) as [v'|]; reflexivity. }
  rewrite prune_obj, H. now destruct (prune_doc props).
Qed.

Lemma leaves_prune_doc d : leaves (JObj (prune_doc d)) = leaves (JObj d).
Proof.
  rewrite (leaves_prune (JObj d)), prune_obj. now destruct (prune_doc d).
Qed.

Lemma flatten_prune d prefix :
  flattenJson (prune_doc d) prefix = flattenJson d prefix.
Proof. now rewrite !flattenJson_leaves, leaves_prune_doc. Qed.

Lemma prune_doc_names props k :
  In k (map fst (prune_doc props)) -> In k (map fst props).
Proof.
  induction props as [|[k0 v] props IH]; [intros []|].
  rewrite prune_doc_cons, map_app. intros H. apply in_app_or in H as [H|H].
  - left. destruct (prune v); [|destruct H]. now destruct H as [H|[]].
  - right. now apply IH.
Qed.

Lemma distinct_cons k names :
  distinct (k :: names) = true <-> ~ In k names /\ distinct names = true.
Proof.
  simpl. rewrite andb_true_iff, negb_true_iff. split; intros [H1 H2]; split; auto.
  - intros Hin. assert (existsb (String.eqb k) names = true); [|congruence].
    apply existsb_exists. exists k. split; [assumption|apply String.eqb_refl].
  - destruct (existsb (String.eqb k) names) eqn:E; [|reflexivity].
    apply existsb_exists in E as [k' [Hin Heq]].
    apply String.eqb_eq in Heq. now subst.
Qed.

Lemma enumerated_cons k names :
  enumerated (k :: names) = true
  <-> (forall k', In k' names -> must_precede k' k = false)
      /\ enumerated names = true.
Proof.
  simpl. rewrite andb_true_iff, forallb_forall.
  split; intros [H1 H2]; split; auto; intros k' Hin.
  - now apply negb_true_iff, H1.
  - now apply negb_true_iff, H1.
Qed.

Lemma distinct_prune props :
  distinct (map fst props) = true -> distinct (map fst (prune_doc props)) = true.
Proof.
  induction props as [|[k v] props IH]; [reflexivity|].
  cbn [map fst]. rewrite distinct_cons. intros [Hk Hd].
  rewrite prune_doc_cons. destruct (prune v); simpl app; [|auto].
  cbn [map fst]. apply distinct_cons. split; [|auto].
  intros Hin. now apply Hk, prune_doc_names.
Qed.

Lemma enumerated_prune props :
  enumerated (map fst props) = true ->
  enumerated (map fst (prune_doc props)) = true.
Proof.
  induction props as [|[k v] props IH]; [reflexivity|].
  cbn [map fst]. rewrite enumerated_cons. intros [Hk He].
  rewrite prune_doc_cons. destruct (prune v); simpl app; [|auto].
  cbn [map fst]. apply enumerated_cons. split; [|auto].
  intros k' Hin. now apply Hk, prune_doc_names.
Qed.

Lemma plain_props_intro f props :
  Forall (fun kv => plain_name (fst kv) = true) props ->
  distinct (map fst props) = true ->
  enumerated (map fst props) = true ->
  Forall (fun kv => f (snd kv) = true) props ->
  plain_props f props = true.
Proof.
  intros H1 H2 H3 H4. unfold plain_props. rewrite H2, H3, !andb_true_r.
  apply andb_true_iff. split; apply forallb_forall; intros kv Hin;
    apply list_elem_of_In in Hin.
  - now apply (proj1 (Forall_forall _ _) H1).
  - now apply (proj1 (Forall_forall _ _) H4).
Qed.

(** What is kept of a value with good names is plain. *)
Lemma named_prune_plain v :
  named v = true -> forall v', prune v = Some v' -> plain v' = true.
Proof.
  induction v as [| | | |items _|props IH] using json_ind;
    intros Hnamed v' Hprune; try discriminate.
  - now injection Hprune as <-.
  - assert (Hdoc : plain_props plain (prune_doc props) = true).
    { cbn [named] in Hnamed.
      apply plain_props_spec in Hnamed as (Hnames & Hd & He & Hvals).
      apply plain_props_intro;
        [|now apply distinct_prune|now apply enumerated_prune|].
      - clear IH Hd He Hvals Hprune.
        induction Hnames as [|[k v] props Hk _ IHprops]; [constructor|].
        rewrite prune_doc_cons. destruct (prune v); simpl app; [|assumption].
        now constructor.
      - clear Hnames Hd He Hprune.
        induction props as [|[k v] props IHprops]; [constructor|].
        inversion IH as [|? ? IHv IHrest]; subst.
        inversion Hvals as [|? ? Hv Hrest]; subst. simpl in IHv, Hv.
        rewrite prune_doc_cons. destruct (prune v) as [w|] eqn:E; simpl app.
        + constructor; [now apply IHv|now apply IHprops].
        + now apply IHprops. }
    rewrite prune_obj in Hprune.
    destruct (prune_doc props) as [|kv kept] eqn:E; [discriminate|].
    injection Hprune as <-. cbn [plain]. now rewrite Hdoc.
Qed.

Lemma named_prune_doc d : named_doc d = true -> plain_doc (prune_doc d) = true.
Proof.
  intros H. pose proof (named_prune_plain (JObj d) H) as Hplain.
  rewrite prune_obj in Hplain.
  destruct (prune_doc d) as [|kv kept] eqn:E; [reflexivity|].
  specialize (Hplain _ eq_refl). now apply plain_obj_spec in Hplain as [Hplain _].
Qed.

(** Whatever its leaves, a document with good names unflattens from
    its flattening to what flattening keeps of it. *)
Lemma unflatten_flatten_named d :
  named_doc d = true -> unflattenJson (flattenJson d "") = prune_doc d.
Proof.
  intros H. rewrite <- flatten_prune. apply unflatten_flatten.
  now apply named_prune_doc.
Qed.

Lemma plain_prune v : plain v = true -> prune v = Some v.
Proof.
  induction v as [| | | |items _|props IH] using json_ind; try discriminate;
    [reflexivity|].
  intros H. apply plain_obj_spec in H as [Hdoc Hne].
  apply plain_props_spec in Hdoc as (_ & _ & _ & Hvals).
  assert (Hid : prune_doc props = props).
  { clear Hne. induction props as [|[k v] props IHprops]; [reflexivity|].
    inversion IH as [|? ? IHv IHrest]; subst.
    inversion Hvals as [|? ? Hv Hrest]; subst. simpl in IHv, Hv.
    rewrite prune_doc_cons, (IHv Hv), (IHprops IHrest Hrest). reflexivity. }
  rewrite prune_obj, Hid. destruct props; [congruence|reflexivity].
Qed.

(** *** What [unflattenJson] builds *)

Abbreviation built obj := (Forall (fun kv => string_leaved (snd kv) = true) obj).

Lemma built_string_leaved obj : built obj <-> string_leaved (JObj obj) = true.
Proof.
  cbn [string_leaved]. rewrite forallb_forall, Forall_forall. split.
  - intros H x Hx. apply H. now apply list_elem_of_In.
  - intros H x Hx. apply H. now apply list_elem_of_In.
Qed.

Lemma replace_own_built obj k v :
  built obj -> string_leaved v = true -> built (replace_own obj k v).
Proof.
  intros Hobj Hv.
  induction Hobj as [|[k' v'] obj Hkv Hrest IH]; simpl; [constructor|].
  destruct (k' =? k)%string; constructor; assumption.
Qed.

Lemma define_own_built obj k v :
  built obj -> string_leaved v = true -> built (define_own obj k v).
Proof.
  intros Hobj Hv.
  induction Hobj as [|[k' v'] obj Hkv Hrest IH]; simpl; [now repeat constructor|].
  destruct (must_precede k k'); repeat constructor; assumption.
Qed.

Lemma assign_built obj k v :
  built obj -> string_leaved v = true -> built (assign obj k v).
Proof.
  intros Hobj Hv. unfold assign. destruct (own_get obj k).
  - now apply replace_own_built.
  - destruct (k =? PROTO)%string; [assumption|now apply define_own_built].
Qed.

Lemma set_path_built parts s : forall current,
  built current -> built (set_path current parts s).
Proof.
  induction parts as [|part rest IH]; intros current Hcur; [assumption|].
  destruct rest as [|next rest].
  - now apply assign_built.
  - cbn [set_path].
    assert (Hnew : forall c, built c ->
              built (assign current part (JObj (set_path c (next :: rest) s)))).
    { intros c Hc. apply assign_built; [assumption|].
      apply built_string_leaved. now apply IH. }
    destruct (own_get current part) as [[]|] eqn:E;
      try assumption; try (apply Hnew; constructor).
    + apply Hnew. apply own_get_In in E. rewrite Forall_forall in Hcur.
      apply built_string_leaved. apply (Hcur (part, JObj props)).
      now apply list_elem_of_In.
    + destruct (part =? PROTO)%string; [assumption|]. apply Hnew. constructor.
Qed.

(** The tree [unflattenJson] builds holds strings and objects only. *)
Lemma unflattenJson_built entries :
  string_leaved (JObj (unflattenJson entries)) = true.
Proof.
  apply built_string_leaved. unfold unflattenJson.
  assert (H : built (@nil (string * json))) by apply List.Forall_nil.
  revert H. generalize (@nil (string * json)).
  induction entries as [|e entries IH]; intros root Hroot; simpl; [assumption|].
  apply IH. now apply set_path_built.
Qed.

(** *** Relabelling the leaves *)

Lemma leaves_relabel f v : forall k,
  leaves (relabel f v k)
  = map (fun leaf => (fst leaf, f (dotted k (fst leaf)) (snd leaf))) (leaves v).
Proof.
  induction v as [| | | |items _|props IH] using json_ind; intros k0;
    try reflexivity.
  cbn [relabel]. induction props as [|[k v] props IHprops]; [reflexivity|].
  inversion IH as [|? ? IHv IHrest]; subst. simpl in IHv.
  cbn [map fst snd]. rewrite !leaves_obj_cons, map_app.
  rewrite (IHprops IHrest). f_equal.
  rewrite IHv, !map_map. apply map_ext. intros [p s]. reflexivity.
Qed.

Lemma flatten_relabel f d :
  flattenJson (relabel_doc f d) ""
  = map (fun e => Entry (key e) (f (key e) (value e))) (flattenJson d "").
Proof.
  rewrite !flattenJson_leaves.
  change (JObj (relabel_doc f d)) with (relabel f (JObj d) "").
  rewrite leaves_relabel, !map_map. reflexivity.
Qed.

Lemma relabel_names f props k0 :
  map fst (map (fun kv => (fst kv, relabel f (snd kv) (full_key k0 (fst kv)))) props)
  = map fst props.
Proof. rewrite map_map. reflexivity. Qed.

Lemma forallb_map {A B} (f : B -> bool) (g : A -> B) l :
  forallb f (map g l) = forallb (fun x => f (g x)) l.
Proof. induction l as [|x l IH]; simpl; [reflexivity|now rewrite IH]. Qed.

Lemma plain_relabel f v : forall k, plain (relabel f v k) = plain v.
Proof.
  induction v as [| | | |items _|props IH] using json_ind; intros k0;
    try reflexivity.
  cbn [relabel plain]. unfold plain_props. rewrite relabel_names.
  rewrite !forallb_map. cbn [fst snd]. f_equal; [|now destruct props].
  f_equal. induction IH as [|[k v] props Hv _ IHprops]; [reflexivity|].
  simpl. now rewrite Hv, IHprops.
Qed.

Lemma plain_relabel_doc f d : plain_doc (relabel_doc f d) = plain_doc d.
Proof.
  unfold plain_doc, plain_props, relabel_doc. rewrite relabel_names.
  rewrite !forallb_map. cbn [fst snd]. f_equal.
  induction d as [|[k v] d IH]; [reflexivity|].
  simpl. now rewrite plain_relabel, IH.
Qed.

(** Flattening a plain document, relabelling the entries and
    unflattening relabels the leaves of the document. *)
Lemma unflatten_relabelled f d :
  plain_doc d = true ->
  unflattenJson (map (fun e => Entry (key e) (f (key e) (value e))) (flattenJson d ""))
  = relabel_doc f d.
Proof.
  intros H. rewrite <- flatten_relabel. apply unflatten_flatten.
  now rewrite plain_relabel_doc.
Qed.

(** The same for a document with good names, whatever its leaves. *)
Lemma unflatten_relabelled_named f d :
  named_doc d = true ->
  unflattenJson (map (fun e => Entry (key e) (f (key e) (value e))) (flattenJson d ""))
  = relabel_doc f (prune_doc d).
Proof.
  intros H. rewrite <- (flatten_prune d). apply unflatten_relabelled.
  now apply named_prune_doc.
Qed.

(** *** The flattened target as a [Map] *)

Lemma find_app {A} (f : A -> bool) l1 l2 :
  List.find f (l1 ++ l2)
  = match List.find f l1 with Some x => Some x | None => List.find f l2 end.
Proof.
  induction l1 as [|x l1 IH]; simpl; [reflexivity|]. now destruct (f x).
Qed.

Lemma flat_lookup_cons e es k :
  flat_lookup (e :: es) k
  = match flat_lookup es k with
    | Some v => Some v
    | None => if (key e =? k)%string then Some (value e) else None
    end.
Proof.
  unfold flat_lookup. simpl. rewrite find_app.
  destruct (List.find _ (rev es)); simpl; [reflexivity|].
  now destruct (key e =? k)%string.
Qed.

Lemma fold_insert_lookup es k : forall m : gmap string string,
  fold_left (fun m e => <[key e := value e]> m) es m !! k
  = match flat_lookup es k with Some v => Some v | None => m !! k end.
Proof.
  induction es as [|e es IH]; intros m; simpl; [reflexivity|].
  rewrite IH, flat_lookup_cons. destruct (flat_lookup es k); [reflexivity|].
  destruct (String.eqb_spec (key e) k) as [->|Hne].
  - apply lookup_insert_eq.
  - now apply lookup_insert_ne.
Qed.

(** The [Map] built from a flattening holds, for each key, the value of
    the last entry with this key. *)
Lemma flat_map_of_lookup es k : flat_map_of es !! k = flat_lookup es k.
Proof.
  unfold flat_map_of. rewrite fold_insert_lookup.
  destruct (flat_lookup es k); [reflexivity|apply lookup_empty].
Qed.

Lemma flat_lookup_None es k :
  flat_lookup es k = None <-> existsb (String.eqb k) (map key es) = false.
Proof.
  induction es as [|e es IH]; [simpl; tauto|].
  rewrite flat_lookup_cons. simpl. rewrite String.eqb_sym.
  destruct (flat_lookup es k) eqn:E.
  - destruct (existsb (String.eqb k) (map key es)).
    + rewrite orb_true_r. split; discriminate.
    + destruct IH as [_ IH]. now specialize (IH eq_refl).
  - destruct IH as [IH _]. rewrite (IH eq_refl), orb_false_r.
    destruct (k =? key e)%string; split; congruence.
Qed.

(** [existingFlat.has(k)] holds when [k] is a key of the flattening. *)
Lemma has_key es k :
  bool_decide (is_Some (flat_map_of es !! k))
  = existsb (String.eqb k) (map key es).
Proof.
  rewrite flat_map_of_lookup.
  destruct (flat_lookup es k) eqn:E.
  - destruct (existsb (String.eqb k) (map key es)) eqn:E'.
    + apply bool_decide_eq_true. eauto.
    + apply flat_lookup_None in E'. congruence.
  - apply flat_lookup_None in E. rewrite E.
    apply bool_decide_eq_false. intros [v Hv]. discriminate.
Qed.

(** *** computeDiff and mergeTranslations *)

Lemma computeDiff_filter src target :
  computeDiff src (Some target)
  = List.filter
      (fun e => negb (existsb (String.eqb (key e)) (map key (flattenJson target ""))))
      src.
Proof.
  unfold computeDiff. apply List.filter_ext. intros e. now rewrite has_key.
Qed.

Lemma merge_unflatten src translated existing :
  mergeTranslations src translated existing
  = unflattenJson (map (merged_entry translated existing) src).
Proof.
  unfold mergeTranslations. f_equal. apply map_ext. intros e.
  unfold merged_entry, merged_value. f_equal.
  destruct (translated !! key e); [reflexivity|]. simpl.
  destruct existing as [target|].
  - rewrite flat_map_of_lookup. now destruct (flat_lookup _ _).
  - now rewrite lookup_empty.
Qed.

(** *** The keys of a flattening *)

Lemma leaves_head props p s :
  In (p, s) (leaves (JObj props)) ->
  exists k q, p = k :: q /\ In k (map fst props).
Proof.
  induction props as [|[k v] props IH]; [intros []|].
  rewrite leaves_obj_cons. intros H. apply in_app_or in H as [H|H].
  - apply in_map_iff in H as [[q s'] [[= <- <-] _]].
    exists k, q. split; [reflexivity|now left].
  - destruct (IH H) as (k' & q & -> & Hin). exists k', q.
    split; [reflexivity|now right].
Qed.

(** In an unambiguous value no two leaves have the same path. *)
Lemma unambiguous_distinct_paths v :
  unambiguous v = true -> NoDup (map fst (leaves v)).
Proof.
  induction v as [| | | |items _|props IH] using json_ind; intros H;
    try apply NoDup_nil_2; try (apply NoDup_singleton).
  cbn [unambiguous] in H. apply andb_true_iff in H as [H Hvals].
  apply andb_true_iff in H as [_ Hd].
  induction props as [|[k v] props IHprops]; [apply NoDup_nil_2|].
  inversion IH as [|? ? IHv IHrest]; subst. simpl in IHv, Hvals, Hd.
  apply andb_true_iff in Hvals as [Hv Hvals]. apply andb_true_iff in Hd as [Hk Hd].
  rewrite leaves_obj_cons, map_app. apply NoDup_app. repeat split.
  - rewrite map_map. cbn [under fst].
    rewrite <- (map_map fst (cons k)). apply NoDup_fmap_2; [|auto].
    intros p q [= ->]. reflexivity.
  - intros p Hp Hq. apply list_elem_of_In in Hp, Hq.
    apply in_map_iff in Hp as [[p1 s1] [<- Hp]].
    apply in_map_iff in Hp as [[p0 s0] [[= <- <-] _]].
    apply in_map_iff in Hq as [[p2 s2] [Heq Hq]]. simpl in Heq. subst p2.
    apply leaves_head in Hq as (k' & q & [= <- <-] & Hin).
    apply negb_true_iff in Hk.
    assert (existsb (String.eqb k) (map fst props) = true); [|congruence].
    apply existsb_exists. exists k. split; [assumption|apply String.eqb_refl].
  - now apply IHprops.
Qed.

(** In the flattening of an unambiguous document no two entries have
    the same key. *)
Lemma flatten_keys_NoDup d :
  unambiguous (JObj d) = true -> NoDup (map key (flattenJson d "")).
Proof.
  intros H. rewrite flattenJson_leaves, map_map. cbn [key].
  rewrite <- (map_map fst (dotted "")).
  apply NoDup_fmap_2_strong; [|now apply unambiguous_distinct_paths].
  intros p q Hp Hq Heq. apply list_elem_of_In in Hp, Hq.
  pose proof (unambiguous_paths _ H) as Hseg.
  pose proof (leaves_obj_paths d) as Hne.
  rewrite Forall_forall in Hseg, Hne.
  apply in_map_iff in Hp as [[p' sp] [<- Hp]].
  apply in_map_iff in Hq as [[q' sq] [<- Hq]].
  apply list_elem_of_In in Hp, Hq. simpl in *.
  destruct (split_dotted p' (Hne _ Hp) (Hseg _ Hp)) as [_ <-].
  destruct (split_dotted q' (Hne _ Hq) (Hseg _ Hq)) as [_ <-].
  now rewrite Heq.
Qed.

End JsonFacts.

(** ** Translation client *)

Module ClientFacts.

Import Num Client ClientSpec Fixtures.

(** The scenario of the specification: 503 twice, then success. *)
Example two_failures_then_success :
  postWithRetry (Body := unit) MAX_RETRIES
    (fun attempt => if (attempt <? 2)%nat then respond 503 "Service Unavailable" None
                    else respond 200 "OK" None)
  = (Returns tt, [Fetch 0; Sleep (of_Z 500); Fetch 1; Sleep (of_Z 1000); Fetch 2]).
Proof. reflexivity. Qed.

Example rate_limited_with_hint :
  postWithRetry (Body := unit) MAX_RETRIES (fun _ => respond 429 "Too Many Requests" (Some 60))
  = (Throws "Langbly API error (429): Too Many Requests",
     [Fetch 0; Sleep (of_Z 30000); Fetch 1; Sleep (of_Z 30000); Fetch 2]).
Proof. reflexivity. Qed.

(** A [retry-after] header with an HTTP date: the delay is [NaN]. *)
Example rate_limited_with_date :
  postWithRetry (Body := unit) MAX_RETRIES (fun _ => respond_dated 429 "Too Many Requests")
  = (Throws "Langbly API error (429): Too Many Requests",
     [Fetch 0; Sleep NaN; Fetch 1; Sleep NaN; Fetch 2]).
Proof. reflexivity. Qed.

(** A response without content: the status is fine, the decoding
    fails. *)
Example no_content :
  postWithRetry (Body := unit) MAX_RETRIES (fun _ => respond_empty 204 "No Content")
  = (Throws "Unexpected end of JSON input", [Fetch 0]).
Proof. reflexivity. Qed.

Example network_down :
  postWithRetry MAX_RETRIES always_down
  = (Throws "Langbly API request failed after 3 attempts: fetch failed",
     [Fetch 0; Sleep (of_Z 500); Fetch 1; Sleep (of_Z 1000); Fetch 2]).
Proof. reflexivity. Qed.

Example bad_request :
  postWithRetry (Body := unit) MAX_RETRIES (fun _ => respond 400 "Bad Request" None)
  = (Throws "Langbly API error (400): Bad Request", [Fetch 0]).
Proof. reflexivity. Qed.

Section Exhaustion.

Context {Body : Type}.
Variable maxRetries : nat.
Variable network : nat -> fetched Body.

Lemma retriable_not_ok (resp : Response Body) :
  retriable (status resp) = true -> ok resp = false.
Proof.
  unfold retriable, ok, RETRIABLE_STATUS_CODES. simpl.
  rewrite !orb_true_iff, !Z.eqb_eq. intros H.
  apply andb_false_iff. rewrite Z.leb_gt, Z.leb_gt. lia.
Qed.

Lemma requests_schedule more attempt :
  requests (schedule network more attempt) = S more.
Proof.
  revert attempt. induction more as [|more IH]; intros attempt; [reflexivity|].
  change (requests (schedule network (S more) attempt))
    with (S (requests (schedule network more (S attempt)))).
  now rewrite IH.
Qed.

(** One iteration of the loop. *)
Lemma attempts_from_S left attempt lastError log :
  attempts_from maxRetries network (S left) attempt lastError log
  = match network attempt with
    | Rejected message =>
        if (attempt <? maxRetries)%nat then
          attempts_from maxRetries network left (S attempt) (Some message)
            ((log ++ [Fetch attempt]) ++ [Sleep (backoff attempt)])
        else (Throws (failed_after maxRetries message), log ++ [Fetch attempt])
    | Responded resp =>
        if ok resp then (delivered resp, log ++ [Fetch attempt])
        else if negb (retriable (status resp)) then
          (Throws (api_error resp), log ++ [Fetch attempt])
        else if (attempt <? maxRetries)%nat then
          attempts_from maxRetries network left (S attempt) lastError
            ((log ++ [Fetch attempt])
               ++ [Sleep (wait_after (Responded resp) attempt)])
        else (Throws (api_error resp), log ++ [Fetch attempt])
    end.
Proof.
  cbn [attempts_from]. destruct (network attempt) as [message|resp]; [reflexivity|].
  unfold delivered, wait_after.
  destruct (json resp); destruct (retryAfter resp) as [[q| | |]|]; reflexivity.
Qed.

Hypothesis all_transient :
  forall attempt, (attempt <= maxRetries)%nat -> transient (network attempt) = true.

(** While every attempt fails with a transient failure, the loop runs
    to its last iteration and throws there. *)
Lemma attempts_from_exhausted more : forall attempt lastError log,
  (attempt + more = maxRetries)%nat ->
  attempts_from maxRetries network (S more) attempt lastError log
  = (Throws (terminal_error maxRetries (network maxRetries)),
     log ++ schedule network more attempt).
Proof.
  induction more as [|more IH]; intros attempt lastError log Hsum.
  - assert (attempt = maxRetries) as -> by lia.
    pose proof (all_transient maxRetries (le_n _)) as Ht.
    rewrite attempts_from_S, Nat.ltb_irrefl. cbn [schedule].
    destruct (network maxRetries) as [message|resp]; simpl in Ht |- *;
      [reflexivity|].
    rewrite (retriable_not_ok _ Ht), Ht. reflexivity.
  - assert (Hlt : (attempt <? maxRetries)%nat = true) by (apply Nat.ltb_lt; lia).
    pose proof (all_transient attempt ltac:(lia)) as Ht.
    rewrite attempts_from_S, Hlt. cbn [schedule].
    destruct (network attempt) as [message|resp]; simpl in Ht.
    + rewrite IH by lia. now rewrite <- !app_assoc.
    + rewrite (retriable_not_ok _ Ht), Ht. cbn [negb].
      rewrite IH by lia. now rewrite <- !app_assoc.
Qed.

Lemma postWithRetry_exhausted :
  postWithRetry maxRetries network
  = (Throws (terminal_error maxRetries (network maxRetries)),
     schedule network maxRetries 0).
Proof. unfold postWithRetry. now rewrite attempts_from_exhausted. Qed.

End Exhaustion.

End ClientFacts.

(** ** Placeholder guard *)

Module PlaceholdersFacts.

Import Placeholders Fixtures.

(** *** The patterns at work *)

Example match_braces : match_here braces "{name} rest" = Some 6%nat.
Proof. reflexivity. Qed.

Example match_braces_digit_first : match_here braces "{1name}" = None.
Proof. reflexivity. Qed.

Example match_positional : match_here positional "%12$d." = Some 5%nat.
Proof. reflexivity. Qed.

Example match_nested : match_here nested "$t(a.b) and $t(c)" = Some 7%nat.
Proof. reflexivity. Qed.

(** The patterns are applied one after the other, each to the whole
    text, so the tokens are numbered pattern by pattern. *)
Example protect_mixed :
  protectPlaceholders "Hi {name}, {{count}} items, %s of %1$d, $t(key.a)"
  = Protected "Hi __PH1__, __PH0__ items, __PH3__ of __PH2__, __PH4__"
      [("__PH0__", "{{count}}"); ("__PH1__", "{name}"); ("__PH2__", "%1$d");
       ("__PH3__", "%s"); ("__PH4__", "$t(key.a)")].
Proof. reflexivity. Qed.

Example protect_restore_mixed :
  let p := protectPlaceholders "Hi {name}, {{count}} items, %s of %1$d, $t(key.a)" in
  restorePlaceholders (text p) (protected_map p)
  = "Hi {name}, {{count}} items, %s of %1$d, $t(key.a)".
Proof. reflexivity. Qed.

Example protect_nothing :
  protectPlaceholders "100% sure {not a name}" = Protected "100% sure {not a name}" [].
Proof. reflexivity. Qed.

(** The translation may move the tokens. *)
Example restore_reordered :
  restorePlaceholders "__PH1__ then __PH0__" [("__PH0__", "{a}"); ("__PH1__", "{b}")]
  = "{b} then {a}".
Proof. reflexivity. Qed.

(** A text that has the form of a token already. *)
Example protect_restore_collision :
  let p := protectPlaceholders "__PH0__ {a}" in
  p = Protected "__PH0__ __PH0__" [("__PH0__", "{a}")]
  /\ restorePlaceholders (text p) (protected_map p) = "{a} __PH0__".
Proof. split; reflexivity. Qed.

(** A placeholder inside a placeholder: the inner token is restored
    before the outer one is. *)
Example protect_restore_nested :
  let p := protectPlaceholders "$t(key, {{n}})" in
  p = Protected "__PH1__" [("__PH0__", "{{n}}"); ("__PH1__", "$t(key, __PH0__)")]
  /\ restorePlaceholders (text p) (protected_map p) = "$t(key, __PH0__)".
Proof. split; reflexivity. Qed.

(** *** Tokens that the text does not have *)

Lemma replace_absent s token original :
  Str.indexOf s token 0 = None -> Str.replace s token original = s.
Proof. unfold Str.replace. now intros ->. Qed.

(** A token that does not occur in the text is skipped; nothing fails. *)
Lemma restore_absent (m : token_map) : forall s,
  Forall (fun entry => Str.indexOf s (fst entry) 0 = None) m ->
  restorePlaceholders s m = s.
Proof.
  induction m as [|[token original] m IH]; intros s Hall; [reflexivity|].
  inversion Hall as [|? ? Hhead Hrest]; subst. simpl in Hhead.
  unfold restorePlaceholders in *. simpl.
  rewrite replace_absent by assumption. now apply IH.
Qed.

(** *** Texts without placeholders *)

Lemma replace_all_unmatched pattern s st :
  unmatched pattern s = true -> replace_all pattern s O st = (s, st).
Proof.
  induction s as [|a s IH]; [reflexivity|].
  cbn [unmatched replace_all]. intros H. apply andb_true_iff in H as [Hhere Hrest].
  destruct (match_here pattern (String a s)) as [[|n]|]; try discriminate;
    unfold bind; now rewrite (IH Hrest).
Qed.

(** A text in which no pattern matches is protected as itself, with no
    token, and restored as itself. *)
Lemma protect_placeholder_free s :
  placeholder_free s = true -> protectPlaceholders s = Protected s [].
Proof.
  unfold placeholder_free, protectPlaceholders. intros H.
  assert (Hfold : forall st,
            fold_left
              (fun acc pattern => replace_all pattern (fst acc) O (snd acc))
              PLACEHOLDER_PATTERNS (s, st) = (s, st)).
  { induction PLACEHOLDER_PATTERNS as [|pattern patterns IH]; [reflexivity|].
    intros st. simpl in H |- *. apply andb_true_iff in H as [H1 H2].
    rewrite (replace_all_unmatched _ _ _ H1). now apply IH. }
  now rewrite Hfold.
Qed.

Lemma protect_restore_placeholder_free s :
  placeholder_free s = true ->
  restorePlaceholders (text (protectPlaceholders s))
                      (protected_map (protectPlaceholders s)) = s.
Proof. intros H. now rewrite protect_placeholder_free. Qed.

End PlaceholdersFacts.
(** ** Batch scheduler: what holds for all limits *)

Module BatchGreedy.

Import Batch BatchNeighbours.

Lemma total_length_app b1 b2 :
  total_length (b1 ++ b2) = total_length b1 + total_length b2.
Proof.
  induction b1 as [|s b1 IH]; simpl; [lia|]. rewrite IH. lia.
Qed.

Lemma total_length_nonneg b : 0 <= total_length b.
Proof.
  induction b as [|s b IH]; simpl; [lia|].
  pose proof (StrFacts.len_nonneg s). lia.
Qed.

Lemma head_length_bound b : 0 <= head_length b <= total_length b.
Proof.
  destruct b as [|s b]; simpl; [lia|].
  pose proof (StrFacts.len_nonneg s). pose proof (total_length_nonneg b). lia.
Qed.

(** *** The batches concatenate to the input *)

(** Lists of lists, flattened, with their appends to the right. *)
Ltac flatten_lists :=
  simpl; rewrite ?concat_app; simpl; rewrite ?app_nil_r, <- ?app_assoc; simpl;
  try reflexivity.

Lemma flat_push_current st : flat (push_current st) = flat st.
Proof. unfold flat, push_current. flatten_lists. Qed.

Lemma flat_step maxItems maxChars st s :
  flat (step maxItems maxChars st s) = flat st ++ [s].
Proof.
  unfold step. destruct (maxChars <? Str.len s).
  - destruct (0 <? Z.of_nat (length (currentBatch st))) eqn:E.
    + unfold flat, push_current. flatten_lists.
    + destruct (currentBatch st) eqn:Ecur; [|discriminate].
      unfold flat. simpl. rewrite Ecur. flatten_lists.
  - destruct (_ || _).
    + unfold flat, push_current. flatten_lists.
    + unfold flat. flatten_lists.
Qed.

Lemma flat_fold maxItems maxChars strings : forall st,
  flat (fold_left (step maxItems maxChars) strings st) = flat st ++ strings.
Proof.
  induction strings as [|s strings IH]; intros st; simpl.
  - now rewrite app_nil_r.
  - now rewrite IH, flat_step, <- app_assoc.
Qed.

Lemma batchStrings_concat strings maxItems maxChars :
  concat (batchStrings strings maxItems maxChars) = strings.
Proof.
  unfold batchStrings.
  pose proof (flat_fold maxItems maxChars strings init) as H.
  unfold flat in H. simpl in H.
  destruct (0 <? Z.of_nat (length (currentBatch _))) eqn:E.
  - rewrite concat_app. simpl. now rewrite app_nil_r.
  - destruct (currentBatch _); [|discriminate]. now rewrite app_nil_r in H.
Qed.

(** The lengths of the batches add up to the length of the whole. *)
Lemma total_length_concat bs :
  total_length (concat bs) = fold_right Z.add 0 (map total_length bs).
Proof.
  induction bs as [|b bs IH]; simpl; [reflexivity|].
  now rewrite total_length_app, IH.
Qed.

(** *** One batch when everything fits *)

Lemma fold_fits maxItems maxChars rest : forall current,
  Z.of_nat (length (current ++ rest)) <= maxItems ->
  total_length (current ++ rest) <= maxChars ->
  fold_left (step maxItems maxChars) rest (State [] current (total_length current))
  = State [] (current ++ rest) (total_length (current ++ rest)).
Proof.
  induction rest as [|s rest IH]; intros current Hitems Hchars; simpl.
  - now rewrite app_nil_r.
  - replace (current ++ s :: rest) with ((current ++ [s]) ++ rest) in *
      by now rewrite <- app_assoc.
    rewrite <- IH by assumption. f_equal.
    rewrite !total_length_app in Hchars. rewrite !length_app in Hitems.
    simpl in Hchars, Hitems.
    pose proof (total_length_nonneg rest). pose proof (total_length_nonneg current).
    pose proof (StrFacts.len_nonneg s).
    unfold step. simpl.
    replace (maxChars <? Str.len s) with false by (symmetry; apply Z.ltb_ge; lia).
    replace (maxItems <=? Z.of_nat (length current)) with false
      by (symmetry; apply Z.leb_gt; lia).
    replace (maxChars <? total_length current + Str.len s) with false
      by (symmetry; apply Z.ltb_ge; lia).
    simpl. f_equal. rewrite total_length_app. simpl. lia.
Qed.

Lemma batchStrings_fits strings maxItems maxChars :
  strings <> [] ->
  Z.of_nat (length strings) <= maxItems ->
  total_length strings <= maxChars ->
  batchStrings strings maxItems maxChars = [strings].
Proof.
  intros Hne Hitems Hchars. unfold batchStrings, init.
  change 0 with (total_length []).
  rewrite (fold_fits maxItems maxChars strings []) by assumption. simpl.
  destruct strings; [congruence|reflexivity].
Qed.

(** *** Neighbours *)

Section Greedy.

Variables maxItems maxChars : Z.

Abbreviation unmergeable := (BatchNeighbours.unmergeable maxItems maxChars).
Abbreviation chained := (BatchNeighbours.chained maxItems maxChars).
Abbreviation closed := (BatchNeighbours.closed maxItems maxChars).
Abbreviation greedy := (BatchNeighbours.greedy maxItems maxChars).

Lemma chained_snoc bs b :
  chained bs ->
  (forall b', last bs = Some b' -> unmergeable b' b) ->
  chained (bs ++ [b]).
Proof.
  induction bs as [|b1 bs IH]; intros Hchain Hlast; [exact I|].
  destruct bs as [|b2 bs].
  - simpl. split; [|exact I]. now apply Hlast.
  - destruct Hchain as [H12 Hrest]. split; [assumption|].
    apply IH; [assumption|]. intros b' Hb'. apply Hlast.
    rewrite last_cons. change (b2 :: bs) with ([b2] ++ bs) in Hb' |- *.
    now rewrite Hb'.
Qed.

Lemma closed_unmergeable b current : closed b current -> unmergeable b current.
Proof.
  intros [[Hne Hfull]|Hchars].
  - left. destruct current; [congruence|]. simpl length. lia.
  - right. pose proof (head_length_bound current). lia.
Qed.

Lemma last_snoc_some {A} (l : list A) x : last (l ++ [x]) = Some x.
Proof. apply last_snoc. Qed.

Lemma greedy_init : greedy init.
Proof. split; simpl; [reflexivity|exact I|discriminate]. Qed.

(** Pushing the accumulating batch keeps the chain. *)
Lemma chained_push st :
  greedy st -> chained (batches st ++ [currentBatch st]).
Proof.
  intros [Hcount Hchain Hlast]. apply chained_snoc; [assumption|].
  intros b Hb. now apply closed_unmergeable, Hlast.
Qed.

Lemma greedy_step st s : greedy st -> greedy (step maxItems maxChars st s).
Proof.
  intros Hg. pose proof (chained_push st Hg) as Hpush.
  destruct Hg as [Hcount Hchain Hlast]. unfold step.
  pose proof (StrFacts.len_nonneg s) as Hs.
  pose proof (total_length_nonneg (currentBatch st)) as Hcur.
  destruct (Z.ltb_spec maxChars (Str.len s)) as [Hbig|Hfit].
  - destruct (0 <? Z.of_nat (length (currentBatch st))) eqn:E; simpl.
    + split; simpl.
      * reflexivity.
      * apply chained_snoc; [assumption|]. intros b Hb.
        rewrite last_snoc_some in Hb. injection Hb as <-.
        right. simpl. lia.
      * intros b Hb. rewrite last_snoc_some in Hb. injection Hb as <-.
        right. simpl. lia.
    + destruct (currentBatch st) eqn:Ecur; [|discriminate]. split; simpl.
      * exact Hcount.
      * apply chained_snoc; [assumption|]. intros b Hb.
        destruct (Hlast b Hb) as [[Hne _]|Hc]; [congruence|].
        right. simpl in *. lia.
      * intros b Hb. rewrite last_snoc_some in Hb. injection Hb as <-.
        right. simpl. lia.
  - destruct ((maxItems <=? Z.of_nat (length (currentBatch st)))
              || (maxChars <? currentChars st + Str.len s)) eqn:E; simpl.
    + split; simpl.
      * lia.
      * assumption.
      * intros b Hb. rewrite last_snoc_some in Hb. injection Hb as <-.
        apply orb_true_iff in E as [E|E].
        -- left. split; [discriminate|]. now apply Z.leb_le.
        -- right. apply Z.ltb_lt in E. simpl. lia.
    + split; simpl.
      * rewrite total_length_app. simpl. lia.
      * assumption.
      * intros b Hb. specialize (Hlast b Hb).
        destruct (currentBatch st) as [|s0 rest] eqn:Ecur.
        -- destruct Hlast as [[Hne _]|Hc]; [congruence|].
           right. simpl in *. lia.
        -- destruct Hlast as [[_ Hfull]|Hc].
           ++ left. split; [discriminate|assumption].
           ++ right. exact Hc.
Qed.

Lemma greedy_fold strings : forall st,
  greedy st -> greedy (fold_left (step maxItems maxChars) strings st).
Proof.
  induction strings as [|s strings IH]; intros st Hg; [assumption|].
  simpl. apply IH. now apply greedy_step.
Qed.

Lemma batchStrings_chained strings :
  chained (batchStrings strings maxItems maxChars).
Proof.
  unfold batchStrings.
  pose proof (greedy_fold strings init greedy_init) as Hg.
  destruct (0 <? Z.of_nat (length (currentBatch _))).
  - now apply chained_push.
  - apply Hg.
Qed.

End Greedy.

End BatchGreedy.

(** ** Translation client: any network *)

Module ClientRuns.

Import Num Client ClientSpec ClientWaits.

Section AnyNetwork.

Context {Body : Type}.
Variable maxRetries : nat.
Variable network : nat -> fetched Body.

(** While the attempts are transient the loop goes on; the first
    attempt that is not ends it. *)
Lemma attempts_from_transient k : forall left attempt lastError log,
  (k < left)%nat -> (attempt + left = S maxRetries)%nat ->
  (forall a, (attempt <= a < attempt + k)%nat -> transient (network a) = true) ->
  exists lastError',
    attempts_from maxRetries network left attempt lastError log
    = attempts_from maxRetries network (left - k) (attempt + k) lastError'
        (log ++ concat (map (fun a => [Fetch a; Sleep (wait_after (network a) a)])
                            (seq attempt k))).
Proof.
  induction k as [|k IH]; intros left attempt lastError log Hk Hsum Hall.
  - exists lastError. simpl. now rewrite Nat.sub_0_r, Nat.add_0_r, app_nil_r.
  - destruct left as [|left]; [lia|].
    assert (Hlt : (attempt <? maxRetries)%nat = true) by (apply Nat.ltb_lt; lia).
    pose proof (Hall attempt ltac:(lia)) as Ht.
    rewrite ClientFacts.attempts_from_S, Hlt.
    assert (Hrest : forall a, (S attempt <= a < S attempt + k)%nat ->
                              transient (network a) = true)
      by (intros a Ha; apply Hall; lia).
    destruct (network attempt) as [message|resp] eqn:E; simpl in Ht.
    + destruct (IH left (S attempt) (Some message)
                  ((log ++ [Fetch attempt]) ++ [Sleep (backoff attempt)])
                  ltac:(lia) ltac:(lia) Hrest) as [le' ->].
      exists le'. replace (S left - S k)%nat with (left - k)%nat by lia.
      replace (attempt + S k)%nat with (S attempt + k)%nat by lia.
      f_equal. simpl. rewrite E. simpl. now rewrite <- !app_assoc.
    + rewrite (ClientFacts.retriable_not_ok _ Ht), Ht. cbn [negb].
      destruct (IH left (S attempt) lastError
                  ((log ++ [Fetch attempt])
                     ++ [Sleep (wait_after (Responded resp) attempt)])
                  ltac:(lia) ltac:(lia) Hrest) as [le' ->].
      exists le'. replace (S left - S k)%nat with (left - k)%nat by lia.
      replace (attempt + S k)%nat with (S attempt + k)%nat by lia.
      f_equal. simpl. rewrite E. simpl. now rewrite <- !app_assoc.
Qed.

Lemma schedule_prefix k : forall attempt,
  schedule network k attempt
  = concat (map (fun a => [Fetch a; Sleep (wait_after (network a) a)])
                (seq attempt k))
    ++ [Fetch (attempt + k)].
Proof.
  induction k as [|k IH]; intros attempt; simpl.
  - now rewrite Nat.add_0_r.
  - rewrite IH. now replace (attempt + S k)%nat with (S attempt + k)%nat by lia.
Qed.

(** A response that is [ok] after [k] transient failures ends the
    run: its body is returned if it is JSON. *)
Lemma postWithRetry_succeeds k resp :
  (k <= maxRetries)%nat ->
  (forall a, (a < k)%nat -> transient (network a) = true) ->
  network k = Responded resp -> ok resp = true ->
  postWithRetry maxRetries network = (delivered resp, schedule network k 0).
Proof.
  intros Hk Hall Hnet Hok. unfold postWithRetry.
  destruct (attempts_from_transient k (S maxRetries) 0 None []
              ltac:(lia) ltac:(lia)) as [le' ->].
  { intros a Ha. apply Hall. lia. }
  replace (S maxRetries - k)%nat with (S (maxRetries - k)) by lia.
  rewrite ClientFacts.attempts_from_S. simpl (0 + k)%nat.
  rewrite Hnet, Hok, schedule_prefix. reflexivity.
Qed.

(** A status that is neither [ok] nor retriable ends the run at once. *)
Lemma postWithRetry_permanent k resp :
  (k <= maxRetries)%nat ->
  (forall a, (a < k)%nat -> transient (network a) = true) ->
  network k = Responded resp -> ok resp = false ->
  retriable (status resp) = false ->
  postWithRetry maxRetries network = (Throws (api_error resp), schedule network k 0).
Proof.
  intros Hk Hall Hnet Hok Hperm. unfold postWithRetry.
  destruct (attempts_from_transient k (S maxRetries) 0 None []
              ltac:(lia) ltac:(lia)) as [le' ->].
  { intros a Ha. apply Hall. lia. }
  replace (S maxRetries - k)%nat with (S (maxRetries - k)) by lia.
  rewrite ClientFacts.attempts_from_S. simpl (0 + k)%nat.
  rewrite Hnet, Hok, Hperm, schedule_prefix. reflexivity.
Qed.

(** Whatever the network does, the log is a schedule of at most
    [maxRetries + 1] requests. *)
Lemma attempts_from_log left : forall attempt lastError log,
  (attempt + S left = S maxRetries)%nat ->
  exists k, (k <= left)%nat
    /\ snd (attempts_from maxRetries network (S left) attempt lastError log)
       = log ++ schedule network k attempt.
Proof.
  induction left as [|left IH]; intros attempt lastError log Hsum.
  - exists O. split; [lia|]. rewrite ClientFacts.attempts_from_S.
    replace (attempt <? maxRetries)%nat with false
      by (symmetry; apply Nat.ltb_ge; lia).
    destruct (network attempt) as [message|resp]; [reflexivity|].
    destruct (ok resp); [reflexivity|].
    destruct (negb (retriable (status resp))); reflexivity.
  - assert (Hlt : (attempt <? maxRetries)%nat = true) by (apply Nat.ltb_lt; lia).
    rewrite ClientFacts.attempts_from_S, Hlt.
    destruct (network attempt) as [message|resp] eqn:E.
    + destruct (IH (S attempt) (Some message)
                  ((log ++ [Fetch attempt]) ++ [Sleep (backoff attempt)])
                  ltac:(lia)) as (k & Hk & ->).
      exists (S k). split; [lia|]. simpl. rewrite E. simpl.
      now rewrite <- !app_assoc.
    + destruct (ok resp); [exists O; split; [lia|reflexivity]|].
      destruct (negb (retriable (status resp)));
        [exists O; split; [lia|reflexivity]|].
      destruct (IH (S attempt) lastError
                  ((log ++ [Fetch attempt])
                     ++ [Sleep (wait_after (Responded resp) attempt)])
                  ltac:(lia)) as (k & Hk & ->).
      exists (S k). split; [lia|]. simpl. rewrite E. simpl.
      now rewrite <- !app_assoc.
Qed.

Lemma postWithRetry_log :
  exists k, (k <= maxRetries)%nat
    /\ snd (postWithRetry maxRetries network) = schedule network k 0.
Proof.
  unfold postWithRetry.
  destruct (attempts_from_log maxRetries 0 None [] ltac:(lia)) as (k & Hk & H).
  exists k. split; [assumption|]. exact H.
Qed.

(** *** The waits *)

Lemma lasts_finite q bound :
  1 <= bound ->
  QArith_base.Qle_bool q (QArith_base.inject_Z bound) = true ->
  lasts (Finite q) <= bound.
Proof.
  intros Hb Hq. unfold lasts.
  destruct (_ && _); [|lia].
  apply QArith_base.Qle_bool_iff in Hq. rewrite QArith_base.Zle_Qle.
  eapply QArith_base.Qle_trans; [apply Qround.Qfloor_le|exact Hq].
Qed.

Lemma lasts_of_Z n bound : 1 <= bound -> n <= bound -> lasts (of_Z n) <= bound.
Proof.
  intros Hb Hn. apply lasts_finite; [assumption|].
  apply QArith_base.Qle_bool_iff. now rewrite <- QArith_base.Zle_Qle.
Qed.

Lemma lasts_min v bound : 1 <= bound -> lasts (Num.min v bound) <= bound.
Proof.
  intros Hb. destruct v as [q| | |]; simpl; try lia.
  - destruct (QArith_base.Qle_bool q _) eqn:Hq.
    + now apply lasts_finite.
    + apply lasts_of_Z; lia.
  - apply lasts_of_Z; lia.
Qed.

Lemma lasts_backoff attempt : (attempt <= 5)%nat -> lasts (backoff attempt) <= MAX_WAIT.
Proof.
  intros H. unfold backoff.
  replace (attempt <=? 1015)%nat with true by (symmetry; apply Nat.leb_le; lia).
  apply lasts_of_Z; [unfold MAX_WAIT; lia|].
  assert (2 ^ Z.of_nat attempt <= 2 ^ 5) by (apply Z.pow_le_mono_r; lia).
  unfold MAX_WAIT. lia.
Qed.

Lemma wait_after_bound (f : fetched Body) attempt :
  (attempt <= 5)%nat -> lasts (wait_after f attempt) <= MAX_WAIT.
Proof.
  intros H. unfold wait_after. destruct f as [message|resp];
    [now apply lasts_backoff|].
  destruct (retryAfter resp) as [millis|]; [|now apply lasts_backoff].
  destruct millis; try (apply lasts_min; unfold MAX_WAIT; lia).
  unfold MAX_WAIT. simpl. lia.
Qed.

(** The waits of a schedule whose backoffs stay below the cap. *)
Lemma schedule_waits k : forall attempt,
  (attempt + k <= 6)%nat ->
  waits_within MAX_WAIT (schedule network k attempt)
  /\ total_wait (schedule network k attempt) <= Z.of_nat k * MAX_WAIT.
Proof.
  induction k as [|k IH]; intros attempt Hsum.
  - split; [repeat constructor|simpl; lia].
  - destruct (IH (S attempt) ltac:(lia)) as [IHw IHt].
    pose proof (wait_after_bound (network attempt) attempt ltac:(lia)) as Hw.
    split.
    + simpl. constructor; [exact I|]. constructor; [exact Hw|]. exact IHw.
    + cbn [schedule total_wait fold_right].
      fold (total_wait (schedule network k (S attempt))). lia.
Qed.

End AnyNetwork.

(** The client as it is constructed: three requests at most, and a
    minute of waiting at most. *)
Lemma constructed_client_bounds {Body} (network : nat -> fetched Body) :
  (requests (snd (postWithRetry MAX_RETRIES network)) <= 3)%nat
  /\ waits_within 30000 (snd (postWithRetry MAX_RETRIES network))
  /\ total_wait (snd (postWithRetry MAX_RETRIES network)) <= 60000.
Proof.
  destruct (postWithRetry_log MAX_RETRIES network) as (k & Hk & ->).
  unfold MAX_RETRIES in Hk.
  rewrite ClientFacts.requests_schedule.
  destruct (schedule_waits network k 0 ltac:(lia)) as [Hw Ht].
  unfold MAX_WAIT in Hw, Ht. split; [lia|]. split; [assumption|]. lia.
Qed.

End ClientRuns.

(** ** Markdown documents: the frontmatter block *)

Module MarkdownShape.

Import Str Markdown.

(** *** Prefixes and first occurrences *)

Lemma prefix_nil s : String.prefix "" s = true.
Proof. now destruct s. Qed.

Lemma prefix_cons a p c s :
  String.prefix (String a p) (String c s)
  = if ascii_dec a c then String.prefix p s else false.
Proof. reflexivity. Qed.

Lemma prefix_length p : forall s,
  String.prefix p s = true -> (String.length p <= String.length s)%nat.
Proof.
  induction p as [|a p IH]; intros s H; simpl; [lia|].
  destruct s as [|b s]; [discriminate|]. simpl in H.
  destruct (ascii_dec a b); [|discriminate]. apply IH in H. simpl. lia.
Qed.

(** Only the first [length p] code units count. *)
Lemma prefix_app_long p : forall s t,
  (String.length p <= String.length s)%nat ->
  String.prefix p (s +:+ t) = String.prefix p s.
Proof.
  induction p as [|a p IH]; intros s t H; [now rewrite !prefix_nil|].
  destruct s as [|b s]; [simpl in H; lia|]. simpl.
  destruct (ascii_dec a b); [|reflexivity]. apply IH. simpl in H. lia.
Qed.

Lemma prefix_take p : forall s,
  String.prefix p s = true -> take (String.length p) s = p.
Proof.
  induction p as [|a p IH]; intros s H; [now destruct s|].
  destruct s as [|b s]; [discriminate|]. simpl in H |- *.
  destruct (ascii_dec a b) as [->|]; [|discriminate]. now rewrite IH.
Qed.

(** The search for [p] in [String c s], unfolded once. *)
Lemma index_0_cons p c s :
  String.index 0 p (String c s)
  = if String.prefix p (String c s) then Some O
    else match String.index 0 p s with Some m => Some (S m) | None => None end.
Proof. reflexivity. Qed.

Lemma index_S_cons n p c s :
  String.index (S n) p (String c s)
  = match String.index n p s with Some m => Some (S m) | None => None end.
Proof. reflexivity. Qed.

Lemma index_nil n p m : String.index n p "" = Some m -> n = O /\ p = "" /\ m = O.
Proof.
  simpl. destruct n; [|discriminate]. destruct p; [|discriminate].
  now intros [= <-].
Qed.

Lemma index_bound p s : forall n m,
  String.index n p s = Some m ->
  (n <= m)%nat /\ (m + String.length p <= String.length s)%nat.
Proof.
  induction s as [|c s IH]; intros n m H.
  - apply index_nil in H as (-> & -> & ->). simpl. lia.
  - destruct n as [|n].
    + rewrite index_0_cons in H.
      destruct (String.prefix p (String c s)) eqn:E.
      * injection H as <-. apply prefix_length in E. lia.
      * destruct (String.index 0 p s) as [m'|] eqn:E'; [|discriminate].
        injection H as <-. apply IH in E'. simpl. lia.
    + rewrite index_S_cons in H.
      destruct (String.index n p s) as [m'|] eqn:E'; [|discriminate].
      injection H as <-. apply IH in E'. simpl. lia.
Qed.

(** A first occurrence that lies within [u] is one whatever follows [u]. *)
Lemma index_tail p u v w : forall n m,
  String.index n p (u +:+ v) = Some m ->
  (m + String.length p <= String.length u)%nat ->
  String.index n p (u +:+ w) = Some m.
Proof.
  induction u as [|c u IH]; intros n m H Hin.
  - simpl in Hin. assert (m = O) by lia. subst m.
    destruct p; [|simpl in Hin; lia].
    apply index_bound in H as [Hn _]. assert (n = O) by lia. subst n.
    now destruct w.
  - change (String c u +:+ v) with (String c (u +:+ v)) in H.
    change (String c u +:+ w) with (String c (u +:+ w)).
    destruct n as [|n].
    + rewrite index_0_cons in H |- *.
      change (String c (u +:+ v)) with (String c u +:+ v) in H.
      change (String c (u +:+ w)) with (String c u +:+ w).
      assert (Hlen : (String.length p <= String.length (String c u))%nat) by lia.
      rewrite (prefix_app_long p (String c u) w Hlen).
      rewrite (prefix_app_long p (String c u) v Hlen) in H.
      destruct (String.prefix p (String c u)) eqn:E; [assumption|].
      destruct (String.index 0 p (u +:+ v)) as [m'|] eqn:E'; [|discriminate].
      injection H as <-. rewrite (IH 0%nat m' E'); [reflexivity|].
      simpl in Hin. lia.
    + rewrite index_S_cons in H |- *.
      destruct (String.index n p (u +:+ v)) as [m'|] eqn:E; [|discriminate].
      injection H as <-. rewrite (IH n m' E); [reflexivity|]. simpl in Hin. lia.
Qed.

(** The pattern is what is found at a first occurrence. *)
Lemma index_found p s : forall n m,
  String.index n p s = Some m -> String.prefix p (drop m s) = true.
Proof.
  induction s as [|c s IH]; intros n m H.
  - now apply index_nil in H as (-> & -> & ->).
  - destruct n as [|n].
    + rewrite index_0_cons in H.
      destruct (String.prefix p (String c s)) eqn:E.
      * now injection H as <-.
      * destruct (String.index 0 p s) as [m'|] eqn:E'; [|discriminate].
        injection H as <-. simpl. now apply (IH 0%nat).
    + rewrite index_S_cons in H.
      destruct (String.index n p s) as [m'|] eqn:E'; [|discriminate].
      injection H as <-. simpl. now apply (IH n).
Qed.

(** *** [take] and [drop] *)

Lemma length_take n : forall s,
  (n <= String.length s)%nat -> String.length (take n s) = n.
Proof.
  induction n as [|n IH]; intros s H; [reflexivity|].
  destruct s as [|c s]; [simpl in H; lia|]. simpl in *. rewrite IH; lia.
Qed.

Lemma take_app u w : take (String.length u) (u +:+ w) = u.
Proof. induction u as [|c u IH]; simpl; [now destruct w|now rewrite IH]. Qed.

Lemma drop_app u w : drop (String.length u) (u +:+ w) = w.
Proof. induction u as [|c u IH]; simpl; [reflexivity|exact IH]. Qed.

Lemma drop_take n k : forall s, drop n (take (n + k) s) = take k (drop n s).
Proof.
  induction n as [|n IH]; intros s; simpl.
  - now destruct (take k s).
  - destruct s as [|c s]; simpl; [now destruct k|apply IH].
Qed.

(** *** The frontmatter block *)

(** What [splitMarkdown] has established when it recognises
    frontmatter: where the closing delimiter is in the trimmed
    content. *)
Lemma split_recognised content fm :
  frontmatter (splitMarkdown content) = Some fm ->
  exists endIndex,
    startsWith (trimStart content) DELIMITER = true
    /\ indexOf (trimStart content) (LF +:+ DELIMITER) 3 = Some endIndex
    /\ fm = take (endIndex + 4) (trimStart content)
    /\ body (splitMarkdown content) = drop (endIndex + 4) (trimStart content).
Proof.
  unfold splitMarkdown.
  destruct (startsWith (trimStart content) DELIMITER) eqn:Hstart; simpl;
    [|discriminate].
  destruct (indexOf _ _ _) as [endIndex|] eqn:Hindex; simpl; [|discriminate].
  intros [= <-]. exists endIndex. repeat split; assumption.
Qed.

Lemma frontmatter_length content fm endIndex :
  indexOf (trimStart content) (LF +:+ DELIMITER) 3 = Some endIndex ->
  fm = take (endIndex + 4) (trimStart content) ->
  String.length fm = (endIndex + 4)%nat /\ (3 <= endIndex)%nat.
Proof.
  intros Hindex ->. apply index_bound in Hindex as [Hfrom Hin].
  simpl in Hin. split; [|assumption]. apply length_take. lia.
Qed.

(** A recognised frontmatter block opens with the delimiter and closes
    with a line feed and the delimiter, which are apart. *)
Lemma frontmatter_shape content fm :
  frontmatter (splitMarkdown content) = Some fm ->
  startsWith fm DELIMITER = true
  /\ drop (String.length fm - 4) fm = LF +:+ DELIMITER
  /\ (7 <= String.length fm)%nat.
Proof.
  intros H. destruct (split_recognised _ _ H) as (e & Hstart & Hindex & Hfm & _).
  destruct (frontmatter_length _ _ _ Hindex Hfm) as [Hlen He].
  repeat split; [| |lia].
  - unfold startsWith in *.
    rewrite <- (StrFacts.take_drop (e + 4) (trimStart content)) in Hstart.
    rewrite <- Hfm in Hstart. rewrite prefix_app_long in Hstart; [assumption|].
    rewrite Hlen. simpl. lia.
  - rewrite Hlen. replace (e + 4 - 4)%nat with e by lia.
    rewrite Hfm, drop_take.
    apply index_found in Hindex. now apply (prefix_take (LF +:+ DELIMITER)).
Qed.

(** The file that is written splits into the frontmatter of the source
    and the body it was given. *)
Lemma split_assembled content fm translatedBody :
  frontmatter (splitMarkdown content) = Some fm ->
  splitMarkdown (assembleMarkdown (Some fm) translatedBody)
  = File (Some fm) translatedBody.
Proof.
  intros H. destruct (split_recognised _ _ H) as (e & Hstart & Hindex & Hfm & _).
  destruct (frontmatter_length _ _ _ Hindex Hfm) as [Hlen He].
  destruct (frontmatter_shape _ _ H) as (Hopen & _ & _).
  assert (Hcut : trimStart content = fm +:+ drop (e + 4) (trimStart content))
    by (rewrite Hfm; symmetry; apply StrFacts.take_drop).
  rewrite MarkdownFacts.assemble_some
    by (intros ->; discriminate).
  assert (Htrim : trimStart (fm +:+ translatedBody) = fm +:+ translatedBody).
  { destruct fm as [|c fm']; [discriminate|]. unfold startsWith, DELIMITER in Hopen.
    rewrite prefix_cons in Hopen.
    destruct (ascii_dec "-" c) as [<-|]; [|discriminate].
    reflexivity. }
  unfold splitMarkdown. rewrite Htrim.
  assert (Hstart' : startsWith (fm +:+ translatedBody) DELIMITER = true).
  { unfold startsWith in *. rewrite prefix_app_long; [assumption|].
    rewrite Hlen. simpl. lia. }
  rewrite Hstart'. cbn [negb].
  assert (Hindex' : indexOf (fm +:+ translatedBody) (LF +:+ DELIMITER) 3 = Some e).
  { unfold indexOf in *. rewrite Hcut in Hindex.
    apply (index_tail _ _ _ _ _ _ Hindex). rewrite Hlen. simpl. lia. }
  rewrite Hindex', <- Hlen. now rewrite take_app, drop_app.
Qed.

End MarkdownShape.

(** ** The translation of a file *)

Module PipelineFacts.

Import Json JsonSpec Pipeline PipelineSpec.

Lemma progress_eta st : Progress (translated st) (entryIndex st) = st.
Proof. now destruct st. Qed.

Section AnyService.

Variable translate : nat -> list string -> completion (list string).

(** *** A service that answers string by string *)

(** The results for a segment of the entries, stored from the
    index at which the segment starts. *)
Lemma store_segment f post seg : forall pre st,
  entryIndex st = length pre ->
  store (pre ++ seg ++ post) (map f (map sent seg)) st
  = Fulfilled (Progress (fold_left (record f) seg (translated st))
                        (length pre + length seg)).
Proof.
  induction seg as [|e seg IH]; intros pre st Hindex.
  - simpl. rewrite Nat.add_0_r, <- Hindex. now rewrite progress_eta.
  - cbn [map store]. rewrite Hindex.
    change ((e :: seg) ++ post) with (e :: (seg ++ post)).
    rewrite (list_lookup_middle pre (seg ++ post) e (length pre) eq_refl).
    change (pre ++ e :: seg ++ post) with (pre ++ [e] ++ seg ++ post).
    rewrite (app_assoc pre [e]).
    rewrite IH by (cbn [entryIndex]; rewrite length_app; simpl; lia).
    cbn [translated fold_left]. rewrite length_app. simpl.
    do 2 f_equal. lia.
Qed.

Lemma translate_batches_pointwise f (Hf : pointwise translate f) :
  forall batches i pre rest st,
    entryIndex st = length pre ->
    concat batches = map sent rest ->
    translate_batches translate (pre ++ rest) i batches st
    = Fulfilled (Progress (fold_left (record f) rest (translated st))
                          (length pre + length rest)).
Proof.
  induction batches as [|batch batches IH]; intros i pre rest st Hindex Hcat.
  - simpl in Hcat. symmetry in Hcat. apply map_eq_nil in Hcat. subst rest.
    simpl. rewrite Nat.add_0_r, <- Hindex. now rewrite progress_eta.
  - simpl in Hcat. symmetry in Hcat.
    apply map_eq_app in Hcat as (seg & rest' & -> & Hseg & Hrest).
    cbn [translate_batches]. rewrite Hf. cbn [and_then].
    rewrite <- Hseg, (store_segment f rest' seg pre st Hindex). cbn [and_then].
    rewrite (app_assoc pre seg rest').
    rewrite (IH (S i) (pre ++ seg) rest')
      by (cbn [entryIndex]; rewrite ?length_app; auto).
    cbn [translated]. rewrite fold_left_app, !length_app.
    do 2 f_equal. lia.
Qed.

(** With such a service the loop records, for every entry, what is
    restored of the answer for its protected text: the batches do
    not show. *)
Lemma batchTranslate_pointwise f entries :
  pointwise translate f ->
  batchTranslateWithPlaceholders translate entries
  = Fulfilled (flat_map_of (map (translated_entry f) entries)).
Proof.
  intros Hf. unfold batchTranslateWithPlaceholders.
  rewrite (translate_batches_pointwise f Hf _ 0%nat [] (map guard entries))
    by (try reflexivity; apply BatchGreedy.batchStrings_concat).
  cbn [and_then translated]. f_equal. unfold flat_map_of.
  now rewrite !JsonFacts.fold_left_map.
Qed.

(** *** A service that answers with as many texts as it was sent *)

Lemma store_within pes results : forall st,
  (entryIndex st + length results <= length pes)%nat ->
  exists st',
    store pes results st = Fulfilled st'
    /\ entryIndex st' = (entryIndex st + length results)%nat.
Proof.
  induction results as [|r results IH]; intros st Hlen.
  - exists st. split; [reflexivity|simpl; lia].
  - simpl in Hlen. cbn [store].
    destruct (lookup_lt_is_Some_2 pes (entryIndex st)) as [e He]; [lia|].
    rewrite He.
    destruct (IH (Progress
                    (<[key (entry e) :=
                         Placeholders.restorePlaceholders r
                           (Placeholders.protected_map (protected e))]>
                       (translated st))
                    (S (entryIndex st)))) as (st' & Hst' & Hindex).
    + simpl. lia.
    + exists st'. split; [assumption|]. rewrite Hindex. simpl. lia.
Qed.

(** The call for the batch [k] throws, and the calls before it were
    answered: the loop throws what that call throws. *)
Lemma translate_batches_thrown pes (Haligned : aligned translate) message :
  forall batches i st k batch,
    (entryIndex st + length (concat batches) <= length pes)%nat ->
    batches !! k = Some batch ->
    translate (i + k)%nat batch = Thrown message ->
    (forall j earlier, (j < k)%nat -> batches !! j = Some earlier ->
       exists results, translate (i + j)%nat earlier = Fulfilled results) ->
    translate_batches translate pes i batches st = Thrown message.
Proof.
  induction batches as [|b batches IH]; intros i st k batch Hlen Hk Hthrown Hbefore;
    [discriminate|].
  cbn [translate_batches]. destruct k as [|k].
  - injection Hk as ->. rewrite Nat.add_0_r in Hthrown. now rewrite Hthrown.
  - destruct (Hbefore 0%nat b) as [results Hresults]; [lia|reflexivity|].
    rewrite Nat.add_0_r in Hresults. rewrite Hresults. cbn [and_then].
    pose proof (Haligned _ _ _ Hresults) as Hsame.
    simpl in Hlen. rewrite length_app in Hlen.
    destruct (store_within pes results st) as (st' & -> & Hindex); [lia|].
    cbn [and_then]. apply (IH (S i) st' k batch).
    + lia.
    + exact Hk.
    + now rewrite Nat.add_succ_comm.
    + intros j earlier Hj Hearlier. rewrite Nat.add_succ_comm.
      apply Hbefore; [lia|exact Hearlier].
Qed.

Lemma batchTranslate_thrown entries k batch message :
  aligned translate ->
  batches_of entries !! k = Some batch ->
  translate k batch = Thrown message ->
  (forall j earlier, (j < k)%nat -> batches_of entries !! j = Some earlier ->
     exists results, translate j earlier = Fulfilled results) ->
  batchTranslateWithPlaceholders translate entries = Thrown message.
Proof.
  intros Haligned Hk Hthrown Hbefore. unfold batchTranslateWithPlaceholders.
  fold (batches_of entries).
  rewrite (translate_batches_thrown (map guard entries) Haligned message
             (batches_of entries) 0%nat (Progress ∅ 0) k batch);
    try assumption; [reflexivity|].
  unfold batches_of. rewrite BatchGreedy.batchStrings_concat.
  simpl. now rewrite !length_map.
Qed.

(** *** Answers that are too short, or too long *)

Lemma translate_batches_short pes (Hshort : answers_within translate) :
  forall batches i st,
    (entryIndex st + length (concat batches) <= length pes)%nat ->
    exists st', translate_batches translate pes i batches st = Fulfilled st'.
Proof.
  induction batches as [|b batches IH]; intros i st Hlen.
  - exists st. reflexivity.
  - cbn [translate_batches]. destruct (Hshort i b) as (results & -> & Hresults).
    cbn [and_then]. simpl in Hlen. rewrite length_app in Hlen.
    destruct (store_within pes results st) as (st' & -> & Hindex); [lia|].
    cbn [and_then]. apply IH. lia.
Qed.

Lemma batchTranslate_short entries :
  answers_within translate ->
  exists m, batchTranslateWithPlaceholders translate entries = Fulfilled m.
Proof.
  intros Hshort. unfold batchTranslateWithPlaceholders.
  destruct (translate_batches_short (map guard entries) Hshort
              (Batch.batchStrings (map sent (map guard entries)) MAX_ITEMS MAX_CHARS)
              0%nat (Progress ∅ 0)) as [st ->].
  - rewrite BatchGreedy.batchStrings_concat. simpl. now rewrite !length_map.
  - exists (translated st). reflexivity.
Qed.

(** Results beyond the last entry. *)
Lemma store_beyond pes results : forall st,
  (entryIndex st <= length pes)%nat ->
  (length pes < entryIndex st + length results)%nat ->
  store pes results st = Thrown UNDEFINED_PROTECTED.
Proof.
  induction results as [|r results IH]; intros st Hin Hout.
  - simpl in Hout. lia.
  - cbn [store]. destruct (pes !! entryIndex st) as [e|] eqn:He; [|reflexivity].
    apply lookup_lt_Some in He. apply IH; simpl in *; lia.
Qed.

Lemma batchTranslate_beyond entries batch others results :
  batches_of entries = batch :: others ->
  translate 0%nat batch = Fulfilled results ->
  (length entries < length results)%nat ->
  batchTranslateWithPlaceholders translate entries = Thrown UNDEFINED_PROTECTED.
Proof.
  intros Hbatches Hanswer Hlen. unfold batchTranslateWithPlaceholders.
  fold (batches_of entries). rewrite Hbatches. cbn [translate_batches].
  rewrite Hanswer. cbn [and_then].
  rewrite store_beyond; [reflexivity| |];
    cbn [entryIndex]; rewrite length_map; lia.
Qed.

(** *** Any service: the keys of the result *)

Lemma store_keys pes results : forall st st',
  store pes results st = Fulfilled st' ->
  forall k, is_Some (translated st' !! k) ->
    is_Some (translated st !! k) \/ In k (map (fun e => key (entry e)) pes).
Proof.
  induction results as [|r results IH]; intros st st' H k Hk.
  - injection H as <-. now left.
  - cbn [store] in H. destruct (pes !! entryIndex st) as [e|] eqn:He;
      [|discriminate].
    destruct (IH _ _ H k Hk) as [Hold|Hin]; [|now right].
    cbn [translated] in Hold.
    destruct (String.eqb_spec (key (entry e)) k) as [<-|Hne].
    + right. apply in_map_iff. exists e. split; [reflexivity|].
      apply list_elem_of_In. eapply list_elem_of_lookup_2. exact He.
    + left. now rewrite lookup_insert_ne in Hold.
Qed.

Lemma translate_batches_keys pes : forall batches i st st',
  translate_batches translate pes i batches st = Fulfilled st' ->
  forall k, is_Some (translated st' !! k) ->
    is_Some (translated st !! k) \/ In k (map (fun e => key (entry e)) pes).
Proof.
  induction batches as [|b batches IH]; intros i st st' H k Hk.
  - injection H as <-. now left.
  - cbn [translate_batches] in H.
    destruct (translate i b) as [results|]; [|discriminate].
    cbn [and_then] in H.
    destruct (store pes results st) as [st1|] eqn:Hstore; [|discriminate].
    cbn [and_then] in H.
    destruct (IH _ _ _ H k Hk) as [Hmid|Hin]; [|now right].
    apply (store_keys _ _ _ _ Hstore k Hmid).
Qed.

(** Whatever the service answers, a translation is recorded only
    under the key of an entry. *)
Lemma batchTranslate_keys entries m :
  batchTranslateWithPlaceholders translate entries = Fulfilled m ->
  forall k, is_Some (m !! k) -> In k (map key entries).
Proof.
  unfold batchTranslateWithPlaceholders. intros H k Hk.
  destruct (translate_batches _ _ _ _ _) as [st|] eqn:Hloop; [|discriminate].
  cbn [and_then] in H. injection H as <-.
  destruct (translate_batches_keys _ _ _ _ _ Hloop k Hk) as [Hempty|Hin].
  - cbn [translated] in Hempty. rewrite lookup_empty in Hempty.
    now destruct Hempty.
  - now rewrite map_map in Hin.
Qed.

End AnyService.

(** *** The merged document of a source with good names *)

Lemma merge_relabel d translated existing :
  named_doc d = true ->
  mergeTranslations (flattenJson d "") translated existing
  = relabel_doc (merged_value translated existing) (prune_doc d).
Proof.
  intros H. rewrite JsonFacts.merge_unflatten.
  now rewrite <- (JsonFacts.unflatten_relabelled_named _ d H).
Qed.

Lemma relabel_keys f d :
  map key (flattenJson (relabel_doc f d) "") = map key (flattenJson d "").
Proof. rewrite JsonFacts.flatten_relabel, map_map. reflexivity. Qed.

(** The merged document has the keys of the source. *)
Lemma merge_keys d translated existing :
  named_doc d = true ->
  map key (flattenJson (mergeTranslations (flattenJson d "") translated existing) "")
  = map key (flattenJson d "").
Proof.
  intros H. rewrite (merge_relabel _ _ _ H), relabel_keys.
  now rewrite JsonFacts.flatten_prune.
Qed.

(** Against the merged document nothing of the source is missing. *)
Lemma computeDiff_merged d translated existing :
  named_doc d = true ->
  computeDiff (flattenJson d "")
    (Some (mergeTranslations (flattenJson d "") translated existing))
  = [].
Proof.
  intros H. rewrite JsonFacts.computeDiff_filter, (merge_keys _ _ _ H).
  generalize (flattenJson d ""). intros entries.
  assert (Hall : forall l, incl l entries ->
            List.filter
              (fun e => negb (existsb (String.eqb (key e)) (map key entries))) l
            = []).
  { induction l as [|e l IH]; intros Hincl; [reflexivity|]. simpl.
    assert (Hin : existsb (String.eqb (key e)) (map key entries) = true).
    { apply existsb_exists. exists (key e). split; [|apply String.eqb_refl].
      apply in_map. apply Hincl. now left. }
    rewrite Hin. simpl. apply IH. intros x Hx. apply Hincl. now right. }
  apply Hall. apply incl_refl.
Qed.

(** The merged document flattens and unflattens to itself. *)
Lemma merge_round_trip d translated existing :
  named_doc d = true ->
  unflattenJson
    (flattenJson (mergeTranslations (flattenJson d "") translated existing) "")
  = mergeTranslations (flattenJson d "") translated existing.
Proof.
  intros H. rewrite (merge_relabel _ _ _ H). apply JsonFacts.unflatten_flatten.
  rewrite JsonFacts.plain_relabel_doc. now apply JsonFacts.named_prune_doc.
Qed.

(** *** The keys of a source with good names *)

Lemma named_keys_NoDup d :
  named_doc d = true -> NoDup (map key (flattenJson d "")).
Proof.
  intros H. rewrite <- JsonFacts.flatten_prune.
  apply JsonFacts.flatten_keys_NoDup.
  apply (JsonFacts.plain_doc_unambiguous (prune_doc d)).
  - apply Forall_forall. intros kv _. apply JsonFacts.plain_unambiguous.
  - now apply JsonFacts.named_prune_doc.
Qed.

(** Among entries with distinct keys, the value looked up for the key
    of an entry is the value of the entry. *)
Lemma flat_lookup_NoDup entries e :
  NoDup (map key entries) -> In e entries ->
  flat_lookup entries (key e) = Some (value e).
Proof.
  induction entries as [|x entries IH]; intros Hnd Hin; [destruct Hin|].
  simpl in Hnd. apply NoDup_cons in Hnd as [Hx Hnd].
  rewrite JsonFacts.flat_lookup_cons. destruct Hin as [->|Hin].
  - assert (Hnone : flat_lookup entries (key e) = None).
    { apply JsonFacts.flat_lookup_None. apply not_true_is_false. intros Hex.
      apply existsb_exists in Hex as [k [Hk Heq]].
      apply String.eqb_eq in Heq. subst k. apply Hx. now apply list_elem_of_In. }
    now rewrite Hnone, String.eqb_refl.
  - now rewrite (IH Hnd Hin).
Qed.

Lemma flat_lookup_absent entries k :
  ~ In k (map key entries) -> flat_lookup entries k = None.
Proof.
  intros H. apply JsonFacts.flat_lookup_None. apply not_true_is_false.
  intros Hex. apply existsb_exists in Hex as [k' [Hk Heq]].
  apply String.eqb_eq in Heq. now subst k'.
Qed.

Lemma existing_value_lookup existing k :
  existing_value existing k
  = match existing with
    | Some target => flat_map_of (flattenJson target "") !! k
    | None => None
    end.
Proof.
  destruct existing as [target|]; [|reflexivity].
  simpl. now rewrite JsonFacts.flat_map_of_lookup.
Qed.

(** The entries still to translate are those without a value in the
    target. *)
Lemma computeDiff_existing src existing :
  computeDiff src existing
  = List.filter (fun e => negb (bool_decide (is_Some (existing_value existing (key e)))))
      src.
Proof.
  destruct existing as [target|]; simpl.
  - apply List.filter_ext. intros e. now rewrite JsonFacts.flat_map_of_lookup.
  - induction src as [|e src IH]; [reflexivity|]. simpl. now rewrite <- IH.
Qed.

Lemma filter_keys_NoDup (p : FlatEntry -> bool) src :
  NoDup (map key src) -> NoDup (map key (List.filter p src)).
Proof.
  induction src as [|x src IH]; intros Hnd; [apply NoDup_nil_2|].
  simpl in Hnd |- *. apply NoDup_cons in Hnd as [Hx Hnd].
  destruct (p x); [|now apply IH].
  simpl. apply NoDup_cons. split; [|now apply IH].
  intros Hin. apply Hx. apply list_elem_of_In in Hin.
  apply list_elem_of_In. apply in_map_iff in Hin as [y [Hy Hin]].
  apply List.filter_In in Hin as [Hin _].
  apply in_map_iff. now exists y.
Qed.

(** With a service that answers string by string, and distinct keys,
    the merge gives every source entry its output value. *)
Lemma merged_output f src existing e :
  NoDup (map key src) -> In e src ->
  merged_value (flat_map_of (map (translated_entry f) (computeDiff src existing)))
    existing (key e) (value e)
  = output_value f existing (key e) (value e).
Proof.
  intros Hnd Hin. unfold merged_value, output_value.
  rewrite JsonFacts.flat_map_of_lookup, computeDiff_existing.
  destruct (existing_value existing (key e)) as [v|] eqn:Hv.
  - rewrite flat_lookup_absent.
    + destruct existing as [target|]; [|discriminate]. simpl in Hv |- *.
      now rewrite Hv.
    + rewrite map_map. cbn [translated_entry key]. intros Hk.
      apply in_map_iff in Hk as [x [Hkey Hx]].
      apply List.filter_In in Hx as [_ Hx]. rewrite Hkey, Hv in Hx.
      rewrite bool_decide_eq_true_2 in Hx by eauto. discriminate.
  - change (key e) with (key (translated_entry f e)) at 1.
    rewrite flat_lookup_NoDup; [reflexivity| |].
    + rewrite map_map. cbn [translated_entry key]. now apply filter_keys_NoDup.
    + apply in_map. apply List.filter_In. split; [assumption|].
      rewrite Hv. rewrite bool_decide_eq_false_2 by (intros [v Hv']; discriminate).
      reflexivity.
Qed.

End PipelineFacts.
(** ** The indentation of the source *)

Module IndentFacts.

Import Str StrTrim Indent IndentSpec.

Example detect_two : detectIndent ("{" +:+ LF +:+ "  a: 1" +:+ LF +:+ "}") = Count 2.
Proof. reflexivity. Qed.

Lemma white_prefix_app ws rest :
  all is_white_space ws = true -> starts_black rest = true ->
  white_prefix (ws +:+ rest) = ws.
Proof.
  induction ws as [|c ws IH]; simpl; intros Hws Hrest.
  - destruct rest as [|c rest]; [reflexivity|]. simpl in *.
    now destruct (is_white_space c).
  - apply andb_true_iff in Hws as [Hc Hws]. rewrite Hc. now rewrite IH.
Qed.

(** Within a line the search moves on. *)
Lemma first_indent_skip s tail :
  all (fun c => negb (is_line_terminator c)) s = true ->
  first_indent false (s +:+ tail) = first_indent false tail.
Proof.
  induction s as [|c s IH]; simpl; intros H; [reflexivity|].
  apply andb_true_iff in H as [Hc Hs]. apply negb_true_iff in Hc.
  rewrite Hc. now apply IH.
Qed.

(** The match is the white space after the first line terminator. *)
Lemma first_indent_line first t ws rest :
  first_line first = true -> is_line_terminator t = true ->
  ws <> "" -> all is_white_space ws = true -> starts_black rest = true ->
  first_indent true (first +:+ String t (ws +:+ rest)) = Some ws.
Proof.
  intros Hfirst Ht Hne Hws Hrest.
  destruct first as [|c first]; [discriminate|].
  cbn [first_line all] in Hfirst. apply andb_true_iff in Hfirst as [Hc Hline].
  apply andb_true_iff in Hline as [Hct Hline].
  apply negb_true_iff in Hc, Hct.
  change (String c first +:+ String t (ws +:+ rest))
    with (String c (first +:+ String t (ws +:+ rest))).
  cbn [first_indent]. rewrite Hc, Hct. cbn [andb].
  rewrite (first_indent_skip first _ Hline). cbn [first_indent andb]. rewrite Ht.
  destruct ws as [|w ws]; [congruence|].
  change (String w ws +:+ rest) with (String w (ws +:+ rest)).
  cbn [first_indent]. cbn [all] in Hws.
  apply andb_true_iff in Hws as [Hw Hws]. rewrite Hw. cbn [andb].
  f_equal. change (String w (ws +:+ rest)) with (String w ws +:+ rest).
  apply white_prefix_app; [|assumption]. cbn [all]. now rewrite Hw, Hws.
Qed.

Lemma includes_spaces n : includes (spaces n) TAB = false.
Proof. induction n as [|n IH]; [reflexivity|]. simpl. exact IH. Qed.

Lemma length_spaces n : String.length (spaces n) = n.
Proof. induction n as [|n IH]; [reflexivity|]. simpl. now rewrite IH. Qed.

Lemma all_spaces n : all is_white_space (spaces n) = true.
Proof. induction n as [|n IH]; [reflexivity|]. simpl. exact IH. Qed.

(** In a text of one line nothing matches. *)
Lemma first_indent_one_line s :
  starts_black s = true ->
  all (fun c => negb (is_line_terminator c)) s = true ->
  first_indent true s = None.
Proof.
  destruct s as [|c s]; [reflexivity|]. cbn [starts_black all first_indent].
  intros Hc H. apply andb_true_iff in H as [Hct Hs].
  apply negb_true_iff in Hc, Hct. rewrite Hc, Hct. cbn [andb].
  clear Hc Hct. induction s as [|a s IH]; [reflexivity|].
  cbn [all] in Hs. apply andb_true_iff in Hs as [Ha Hs].
  apply negb_true_iff in Ha. cbn [first_indent andb]. rewrite Ha. now apply IH.
Qed.

End IndentFacts.

(** ** The target languages *)

Module InputsFacts.

Import Str StrTrim Inputs.

Example languages_of_list : targetLanguages "fr, de ,,es " = ["fr"; "de"; "es"].
Proof. reflexivity. Qed.

(** *** Trimming *)

Lemma trimEnd_cons c s :
  is_white_space c = false -> trimEnd (String c s) = String c (trimEnd s).
Proof. intros Hc. cbn [trimEnd]. rewrite Hc. now destruct (trimEnd s). Qed.

Lemma trimEnd_idem s : trimEnd (trimEnd s) = trimEnd s.
Proof.
  induction s as [|c s IH]; [reflexivity|]. cbn [trimEnd].
  destruct (trimEnd s) as [|k kept] eqn:E.
  - destruct (is_white_space c) eqn:Hc; [reflexivity|].
    cbn [trimEnd]. now rewrite Hc.
  - cbn [trimEnd] in IH |- *. rewrite IH. reflexivity.
Qed.

Lemma trimStart_black s :
  trimStart s = "" \/ exists c s', trimStart s = String c s' /\ is_white_space c = false.
Proof.
  induction s as [|c s IH]; [now left|]. cbn [trimStart].
  destruct (is_white_space c) eqn:Hc; [exact IH|]. right. now exists c, s.
Qed.

Lemma trimStart_all s : trimStart s = "" <-> all is_white_space s = true.
Proof.
  induction s as [|c s IH]; [now split|]. cbn [trimStart all].
  destruct (is_white_space c); [exact IH|]. now split.
Qed.

Lemma trimEnd_all s : trimEnd s = "" <-> all is_white_space s = true.
Proof.
  induction s as [|c s IH]; [now split|]. cbn [trimEnd all].
  destruct (trimEnd s) as [|k kept].
  - destruct (is_white_space c); [|now split].
    simpl. split; [intros _; now apply IH|reflexivity].
  - split; [discriminate|]. intros H. apply andb_true_iff in H as [_ H].
    apply IH in H. discriminate.
Qed.

Lemma all_trimStart s : all is_white_space (trimStart s) = all is_white_space s.
Proof.
  induction s as [|c s IH]; [reflexivity|]. cbn [trimStart all].
  destruct (is_white_space c) eqn:Hc; [exact IH|]. cbn [all]. now rewrite Hc.
Qed.

(** Trimming leaves nothing exactly of the strings of white space. *)
Lemma trim_empty s : trim s = "" <-> all is_white_space s = true.
Proof. unfold trim. now rewrite trimEnd_all, all_trimStart. Qed.

Lemma trim_idem s : trim (trim s) = trim s.
Proof.
  unfold trim. destruct (trimStart_black s) as [->|(c & s' & -> & Hc)];
    [reflexivity|].
  rewrite (trimEnd_cons _ _ Hc). cbn [trimStart]. rewrite Hc.
  rewrite (trimEnd_cons _ _ Hc). now rewrite trimEnd_idem.
Qed.

(** Trimming takes code units away, and adds none. *)
Lemma includes_trimStart s c : includes s c = false -> includes (trimStart s) c = false.
Proof.
  induction s as [|a s IH]; [reflexivity|]. cbn [trimStart includes].
  intros H. apply orb_false_iff in H as [Ha Hs].
  destruct (is_white_space a); [now apply IH|]. cbn [includes]. now rewrite Ha, Hs.
Qed.

Lemma includes_trimEnd s c : includes s c = false -> includes (trimEnd s) c = false.
Proof.
  induction s as [|a s IH]; [reflexivity|]. cbn [trimEnd includes].
  intros H. apply orb_false_iff in H as [Ha Hs]. specialize (IH Hs).
  destruct (trimEnd s) as [|k kept].
  - destruct (is_white_space a); [reflexivity|]. cbn [includes]. now rewrite Ha.
  - cbn [includes] in IH |- *. now rewrite Ha, IH.
Qed.

Lemma includes_trim s c : includes s c = false -> includes (trim s) c = false.
Proof. intros H. unfold trim. now apply includes_trimEnd, includes_trimStart. Qed.

(** *** Splitting *)

(** No piece has the separator in it. *)
Lemma split_pieces sep s : Forall (fun piece => includes piece sep = false) (split sep s).
Proof.
  induction s as [|c s IH]; [repeat constructor|]. cbn [split].
  destruct (Ascii.eqb_spec c sep) as [->|Hne].
  - apply List.Forall_cons; [reflexivity|exact IH].
  - destruct (split sep s) as [|first others].
    + repeat constructor. simpl. apply orb_false_iff. split; [|reflexivity].
      now apply Ascii.eqb_neq.
    + inversion IH as [|? ? Hfirst Hothers]; subst.
      apply List.Forall_cons; [|assumption]. cbn [includes].
      apply orb_false_iff. split; [now apply Ascii.eqb_neq|assumption].
Qed.

(** The pieces are of white space exactly when the string is of white
    space and separators. *)
Lemma split_separates s :
  forallb (all is_white_space) (split COMMA s) = all separates s.
Proof.
  induction s as [|c s IH]; [reflexivity|]. cbn [split all]. unfold separates at 1.
  destruct (Ascii.eqb_spec c COMMA) as [->|Hne].
  - cbn [forallb all orb andb]. exact IH.
  - cbn [orb]. rewrite <- IH.
    pose proof (StrFacts.split_nonempty COMMA s) as Hne'.
    destruct (split COMMA s) as [|first others]; [congruence|].
    cbn [forallb all]. now rewrite andb_assoc.
Qed.

Lemma len_pos s : (0 <? len s) = negb (is_empty s).
Proof. destruct s; reflexivity. Qed.

End InputsFacts.
(** ** The tokens of the placeholder guard *)

Module TokensFacts.

Import Placeholders Tokens.

Lemma append_length s t : String.length (s +:+ t) = (String.length s + String.length t)%nat.
Proof. induction s as [|c s IH]; simpl; [reflexivity|]. now rewrite IH. Qed.

Lemma append_cancel_r t : forall s1 s2, s1 +:+ t = s2 +:+ t -> s1 = s2.
Proof.
  induction s1 as [|c s1 IH]; intros [|d s2] H.
  - reflexivity.
  - apply (f_equal String.length) in H. simpl in H. rewrite append_length in H. lia.
  - apply (f_equal String.length) in H. simpl in H. rewrite append_length in H. lia.
  - simpl in H. injection H as -> H. f_equal. now apply IH.
Qed.

Lemma of_nat_inj i j : Str.of_nat i = Str.of_nat j -> i = j.
Proof.
  unfold Str.of_nat. intros H. apply DecimalNat.Unsigned.to_uint_inj.
  apply (f_equal NilEmpty.uint_of_string) in H.
  rewrite !NilEmpty.usu in H. now injection H.
Qed.

(** Two numbers do not have the same token. *)
Lemma token_inj i j : token i = token j -> i = j.
Proof.
  unfold token. intros H. simpl in H. injection H as H.
  apply append_cancel_r in H. now apply of_nat_inj.
Qed.

Lemma tokens_S n : tokens (S n) = tokens n ++ [token n].
Proof. unfold tokens. now rewrite seq_S, map_app. Qed.

Lemma tokens_fresh n : ~ In (token n) (tokens n).
Proof.
  unfold tokens. intros H. apply in_map_iff in H as [i [Hi Hin]].
  apply token_inj in Hi. apply in_seq in Hin. lia.
Qed.

Lemma tokens_NoDup n : NoDup (tokens n).
Proof.
  induction n as [|n IH]; [apply NoDup_nil_2|].
  rewrite tokens_S. apply NoDup_app. repeat split.
  - exact IH.
  - intros k Hk Hlast. apply list_elem_of_In in Hk, Hlast.
    destruct Hlast as [<-|[]]. now apply tokens_fresh in Hk.
  - apply NoDup_singleton.
Qed.

(** A new key is set at the end. *)
Lemma map_set_fresh (m : token_map) k v :
  ~ In k (map fst m) -> map_set m k v = m ++ [(k, v)].
Proof.
  induction m as [|[k' v'] m IH]; intros H; [reflexivity|].
  simpl in H |- *. destruct (String.eqb_spec k' k) as [->|Hne]; [tauto|].
  rewrite IH by tauto. reflexivity.
Qed.

Lemma replacer_numbered matched st :
  numbered st -> numbered (snd (replacer matched st)).
Proof.
  unfold numbered, replacer. cbn [snd idx placeholders]. intros H.
  fold (token (idx st)).
  rewrite map_set_fresh by (rewrite H; apply tokens_fresh).
  now rewrite map_app, H, tokens_S.
Qed.

Lemma replace_all_numbered pattern s : forall skip st,
  numbered st -> numbered (snd (replace_all pattern s skip st)).
Proof.
  induction s as [|a s IH]; intros skip st H; [exact H|].
  cbn [replace_all]. destruct skip as [|skip]; [|now apply IH].
  destruct (match_here pattern (String a s)) as [[|n]|].
  - unfold bind, ret. specialize (IH O st H).
    destruct (replace_all pattern s 0 st) as [rest st']. exact IH.
  - unfold bind, ret.
    pose proof (replacer_numbered (Str.take (S n) (String a s)) st H) as Hr.
    destruct (replacer (Str.take (S n) (String a s)) st) as [tok st1].
    specialize (IH n st1 Hr).
    destruct (replace_all pattern s n st1) as [rest st']. exact IH.
  - unfold bind, ret. specialize (IH O st H).
    destruct (replace_all pattern s 0 st) as [rest st']. exact IH.
Qed.

Lemma patterns_numbered patterns : forall s st,
  numbered st ->
  numbered
    (snd (fold_left
            (fun acc pattern => replace_all pattern (fst acc) O (snd acc))
            patterns (s, st))).
Proof.
  induction patterns as [|pattern patterns IH]; intros s st H; [exact H|].
  cbn [fold_left fst snd].
  pose proof (replace_all_numbered pattern s O st H) as Hstep.
  destruct (replace_all pattern s 0 st) as [s' st']. now apply IH.
Qed.

(** The tokens of a protected text are [__PH0__], [__PH1__], ... in
    this order: as many as there are originals. *)
Lemma protect_numbered s :
  map fst (protected_map (protectPlaceholders s))
  = tokens (length (protected_map (protectPlaceholders s))).
Proof.
  unfold protectPlaceholders.
  pose proof (patterns_numbered PLACEHOLDER_PATTERNS s (Scan O []) eq_refl) as H.
  destruct (fold_left _ PLACEHOLDER_PATTERNS (s, Scan O [])) as [result st].
  cbn [protected_map snd] in *. unfold numbered in H.
  assert (Hlen : length (placeholders st) = idx st).
  { rewrite <- (length_map fst), H. unfold tokens.
    now rewrite length_map, length_seq. }
  now rewrite Hlen.
Qed.

End TokensFacts.
(** ** The client as the service of the pipeline *)

Module ServiceFacts.

Import Client ClientSpec Pipeline PipelineSpec Service.

Lemma translate_recovers f q network :
  recovers f q network -> translate network = Fulfilled (map f q).
Proof.
  intros (k & resp & Hk & Hbefore & Hnet & Hok & Hbody). unfold translate.
  rewrite (ClientRuns.postWithRetry_succeeds MAX_RETRIES network k resp
             Hk Hbefore Hnet Hok).
  unfold delivered. now rewrite Hbody.
Qed.

(** The failures that the client outlasts do not show in the service. *)
Lemma over_pointwise f network :
  (forall i q, recovers f q (network i q)) -> pointwise (over network) f.
Proof. intros H i q. unfold over. now apply translate_recovers. Qed.

End ServiceFacts.
(** ** Texts with tokens *)

Module MarkedFacts.

Import Str StrTrim Placeholders Tokens Marked.

(** *** Strings *)

Lemma append_assoc s t u : (s +:+ t) +:+ u = s +:+ (t +:+ u).
Proof. induction s as [|c s IH]; simpl; [reflexivity|]. now rewrite IH. Qed.

Lemma append_nil_r s : s +:+ "" = s.
Proof. induction s as [|c s IH]; simpl; [reflexivity|]. now rewrite IH. Qed.

(** [p] is a prefix of [s] when [s] is [p] with something after it. *)
Lemma prefix_iff p : forall s,
  String.prefix p s = true <-> exists r, s = p +:+ r.
Proof.
  induction p as [|a p IH]; intros s.
  - rewrite MarkdownShape.prefix_nil. split; [intros _; now exists s|reflexivity].
  - destruct s as [|c s].
    + split; [discriminate|]. intros [r Hr]. discriminate.
    + rewrite MarkdownShape.prefix_cons. destruct (ascii_dec a c) as [<-|Hne].
      * rewrite IH. split; intros [r Hr]; exists r.
        -- simpl. now rewrite Hr.
        -- simpl in Hr. now injection Hr.
      * split; [discriminate|]. intros [r Hr]. simpl in Hr.
      injection Hr as Hac _. congruence.
Qed.

Lemma prefix_false p s :
  (forall r, s <> p +:+ r) -> String.prefix p s = false.
Proof.
  intros H. apply not_true_is_false. intros Htrue.
  apply prefix_iff in Htrue as [r Hr]. now apply (H r).
Qed.

Lemma drop_append u : forall k v,
  (k <= String.length u)%nat -> drop k (u +:+ v) = drop k u +:+ v.
Proof.
  induction u as [|c u IH]; intros [|k] v Hk; simpl in *; try reflexivity; try lia.
  apply IH. lia.
Qed.

(** The search goes through a text in which the pattern starts
    nowhere. *)
Lemma index_skip pat v : forall u,
  (forall k, (k < String.length u)%nat ->
             String.prefix pat (drop k (u +:+ v)) = false) ->
  String.index 0 pat (u +:+ v)
  = (fun m => (String.length u + m)%nat) <$> String.index 0 pat v.
Proof.
  induction u as [|c u IH]; intros H.
  - simpl. now destruct (String.index 0 pat v).
  - change (String c u +:+ v) with (String c (u +:+ v)).
    rewrite MarkdownShape.index_0_cons.
    pose proof (H 0%nat ltac:(simpl; lia)) as H0.
    change (String.prefix pat (String c (u +:+ v)) = false) in H0. rewrite H0.
    rewrite IH.
    + now destruct (String.index 0 pat v).
    + intros k Hk. apply (H (S k)). simpl. lia.
Qed.

Lemma index_here pat v : String.index 0 pat (pat +:+ v) = Some 0%nat.
Proof.
  assert (H : String.prefix pat (pat +:+ v) = true) by (apply prefix_iff; now exists v).
  destruct (pat +:+ v) as [|c s] eqn:E.
  - destruct pat; [reflexivity|discriminate].
  - rewrite MarkdownShape.index_0_cons. now rewrite H.
Qed.

(** *** Texts without the middle of a token *)

Lemma clear_tail c s : clear (String c s) = true -> clear s = true.
Proof.
  destruct s as [|b [|d s]]; try reflexivity. cbn [clear]. intros H.
  now apply andb_true_iff in H as [_ H].
Qed.

Lemma clear_app_r u : forall v, clear (u +:+ v) = true -> clear v = true.
Proof.
  induction u as [|c u IH]; intros v H; [exact H|].
  apply IH. now apply (clear_tail c).
Qed.

Lemma clear_app_l u : forall v, clear (u +:+ v) = true -> clear u = true.
Proof.
  induction u as [|a u IH]; intros v H; [reflexivity|].
  pose proof (IH v (clear_tail _ _ H)) as Hu.
  destruct u as [|b [|c u]]; try reflexivity.
  cbn [clear]. change (String a (String b (String c u)) +:+ v)
    with (String a (String b (String c (u +:+ v)))) in H.
  cbn [clear] in H. apply andb_true_iff in H as [H _]. now rewrite H.
Qed.

Lemma clear_drop k : forall s, clear s = true -> clear (drop k s) = true.
Proof.
  induction k as [|k IH]; intros [|c s] H; try exact H; try reflexivity.
  simpl. apply IH. now apply (clear_tail c).
Qed.

(** *** The digits of a number *)

Lemma uint_digits d : all is_digit (NilEmpty.string_of_uint d) = true.
Proof. induction d; simpl; try reflexivity; exact IHd. Qed.

Lemma of_nat_digits n : all is_digit (of_nat n) = true.
Proof. apply uint_digits. Qed.

Lemma of_nat_nonempty n : of_nat n <> "".
Proof.
  unfold of_nat. intros H.
  assert (Hnil : Nat.to_uint n = Decimal.Nil).
  { pose proof (NilEmpty.usu (Nat.to_uint n)) as Hu. rewrite H in Hu.
    simpl in Hu. now injection Hu. }
  pose proof (DecimalNat.Unsigned.of_to n) as Hn. rewrite Hnil in Hn.
  simpl in Hn. subst n. discriminate.
Qed.

(** Two runs of digits that end at an underscore in the same text are
    the same run. *)
Lemma digits_cancel a : forall b x y,
  all is_digit a = true -> all is_digit b = true ->
  a +:+ String "_" x = b +:+ String "_" y -> a = b.
Proof.
  induction a as [|c a IH]; intros [|d b] x y Ha Hb H; simpl in *.
  - reflexivity.
  - injection H as <- _. discriminate.
  - injection H as -> _. discriminate.
  - injection H as -> H. f_equal.
    apply andb_true_iff in Ha as [_ Ha]. apply andb_true_iff in Hb as [_ Hb].
    now apply (IH b x y).
Qed.

Lemma digits_drop d : forall k,
  all is_digit d = true -> (k < String.length d)%nat ->
  exists c d', drop k d = String c d' /\ is_digit c = true.
Proof.
  induction d as [|c d IH]; intros k Hd Hk; simpl in Hk; [lia|].
  cbn [all] in Hd. apply andb_true_iff in Hd as [Hc Hd].
  destruct k as [|k]; [now exists c, d|]. simpl. apply IH; [assumption|lia].
Qed.

(** *** The form of a token *)

Lemma token_form j :
  token j = String "_" (String "_" (String "P" (String "H" (of_nat j +:+ "__")))).
Proof. reflexivity. Qed.

Lemma token_digit j :
  exists c d, of_nat j = String c d /\ is_digit c = true.
Proof.
  pose proof (of_nat_nonempty j) as Hne. pose proof (of_nat_digits j) as Hd.
  destruct (of_nat j) as [|c d]; [congruence|].
  cbn [all] in Hd. apply andb_true_iff in Hd as [Hc _]. now exists c, d.
Qed.

(** *** Where a token does not start *)

(** Not in the text between the tokens. *)
Lemma literal_no_token h rest j :
  h <> "" -> clear h = true -> ends_or_token rest ->
  String.prefix (token j) (h +:+ rest) = false.
Proof.
  intros Hne Hclear Hrest. apply prefix_false. intros r Heq.
  rewrite token_form in Heq. destruct (token_digit j) as (c0 & dj & Hj & Hc0).
  rewrite Hj in Heq.
  assert (Hstart : forall x, rest = String "_" x -> False \/ exists y, x = String "_" y).
  { intros x Hx. destruct Hrest as [->|(i & Z & ->)]; [discriminate|].
    rewrite token_form in Hx. simpl in Hx. injection Hx as <-. right. eauto. }
  destruct h as [|a [|b [|c [|d [|e h]]]]]; [congruence| | | | |]; simpl in Heq.
  - injection Heq as -> Heq. destruct (Hstart _ Heq) as [[]|[y Hy]]. discriminate.
  - injection Heq as -> -> Heq.
    destruct Hrest as [->|(i & Z & ->)]; [discriminate|].
    rewrite token_form in Heq. simpl in Heq. discriminate.
  - injection Heq as -> -> -> Heq.
    destruct Hrest as [->|(i & Z & ->)]; [discriminate|].
    rewrite token_form in Heq. simpl in Heq. discriminate.
  - injection Heq as -> -> -> -> Heq.
    destruct Hrest as [->|(i & Z & ->)]; [discriminate|].
    rewrite token_form in Heq. simpl in Heq. injection Heq as <- _. discriminate.
  - injection Heq as -> -> -> -> -> _. cbn [clear] in Hclear.
    rewrite Hc0 in Hclear. simpl in Hclear. discriminate.
Qed.

(** Not where another token starts. *)
Lemma token_no_other i j Z :
  i <> j -> String.prefix (token j) (token i +:+ Z) = false.
Proof.
  intros Hne. apply prefix_false. intros r Heq. apply Hne.
  rewrite !token_form in Heq. simpl in Heq. injection Heq as Heq.
  rewrite !append_assoc in Heq. simpl in Heq.
  apply digits_cancel in Heq; try apply of_nat_digits.
  now apply TokensFacts.of_nat_inj.
Qed.

(** Not at the underscores that end a token. *)
Lemma token_end_no_token s rest j :
  clear s = true -> ends_or_token rest ->
  String.prefix (token j) (String "_" (String "_" (s +:+ rest))) = false
  /\ String.prefix (token j) (String "_" (s +:+ rest)) = false.
Proof.
  intros Hclear Hrest. destruct (token_digit j) as (c0 & dj & Hj & Hc0).
  assert (Hno : forall x, rest <> String "P" x /\ rest <> String "H" x
                          /\ rest <> String c0 x).
  { intros x. destruct Hrest as [->|(i & Z & ->)]; [repeat split; discriminate|].
    rewrite token_form. simpl. repeat split; try discriminate.
    intros [= <-]. discriminate. }
  split; apply prefix_false; intros r Heq; rewrite token_form, Hj in Heq;
    simpl in Heq.
  - injection Heq as Heq.
    destruct s as [|a [|b [|c s]]]; simpl in Heq.
    + now apply (Hno _) in Heq.
    + injection Heq as -> Heq. now apply (Hno _) in Heq.
    + injection Heq as -> -> Heq. now apply (Hno _) in Heq.
    + injection Heq as -> -> -> _. cbn [clear] in Hclear.
      rewrite Hc0 in Hclear. simpl in Hclear. discriminate.
  - injection Heq as Heq.
    destruct s as [|a [|b [|c [|d s]]]]; simpl in Heq.
    + destruct Hrest as [->|(i & Z & ->)]; [discriminate|].
      rewrite token_form in Heq. simpl in Heq. discriminate.
    + injection Heq as -> Heq. now apply (Hno _) in Heq.
    + injection Heq as -> -> Heq. now apply (Hno _) in Heq.
    + injection Heq as -> -> -> Heq. now apply (Hno _) in Heq.
    + injection Heq as -> -> -> -> _. cbn [clear] in Hclear.
      rewrite Hc0 in Hclear. simpl in Hclear. discriminate.
Qed.

(** *** Replacing the first token *)

Lemma substitution_inert matched str position : forall template,
  inert template = true -> substitution matched str position template = template.
Proof.
  induction template as [|a tail IH]; [reflexivity|]. intros H.
  assert (Htail : inert tail = true).
  { destruct tail as [|c rest]; [reflexivity|]. cbn [inert] in H.
    now apply andb_true_iff in H as [_ H]. }
  cbn [substitution]. destruct (a =? "$")%char eqn:Ea.
  - destruct tail as [|c rest]; [reflexivity|].
    cbn [inert] in H. rewrite Ea in H. cbn [andb] in H.
    apply andb_true_iff in H as [H _]. apply negb_true_iff in H.
    apply orb_false_iff in H as [H Hq]. apply orb_false_iff in H as [H Hb].
    apply orb_false_iff in H as [Hd Ha]. rewrite Hd, Ha, Hb, Hq.
    now rewrite (IH Htail).
  - now rewrite (IH Htail).
Qed.

Lemma take_append u : forall m v,
  take (String.length u + m) (u +:+ v) = u +:+ take m v.
Proof. induction u as [|c u IH]; intros m v; simpl; [reflexivity|]. now rewrite IH. Qed.

Lemma drop_append_more u : forall m v,
  drop (String.length u + m) (u +:+ v) = drop m v.
Proof. induction u as [|c u IH]; intros m v; simpl; [reflexivity|]. apply IH. Qed.

(** A replacement that stands for itself, beyond a text in which the
    pattern starts nowhere. *)
Lemma replace_skip pat o u v :
  inert o = true ->
  (forall k, (k < String.length u)%nat ->
             String.prefix pat (drop k (u +:+ v)) = false) ->
  replace (u +:+ v) pat o = u +:+ replace v pat o.
Proof.
  intros Ho H. unfold replace, indexOf. rewrite (index_skip pat v u H).
  destruct (String.index 0 pat v) as [m|]; [|reflexivity].
  cbn [fmap option_fmap option_map]. rewrite !substitution_inert by assumption.
  rewrite take_append, append_assoc. f_equal. f_equal.
  now rewrite <- Nat.add_assoc, drop_append_more.
Qed.

Lemma replace_here pat o v :
  inert o = true -> replace (pat +:+ v) pat o = o +:+ v.
Proof.
  intros Ho. unfold replace, indexOf. rewrite index_here.
  rewrite substitution_inert by assumption. cbn [take].
  replace (take 0 (pat +:+ v)) with "" by (now destruct (pat +:+ v)).
  simpl. f_equal. rewrite <- (Nat.add_0_r (String.length pat)).
  apply drop_append_more.
Qed.

Lemma drop_nonempty k : forall s, (k < String.length s)%nat -> drop k s <> "".
Proof.
  induction k as [|k IH]; intros [|c s] H; simpl in *; try lia; try discriminate.
  apply IH. lia.
Qed.

Lemma literal_offsets head rest j :
  clear head = true -> ends_or_token rest ->
  forall k, (k < String.length head)%nat ->
    String.prefix (token j) (drop k (head +:+ rest)) = false.
Proof.
  intros Hclear Hrest k Hk. rewrite drop_append by lia.
  apply literal_no_token; [now apply drop_nonempty|now apply clear_drop|assumption].
Qed.

Lemma render_parts_start ps : ends_or_token (render_parts ps).
Proof.
  destruct ps as [|[i s] rest]; [now left|]. right. simpl. eauto.
Qed.

(** Through a token that is not the one replaced. *)
Lemma replace_over_token i j o s rest :
  i <> j -> inert o = true -> clear s = true -> ends_or_token rest ->
  replace (token i +:+ (s +:+ rest)) (token j) o
  = token i +:+ replace (s +:+ rest) (token j) o.
Proof.
  intros Hne Ho Hs Hrest.
  assert (Hform : forall Z, token i +:+ Z
                            = "__PH" +:+ (of_nat i +:+ ("__" +:+ Z))).
  { intros Z. rewrite token_form. simpl. now rewrite append_assoc. }
  rewrite !Hform.
  rewrite (replace_skip (token j) o "__PH"); [|assumption|].
  2:{ intros [|[|[|[|k]]]] Hk; try reflexivity; [|simpl in Hk; lia].
      cbn [drop]. rewrite <- Hform. now apply token_no_other. }
  rewrite (replace_skip (token j) o (of_nat i)); [|assumption|].
  2:{ intros k Hk. rewrite drop_append by lia.
      destruct (digits_drop (of_nat i) k (of_nat_digits i) Hk) as (c & d & -> & Hc).
      rewrite token_form. change (String c d +:+ ("__" +:+ (s +:+ rest)))
        with (String c (d +:+ ("__" +:+ (s +:+ rest)))).
      rewrite MarkdownShape.prefix_cons.
      destruct (ascii_dec "_" c) as [<-|]; [discriminate|reflexivity]. }
  rewrite (replace_skip (token j) o "__"); [reflexivity|assumption|].
  destruct (token_end_no_token s rest j Hs Hrest) as [H0 H1].
  intros [|[|k]] Hk; [exact H0|exact H1|simpl in Hk; lia].
Qed.

Lemma replace_nothing j o : replace "" (token j) o = "".
Proof. reflexivity. Qed.

(** [replace] puts [o] where the token [j] stands first. *)
Lemma replace_first_token j o (Ho : inert o = true) : forall ps head,
  clear head = true ->
  Forall (fun p => clear (snd p) = true) ps ->
  replace (head +:+ render_parts ps) (token j) o = render (put_parts j o head ps).
Proof.
  induction ps as [|[i s] rest IH]; intros head Hhead Hps.
  - cbn [render_parts put_parts]. unfold render. cbn [lead parts render_parts].
    rewrite (replace_skip (token j) o head ""); [|assumption|].
    + now rewrite replace_nothing.
    + apply literal_offsets; [assumption|now left].
  - inversion Hps as [|? ? Hs Hrest]; subst. cbn [snd] in Hs.
    cbn [render_parts put_parts].
    rewrite (replace_skip (token j) o head); [|assumption|].
    2:{ apply literal_offsets; [assumption|]. right. eauto. }
    destruct (Nat.eqb_spec i j) as [->|Hne].
    + rewrite replace_here by assumption. unfold render. cbn [lead parts].
      now rewrite !append_assoc.
    + rewrite replace_over_token; try assumption; [|apply render_parts_start].
      rewrite (IH s Hs Hrest). unfold render. cbn [lead parts render_parts].
      reflexivity.
Qed.

(** *** The restored text *)

Lemma original_cons j o more i :
  original ((j, o) :: more) i = if (j =? i)%nat then Some o else original more i.
Proof. unfold original. simpl. now destruct (j =? i)%nat. Qed.

Lemma restored_parts_nil ps : restored_parts [] ps = render_parts ps.
Proof.
  induction ps as [|[i s] rest IH]; [reflexivity|]. simpl. now rewrite IH.
Qed.

Lemma restored_parts_fresh j o more ps :
  ~ In j (map fst ps) ->
  restored_parts ((j, o) :: more) ps = restored_parts more ps.
Proof.
  induction ps as [|[i s] rest IH]; intros Hj; [reflexivity|].
  simpl in Hj. cbn [restored_parts]. rewrite original_cons.
  destruct (Nat.eqb_spec j i) as [->|Hne]; [tauto|].
  rewrite IH by tauto. reflexivity.
Qed.

(** Restoring all tokens, and restoring the others after [j]. *)
Lemma restored_put j o more : forall ps head,
  NoDup (map fst ps) ->
  restored more (put_parts j o head ps) = head +:+ restored_parts ((j, o) :: more) ps.
Proof.
  induction ps as [|[i s] rest IH]; intros head Hnd; [reflexivity|].
  simpl in Hnd. apply NoDup_cons in Hnd as [Hi Hnd].
  cbn [put_parts restored_parts]. rewrite original_cons.
  destruct (Nat.eqb_spec i j) as [->|Hne].
  - rewrite Nat.eqb_refl. unfold restored. cbn [lead parts default].
    rewrite restored_parts_fresh.
    + now rewrite !append_assoc.
    + intros Hin. apply Hi. now apply list_elem_of_In.
  - destruct (Nat.eqb_spec j i) as [->|_]; [congruence|].
    unfold restored. cbn [lead parts restored_parts].
    specialize (IH s Hnd). unfold restored in IH. now rewrite IH.
Qed.

Lemma put_parts_indices j o : forall ps head,
  NoDup (map fst ps) -> NoDup (map fst (parts (put_parts j o head ps)))
  /\ forall i, In i (map fst (parts (put_parts j o head ps))) -> In i (map fst ps).
Proof.
  induction ps as [|[i s] rest IH]; intros head Hnd; [split; [apply NoDup_nil_2|auto]|].
  simpl in Hnd. apply NoDup_cons in Hnd as [Hi Hnd]. cbn [put_parts].
  destruct (i =? j)%nat.
  - cbn [parts]. split; [assumption|]. intros k Hk. now right.
  - destruct (IH s Hnd) as [IHnd IHin]. cbn [parts map fst]. split.
    + apply NoDup_cons. split; [|assumption]. intros Hin. apply Hi.
      apply list_elem_of_In. apply IHin. now apply list_elem_of_In.
    + intros k [->|Hk]; [now left|right; now apply IHin].
Qed.

(** The texts between the tokens of a text that is clear when
    restored. *)
Lemma restored_clear originals : forall ps head,
  clear (head +:+ restored_parts originals ps) = true ->
  clear head = true /\ Forall (fun p => clear (snd p) = true) ps.
Proof.
  induction ps as [|[i s] rest IH]; intros head H.
  - split; [now apply clear_app_l in H|constructor].
  - split; [now apply clear_app_l in H|].
    cbn [restored_parts] in H. apply clear_app_r, clear_app_r in H.
    destruct (IH s H) as [Hs Hrest]. now constructor.
Qed.

(** [restorePlaceholders] on a text with tokens. *)
Lemma restore_marked originals : forall t,
  NoDup (map fst (parts t)) ->
  Forall (fun io => inert (snd io) = true) originals ->
  clear (restored originals t) = true ->
  restorePlaceholders (render t) (token_entries originals) = restored originals t.
Proof.
  induction originals as [|[j o] more IH]; intros [head ps] Hnd Hinert Hclear.
  - unfold restored, render. cbn [lead parts]. now rewrite restored_parts_nil.
  - inversion Hinert as [|? ? Ho Hmore]; subst. cbn [snd] in Ho.
    cbn [parts] in Hnd. unfold restored in Hclear. cbn [lead parts] in Hclear.
    destruct (restored_clear _ _ _ Hclear) as [Hhead Hps].
    unfold restorePlaceholders in *.
    change (token_entries ((j, o) :: more)) with ((token j, o) :: token_entries more).
    cbn [fold_left fst snd].
    unfold render at 1. cbn [lead parts].
    rewrite (replace_first_token j o Ho ps head Hhead Hps).
    destruct (put_parts_indices j o ps head Hnd) as [Hnd' _].
    pose proof (restored_put j o more ps head Hnd) as Hput.
    rewrite (IH (put_parts j o head ps) Hnd' Hmore); [exact Hput|].
    now rewrite Hput.
Qed.

End MarkedFacts.
(** ** Protecting, then restoring *)

Module ProtectFacts.

Import Str StrTrim Placeholders Tokens Marked.

(** *** The matches of the patterns *)

Lemma length_drop j : forall s,
  (j <= String.length s)%nat -> String.length (drop j s) = (String.length s - j)%nat.
Proof.
  induction j as [|j IH]; intros [|c s] H; simpl in *; try lia. apply IH. lia.
Qed.

Lemma get_drop j : forall s m, String.get m (drop j s) = String.get (j + m) s.
Proof.
  induction j as [|j IH]; intros [|c s] m; simpl; try reflexivity. apply IH.
Qed.

(** A match of [c*] followed by [k] is a match of [k] further on. *)
Lemma match_star_split c k : forall s n,
  match_star c k s = Some n ->
  exists j m, n = (j + m)%nat /\ (j <= String.length s)%nat /\ k (drop j s) = Some m.
Proof.
  induction s as [|a s IH]; intros n H.
  - exists 0%nat, n. now repeat split.
  - cbn [match_star] in H. destruct (cmatch c a).
    + destruct (match_star c k s) as [n'|] eqn:E.
      * injection H as <-. destruct (IH n' eq_refl) as (j & m & -> & Hj & Hk).
        exists (S j), m. repeat split; [simpl; lia|exact Hk].
      * exists 0%nat, n. repeat split; [lia|exact H].
    + exists 0%nat, n. repeat split; [lia|exact H].
Qed.

(** A match is not longer than the text. *)
Lemma match_here_length r : forall s n,
  match_here r s = Some n -> (n <= String.length s)%nat.
Proof.
  induction r as [|[c|c|c] r IH]; intros s n H; cbn [match_here] in H.
  - injection H as <-. lia.
  - destruct s as [|a s]; [discriminate|]. destruct (cmatch c a); [|discriminate].
    destruct (match_here r s) as [n'|] eqn:E; [|discriminate].
    injection H as <-. apply IH in E. simpl. lia.
  - apply match_star_split in H as (j & m & -> & Hj & Hk).
    apply IH in Hk. rewrite length_drop in Hk by assumption. lia.
  - destruct s as [|a s]; [discriminate|]. destruct (cmatch c a); [|discriminate].
    destruct (match_star c (match_here r) s) as [n'|] eqn:E; [|discriminate].
    injection H as <-. apply match_star_split in E as (j & m & -> & Hj & Hk).
    apply IH in Hk. rewrite length_drop in Hk by assumption. simpl. lia.
Qed.

(** The last code unit of a match of a pattern that ends with a
    class taken once is of that class. *)
Lemma match_here_last cl body : forall s n,
  match_here (body ++ [One cl]) s = Some n ->
  exists m c, n = S m /\ String.get m s = Some c /\ cmatch cl c = true.
Proof.
  induction body as [|[c|c|c] body IH]; intros s n H;
    cbn [app match_here] in H.
  - destruct s as [|a s]; [discriminate|]. destruct (cmatch cl a) eqn:Ha; [|discriminate].
    injection H as <-. exists 0%nat, a. now repeat split.
  - destruct s as [|a s]; [discriminate|]. destruct (cmatch c a); [|discriminate].
    destruct (match_here (body ++ [One cl]) s) as [n'|] eqn:E; [|discriminate].
    injection H as <-. destruct (IH _ _ E) as (m & ch & -> & Hget & Hch).
    exists (S m), ch. now repeat split.
  - apply match_star_split in H as (j & m & -> & Hj & Hk).
    destruct (IH _ _ Hk) as (m' & ch & -> & Hget & Hch).
    exists (j + m')%nat, ch. repeat split; [lia| |assumption].
    now rewrite <- get_drop.
  - destruct s as [|a s]; [discriminate|]. destruct (cmatch c a); [|discriminate].
    destruct (match_star c (match_here (body ++ [One cl])) s) as [n'|] eqn:E;
      [|discriminate].
    injection H as <-. apply match_star_split in E as (j & m & -> & Hj & Hk).
    destruct (IH _ _ Hk) as (m' & ch & -> & Hget & Hch).
    exists (S (j + m')), ch. repeat split; [lia| |assumption].
    simpl. now rewrite <- get_drop.
Qed.

Lemma token_unit_not c d :
  token_unit c = true -> token_unit d = false -> (c =? d)%char = false.
Proof.
  intros Hc Hd. destruct (Ascii.eqb_spec c d) as [->|]; [congruence|reflexivity].
Qed.

(** A pattern that starts with a code unit that no token has, and
    ends with a class that has none of the first code units of a
    token. *)
Lemma guarded_intro c0 body cl :
  token_unit c0 = false ->
  (forall c, token_head c = true -> cmatch cl c = false) ->
  guarded (One (Lit c0) :: body ++ [One cl]).
Proof.
  intros Hc0 Hcl. split.
  - intros c s Hc. cbn [match_here cmatch]. now rewrite (token_unit_not c c0).
  - intros s n H.
    destruct (match_here_last cl (One (Lit c0) :: body) s n H)
      as (m & c & -> & Hget & Hc).
    exists m, c. repeat split; [assumption|].
    destruct (token_head c) eqn:E; [|reflexivity]. rewrite (Hcl c E) in Hc.
    discriminate.
Qed.

Lemma lit_not_head c0 :
  token_head c0 = false -> forall c, token_head c = true -> cmatch (Lit c0) c = false.
Proof.
  intros Hc0 c Hc. cbn [cmatch].
  destruct (Ascii.eqb_spec c c0) as [->|]; [congruence|reflexivity].
Qed.

Lemma letters_not_head chars :
  occurs "_" chars = false -> occurs "P" chars = false -> occurs "H" chars = false ->
  forall c, token_head c = true -> cmatch (OneOf chars) c = false.
Proof.
  intros H1 H2 H3 c Hc. cbn [cmatch]. unfold token_head in Hc.
  apply orb_true_iff in Hc as [Hc|Hc]; [apply orb_true_iff in Hc as [Hc|Hc]|];
    apply Ascii.eqb_eq in Hc; now subst c.
Qed.

(** The six patterns are guarded. *)
Lemma patterns_guarded : Forall guarded PLACEHOLDER_PATTERNS.
Proof.
  unfold PLACEHOLDER_PATTERNS.
  repeat apply List.Forall_cons; try apply List.Forall_nil.
  - apply (guarded_intro "{" [One (Lit "{"); One Letter_; Star Word; One (Lit "}")]
             (Lit "}")); [reflexivity|now apply lit_not_head].
  - apply (guarded_intro "{" [One Letter_; Star Word] (Lit "}"));
      [reflexivity|now apply lit_not_head].
  - apply (guarded_intro "%" [Plus Digit; One (Lit "$")] (OneOf "sdfu@"));
      [reflexivity|now apply letters_not_head].
  - apply (guarded_intro "%" [] (OneOf "sdfu@"));
      [reflexivity|now apply letters_not_head].
  - apply (guarded_intro "$" [One (Lit "{"); One Letter_; Star Word] (Lit "}"));
      [reflexivity|now apply lit_not_head].
  - apply (guarded_intro "$" [One (Lit "t"); One (Lit "("); Plus (Except ")")]
             (Lit ")")); [reflexivity|now apply lit_not_head].
Qed.

(** *** The scan, step by step *)

(** To skip [n] code units is to go on after them. *)
Lemma replace_all_skip pattern : forall s n st,
  replace_all pattern s n st = replace_all pattern (drop n s) 0 st.
Proof.
  induction s as [|a s IH]; intros [|n] st; try reflexivity.
  cbn [replace_all drop]. apply IH.
Qed.

(** No match starts here: the code unit stays. *)
Lemma replace_all_pass pattern a s st :
  match_here pattern (String a s) = None ->
  replace_all pattern (String a s) 0 st
  = (String a (fst (replace_all pattern s 0 st)), snd (replace_all pattern s 0 st)).
Proof.
  intros H. cbn [replace_all]. rewrite H. unfold bind, ret.
  now destruct (replace_all pattern s 0 st).
Qed.

(** A match starts here: a token stands for it. *)
Lemma replace_all_match pattern a s st n :
  match_here pattern (String a s) = Some (S n) ->
  replace_all pattern (String a s) 0 st
  = (token (idx st)
       +:+ fst (replace_all pattern (drop n s) 0
                  (snd (replacer (take (S n) (String a s)) st))),
     snd (replace_all pattern (drop n s) 0
            (snd (replacer (take (S n) (String a s)) st)))).
Proof.
  intros H. cbn [replace_all]. rewrite H. unfold bind, ret.
  unfold replacer at 1. cbn [replacer fst snd]. fold (token (idx st)).
  rewrite (replace_all_skip pattern s n).
  now destruct (replace_all pattern (drop n s) 0 _).
Qed.

(** *** The token map grows at its end *)

Lemma numbered_length st : numbered st -> length (placeholders st) = idx st.
Proof.
  unfold numbered, tokens. intros H.
  rewrite <- (length_map fst), H. now rewrite length_map, length_seq.
Qed.

Lemma replacer_placeholders matched st :
  numbered st ->
  placeholders (snd (replacer matched st))
  = placeholders st ++ [(token (idx st), matched)]
  /\ idx (snd (replacer matched st)) = S (idx st).
Proof.
  intros H. cbn [replacer snd placeholders idx]. split; [|reflexivity].
  fold (token (idx st)). apply TokensFacts.map_set_fresh.
  rewrite H. apply TokensFacts.tokens_fresh.
Qed.

Lemma replace_all_extends pattern : forall s n st,
  numbered st ->
  placeholders st `prefix_of` placeholders (snd (replace_all pattern s n st)).
Proof.
  induction s as [|a s IH]; intros n st H; [reflexivity|].
  destruct n as [|n]; [|cbn [replace_all]; now apply IH].
  destruct (match_here pattern (String a s)) as [[|m]|] eqn:E.
  - cbn [replace_all]. rewrite E. unfold bind, ret.
    specialize (IH 0%nat st H). now destruct (replace_all pattern s 0 st).
  - rewrite (replace_all_match _ _ _ _ _ E). cbn [snd].
    rewrite <- (replace_all_skip pattern s m).
    destruct (replacer_placeholders (take (S m) (String a s)) st H) as [Hp _].
    etransitivity; [|apply IH; now apply TokensFacts.replacer_numbered].
    rewrite Hp. now apply prefix_app_r.
  - rewrite (replace_all_pass _ _ _ _ E). cbn [snd]. now apply IH.
Qed.

Lemma extends_idx st st' :
  numbered st -> numbered st' ->
  placeholders st `prefix_of` placeholders st' -> (idx st <= idx st')%nat.
Proof.
  intros H H' Hpre. rewrite <- (numbered_length st H), <- (numbered_length st' H').
  now apply prefix_length.
Qed.

(** *** The originals by their numbers *)

Lemma find_indexed (F : token_map) : forall off k e,
  F !! k = Some e ->
  List.find (fun io : nat * string => (fst io =? off + k)%nat)
    (imap (fun i entry => ((off + i)%nat, snd entry)) F)
  = Some ((off + k)%nat, snd e).
Proof.
  induction F as [|x F IH]; intros off k e H; [discriminate|].
  cbn [imap List.find fst]. destruct k as [|k].
  - injection H as ->. now rewrite Nat.eqb_refl.
  - rewrite Nat.add_0_r.
    destruct (Nat.eqb_spec off (off + S k)) as [Heq|_]; [lia|].
    rewrite (imap_ext _ (fun i entry => ((S off + i)%nat, snd entry)))
      by (intros; cbn; f_equal; lia).
    replace (off + S k)%nat with (S off + k)%nat by lia.
    now apply IH.
Qed.

Lemma original_indexed (F : token_map) k e :
  F !! k = Some e -> original (indexed F) k = Some (snd e).
Proof.
  intros H. unfold original, indexed.
  pose proof (find_indexed F 0 k e H) as Hfind. cbn [Nat.add] in Hfind.
  now rewrite Hfind.
Qed.

Lemma entries_indexed (F : token_map) : forall off,
  map fst F = map token (seq off (length F)) ->
  map (fun io : nat * string => (token (fst io), snd io))
    (imap (fun i entry => ((off + i)%nat, snd entry)) F)
  = F.
Proof.
  induction F as [|[k v] F IH]; intros off H; [reflexivity|].
  cbn [length seq map fst] in H. injection H as -> H.
  cbn [imap map fst snd]. rewrite Nat.add_0_r. f_equal.
  rewrite (imap_ext _ (fun i entry => ((S off + i)%nat, snd entry)))
    by (intros; cbn; f_equal; lia).
  now apply IH.
Qed.

Lemma token_entries_indexed (F : token_map) :
  map fst F = tokens (length F) -> token_entries (indexed F) = F.
Proof. intros H. apply (entries_indexed F 0). exact H. Qed.

(** *** A match does not reach into a token *)

Lemma get_append_more u : forall e v,
  String.get (String.length u + e) (u +:+ v) = String.get e v.
Proof. induction u as [|c u IH]; intros e v; simpl; [reflexivity|apply IH]. Qed.

Lemma take_append_le u : forall k v,
  (k <= String.length u)%nat -> take k (u +:+ v) = take k u.
Proof.
  induction u as [|c u IH]; intros [|k] v H; simpl in *; try reflexivity; try lia.
  f_equal. apply IH. lia.
Qed.

Lemma length_drop_le k : forall s, (String.length (drop k s) <= String.length s)%nat.
Proof.
  induction k as [|k IH]; intros [|c s]; simpl; try lia. specialize (IH s). lia.
Qed.

(** A guarded pattern whose match is clear matches within the text
    before the token. *)
Lemma match_within pattern head rest m :
  guarded pattern -> ends_or_token rest ->
  match_here pattern (head +:+ rest) = Some (S m) ->
  clear (take (S m) (head +:+ rest)) = true ->
  (S m <= String.length head)%nat.
Proof.
  intros [_ Hlast] Hrest Hm Hclear.
  destruct (Nat.le_gt_cases (S m) (String.length head)) as [|Hgt]; [assumption|].
  exfalso. pose proof (match_here_length _ _ _ Hm) as Hlen.
  rewrite TokensFacts.append_length in Hlen.
  destruct Hrest as [->|(i & Z & ->)]; [simpl in Hlen; lia|].
  destruct (Hlast _ _ Hm) as (m' & c & Hm' & Hget & Hc). injection Hm' as <-.
  assert (Hsplit : exists e, m = (String.length head + e)%nat)
    by (exists (m - String.length head)%nat; lia).
  destruct Hsplit as [e ->].
  rewrite get_append_more, MarkedFacts.token_form in Hget.
  destruct e as [|[|[|[|e]]]]; simpl in Hget;
    try (injection Hget as <-; discriminate).
  replace (S (String.length head + S (S (S (S e)))))
    with (String.length head + S (S (S (S (S e)))))%nat in Hclear by lia.
  rewrite MarkedFacts.take_append in Hclear.
  apply MarkedFacts.clear_app_r in Hclear.
  destruct (MarkedFacts.token_digit i) as (c0 & d & Hi & Hc0).
  rewrite MarkedFacts.token_form, Hi in Hclear. simpl in Hclear. rewrite Hc0 in Hclear.
  discriminate.
Qed.

(** *** The scan of the text between two tokens *)

Lemma scan_literal pattern (F : token_map) :
  guarded pattern -> Forall (fun entry => clear (snd entry) = true) F ->
  forall n head, (String.length head <= n)%nat ->
  forall st rest,
    numbered st -> ends_or_token rest ->
    placeholders (snd (replace_all pattern (head +:+ rest) 0 st)) `prefix_of` F ->
    exists th st1,
      replace_all pattern (head +:+ rest) 0 st
      = (render th +:+ fst (replace_all pattern rest 0 st1),
         snd (replace_all pattern rest 0 st1))
      /\ numbered st1
      /\ (idx st <= idx st1)%nat
      /\ restored (indexed F) th = head
      /\ Forall (fun i => (idx st <= i < idx st1)%nat) (map fst (parts th))
      /\ NoDup (map fst (parts th)).
Proof.
  intros Hg HF.
  assert (Hbase : forall st rest, numbered st ->
            exists th st1,
              replace_all pattern ("" +:+ rest) 0 st
              = (render th +:+ fst (replace_all pattern rest 0 st1),
                 snd (replace_all pattern rest 0 st1))
              /\ numbered st1
              /\ (idx st <= idx st1)%nat
              /\ restored (indexed F) th = ""
              /\ Forall (fun i => (idx st <= i < idx st1)%nat) (map fst (parts th))
              /\ NoDup (map fst (parts th))).
  { intros st rest Hst. exists (Mark "" []), st.
    repeat split; auto; try apply NoDup_nil_2; try (now constructor).
    simpl. now destruct (replace_all pattern rest 0 st). }
  induction n as [|n IH]; intros head Hn st rest Hst Hrest Hpre.
  { destruct head; [now apply Hbase|simpl in Hn; lia]. }
  destruct head as [|c h]; [now apply Hbase|]. simpl in Hn.
  change (String c h +:+ rest) with (String c (h +:+ rest)) in *.
  destruct (match_here pattern (String c (h +:+ rest))) as [[|m]|] eqn:E.
  - destruct Hg as [_ Hlast]. destruct (Hlast _ _ E) as (m' & ? & Hm & _).
    discriminate.
  - rewrite (replace_all_match _ _ _ _ _ E) in Hpre |- *. cbn [snd] in Hpre.
    pose proof (TokensFacts.replacer_numbered
                  (take (S m) (String c (h +:+ rest))) st Hst) as Hst_a.
    destruct (replacer_placeholders (take (S m) (String c (h +:+ rest))) st Hst)
      as [Hp Hidx].
    assert (HFk : F !! idx st
                  = Some (token (idx st), take (S m) (String c (h +:+ rest)))).
    { pose proof (replace_all_extends pattern (drop m (h +:+ rest)) 0 _ Hst_a)
        as [k1 Hk1].
      destruct Hpre as [k2 Hk2]. rewrite Hk2, Hk1, Hp, <- !app_assoc.
      rewrite lookup_app_r by (rewrite numbered_length by assumption; lia).
      rewrite numbered_length by assumption. now rewrite Nat.sub_diag. }
    assert (Hclear : clear (take (S m) (String c (h +:+ rest))) = true).
    { rewrite Forall_forall in HF.
      apply (HF (token (idx st), take (S m) (String c (h +:+ rest)))).
      eapply list_elem_of_lookup_2. exact HFk. }
    assert (Hin : (S m <= String.length (String c h))%nat)
      by (apply (match_within pattern (String c h) rest m Hg Hrest E Hclear)).
    simpl in Hin.
    rewrite MarkedFacts.drop_append in Hpre |- * by lia.
    destruct (IH (drop m h) ltac:(pose proof (length_drop_le m h); lia)
                 _ rest Hst_a Hrest Hpre)
      as (th & st1 & Heq & Hst1 & Hle & Hres & Hrange & Hnd).
    exists (Mark "" ((idx st, lead th) :: parts th)), st1.
    rewrite Heq. cbn [fst snd]. rewrite Hidx in Hle, Hrange.
    repeat split.
    + unfold render. cbn [lead parts render_parts]. simpl.
      now rewrite !MarkedFacts.append_assoc.
    + assumption.
    + lia.
    + unfold restored in *. cbn [lead parts restored_parts].
      rewrite (original_indexed F _ _ HFk). cbn [snd default]. rewrite Hres.
      cbn [take]. rewrite take_append_le by lia. simpl. f_equal.
      apply StrFacts.take_drop.
    + cbn [map fst parts]. constructor; [lia|].
      eapply Forall_impl; [exact Hrange|]. intros i Hi. simpl in Hi. lia.
    + cbn [map fst parts]. apply NoDup_cons. split; [|assumption].
      intros Hin'. rewrite Forall_forall in Hrange. apply Hrange in Hin'. lia.
  - rewrite (replace_all_pass _ _ _ _ E) in Hpre |- *. cbn [snd] in Hpre.
    destruct (IH h ltac:(lia) st rest Hst Hrest Hpre)
      as (th & st1 & Heq & Hst1 & Hle & Hres & Hrange & Hnd).
    exists (Mark (String c (lead th)) (parts th)), st1.
    rewrite Heq. cbn [fst snd]. repeat split; try assumption.
    unfold restored in *. cbn [lead parts]. simpl. now rewrite Hres.
Qed.

(** *** The scan of a token *)

Lemma all_app p u : forall v, all p (u +:+ v) = all p u && all p v.
Proof.
  induction u as [|c u IH]; intros v; simpl; [reflexivity|].
  now rewrite IH, andb_assoc.
Qed.

Lemma all_impl (p q : ascii -> bool) s :
  (forall c, p c = true -> q c = true) -> all p s = true -> all q s = true.
Proof.
  intros Hpq. induction s as [|c s IH]; simpl; [reflexivity|].
  intros H. apply andb_true_iff in H as [Hc Hs]. now rewrite (Hpq c Hc), IH.
Qed.

Lemma token_units i : all token_unit (token i) = true.
Proof.
  rewrite MarkedFacts.token_form. cbn [all]. rewrite all_app.
  rewrite (all_impl is_digit token_unit (of_nat i)).
  - reflexivity.
  - intros c Hc. unfold token_unit. rewrite Hc. now rewrite !orb_true_r.
  - apply MarkedFacts.of_nat_digits.
Qed.

(** No match starts within a token: a token is scanned as it is. *)
Lemma scan_units pattern (Hg : guarded pattern) Z : forall u st,
  all token_unit u = true ->
  replace_all pattern (u +:+ Z) 0 st
  = (u +:+ fst (replace_all pattern Z 0 st), snd (replace_all pattern Z 0 st)).
Proof.
  induction u as [|c u IH]; intros st Hu.
  - simpl. now destruct (replace_all pattern Z 0 st).
  - cbn [all] in Hu. apply andb_true_iff in Hu as [Hc Hu].
    change (String c u +:+ Z) with (String c (u +:+ Z)).
    rewrite replace_all_pass by (now apply Hg). now rewrite (IH st Hu).
Qed.

(** *** The scan of a text with tokens *)

Lemma render_parts_app a : forall b,
  render_parts (a ++ b) = render_parts a +:+ render_parts b.
Proof.
  induction a as [|[i s] a IH]; intros b; [reflexivity|].
  cbn [app render_parts]. now rewrite IH, !MarkedFacts.append_assoc.
Qed.

Lemma restored_parts_app originals a : forall b,
  restored_parts originals (a ++ b)
  = restored_parts originals a +:+ restored_parts originals b.
Proof.
  induction a as [|[i s] a IH]; intros b; [reflexivity|].
  cbn [app restored_parts]. now rewrite IH, !MarkedFacts.append_assoc.
Qed.

Lemma scan_parts pattern (F : token_map) (Hg : guarded pattern)
    (HF : Forall (fun entry => clear (snd entry) = true) F) :
  forall ps head st,
    numbered st ->
    placeholders (snd (replace_all pattern (head +:+ render_parts ps) 0 st))
      `prefix_of` F ->
    Forall (fun i => (i < idx st)%nat) (map fst ps) ->
    NoDup (map fst ps) ->
    exists t',
      fst (replace_all pattern (head +:+ render_parts ps) 0 st) = render t'
      /\ restored (indexed F) t' = head +:+ restored_parts (indexed F) ps
      /\ Forall
           (fun i =>
              In i (map fst ps)
              \/ (idx st <= i
                  < idx (snd (replace_all pattern (head +:+ render_parts ps) 0 st)))%nat)
           (map fst (parts t'))
      /\ NoDup (map fst (parts t')).
Proof.
  induction ps as [|[i s] rest IH]; intros head st Hst Hpre Hold Hnd.
  - cbn [render_parts] in *.
    destruct (scan_literal pattern F Hg HF (String.length head) head (le_n _)
                st "" Hst (or_introl eq_refl) Hpre)
      as (th & st1 & Heq & Hst1 & Hle & Hres & Hrange & Hndth).
    rewrite Heq. cbn [replace_all ret fst snd]. exists th.
    rewrite !MarkedFacts.append_nil_r. repeat split; try assumption.
    eapply Forall_impl; [exact Hrange|]. intros k Hk. now right.
  - cbn [render_parts] in *. cbn [map fst] in Hold, Hnd.
    inversion Hold as [|? ? Hi Hold']; subst.
    apply NoDup_cons in Hnd as [Hfresh Hnd'].
    assert (Hrest : ends_or_token (token i +:+ (s +:+ render_parts rest)))
      by (right; eauto).
    destruct (scan_literal pattern F Hg HF (String.length head) head (le_n _)
                st _ Hst Hrest Hpre)
      as (th & st1 & Heq & Hst1 & Hle & Hres & Hrange & Hndth).
    rewrite Heq in Hpre |- *. cbn [fst snd] in Hpre |- *.
    rewrite (scan_units pattern Hg _ (token i) st1 (token_units i)) in Hpre |- *.
    cbn [fst snd] in Hpre |- *.
    destruct (IH s st1 Hst1 Hpre) as (t2 & Hrender & Hres2 & Hrange2 & Hnd2).
    { eapply Forall_impl; [exact Hold'|]. intros k Hk. simpl in Hk. lia. }
    { exact Hnd'. }
    pose proof (extends_idx st1 _ Hst1
                  (TokensFacts.replace_all_numbered pattern
                     (s +:+ render_parts rest) 0 st1 Hst1)
                  (replace_all_extends pattern (s +:+ render_parts rest) 0 st1 Hst1))
      as Hle2.
    exists (Mark (lead th) (parts th ++ (i, lead t2) :: parts t2)).
    rewrite Hrender. rewrite Forall_forall in Hrange, Hrange2.
    repeat split.
    + unfold render. cbn [lead parts]. rewrite render_parts_app.
      cbn [render_parts]. now rewrite !MarkedFacts.append_assoc.
    + unfold restored in *. cbn [lead parts]. rewrite restored_parts_app.
      cbn [restored_parts]. rewrite <- Hres, <- Hres2.
      now rewrite !MarkedFacts.append_assoc.
    + cbn [parts]. rewrite map_app. cbn [map fst]. apply Forall_forall.
      intros k Hk. apply list_elem_of_In in Hk. apply in_app_or in Hk as [Hk|[<-|Hk]].
      * right. apply list_elem_of_In, Hrange in Hk. lia.
      * left. now left.
      * apply list_elem_of_In, Hrange2 in Hk. destruct Hk as [Hk|Hk].
        -- left. now right.
        -- right. lia.
    + cbn [parts]. rewrite map_app. cbn [map fst]. apply NoDup_app. repeat split.
      * assumption.
      * intros k Hk Hk'. apply Hrange in Hk.
        apply list_elem_of_In in Hk'. destruct Hk' as [<-|Hk']; [lia|].
        apply list_elem_of_In, Hrange2 in Hk'. destruct Hk' as [Hk'|Hk']; [|lia].
        rewrite Forall_forall in Hold'. apply list_elem_of_In, Hold' in Hk'. lia.
      * apply NoDup_cons. split; [|assumption]. intros Hk.
        apply Hrange2 in Hk. destruct Hk as [Hk|Hk]; [|lia].
        apply Hfresh. now apply list_elem_of_In.
Qed.

(** *** The six scans *)

Abbreviation scans :=
  (fold_left (fun acc pattern => replace_all pattern (fst acc) 0 (snd acc))).

Lemma scans_extends patterns : forall r st,
  numbered st ->
  numbered (snd (scans patterns (r, st)))
  /\ placeholders st `prefix_of` placeholders (snd (scans patterns (r, st))).
Proof.
  induction patterns as [|pattern patterns IH]; intros r st Hst; [now split|].
  cbn [fold_left fst snd].
  pose proof (TokensFacts.replace_all_numbered pattern r 0 st Hst) as Hst1.
  pose proof (replace_all_extends pattern r 0 st Hst) as Hext.
  destruct (replace_all pattern r 0 st) as [r1 st1]. cbn [snd] in *.
  destruct (IH r1 st1 Hst1) as [Hn Hpre]. split; [assumption|].
  now transitivity (placeholders st1).
Qed.

Lemma scan_patterns (F : token_map)
    (HF : Forall (fun entry => clear (snd entry) = true) F) :
  forall patterns, Forall guarded patterns ->
  forall t st,
    numbered st ->
    Forall (fun i => (i < idx st)%nat) (map fst (parts t)) ->
    NoDup (map fst (parts t)) ->
    placeholders (snd (scans patterns (render t, st))) `prefix_of` F ->
    exists t',
      fst (scans patterns (render t, st)) = render t'
      /\ restored (indexed F) t' = restored (indexed F) t
      /\ NoDup (map fst (parts t')).
Proof.
  induction patterns as [|pattern patterns IH]; intros Hg t st Hst Hold Hnd Hpre.
  - exists t. now repeat split.
  - inversion Hg as [|? ? Hp Hps]; subst. cbn [fold_left fst snd] in Hpre |- *.
    pose proof (TokensFacts.replace_all_numbered pattern (render t) 0 st Hst) as Hst1.
    pose proof (extends_idx st _ Hst Hst1 (replace_all_extends pattern _ 0 st Hst))
      as Hle.
    destruct (replace_all pattern (render t) 0 st) as [r1 st1] eqn:E.
    cbn [snd] in Hst1, Hle.
    destruct (scans_extends patterns r1 st1 Hst1) as [_ Hext].
    destruct (scan_parts pattern F Hp HF (parts t) (lead t) st Hst)
      as (t1 & Hrender & Hres & Hrange & Hnd1); try assumption.
    { fold (render t). rewrite E. cbn [snd]. now transitivity
        (placeholders (snd (scans patterns (r1, st1)))). }
    fold (render t) in Hrender, Hrange. rewrite E in Hrender, Hrange.
    cbn [fst snd] in Hrender, Hrange. subst r1.
    destruct (IH Hps t1 st1 Hst1) as (t' & Hrender' & Hres' & Hnd'); try assumption.
    { rewrite Forall_forall in Hrange, Hold. apply Forall_forall. intros k Hk.
      destruct (Hrange k Hk) as [Hin|Hin]; [|lia].
      apply list_elem_of_In, Hold in Hin. lia. }
    exists t'. repeat split; try assumption.
    rewrite Hres', Hres. reflexivity.
Qed.

(** *** The round trip *)

Lemma protect_restore input :
  clear input = true ->
  Forall (fun entry => clear (snd entry) = true /\ inert (snd entry) = true)
    (protected_map (protectPlaceholders input)) ->
  restorePlaceholders (text (protectPlaceholders input))
    (protected_map (protectPlaceholders input))
  = input.
Proof.
  unfold protectPlaceholders. intros Hclear Hall.
  destruct (scans_extends PLACEHOLDER_PATTERNS input (Scan 0 []) eq_refl)
    as [Hfinal _].
  pose proof (fun F HF => scan_patterns F HF PLACEHOLDER_PATTERNS patterns_guarded
                            (Mark input []) (Scan 0 []) eq_refl) as Hscan.
  unfold render in Hscan. cbn [lead parts render_parts map fst idx] in Hscan.
  rewrite MarkedFacts.append_nil_r in Hscan.
  destruct (scans PLACEHOLDER_PATTERNS (input, Scan 0 [])) as [result st].
  cbn [text protected_map fst snd] in *.
  destruct (Hscan (placeholders st)) as (t & Hrender & Hres & Hnd).
  - eapply Forall_impl; [exact Hall|]. now intros entry [H _].
  - constructor.
  - apply NoDup_nil_2.
  - reflexivity.
  - unfold restored at 2 in Hres. cbn [lead parts restored_parts] in Hres.
    rewrite MarkedFacts.append_nil_r in Hres.
    rewrite Hrender.
    change (lead t +:+ render_parts (parts t)) with (render t).
    rewrite <- (token_entries_indexed (placeholders st)) at 1
      by (rewrite numbered_length by assumption; exact Hfinal).
    rewrite MarkedFacts.restore_marked; [exact Hres|assumption| |now rewrite Hres].
    unfold indexed. apply Forall_forall. intros io Hio.
    apply list_elem_of_lookup in Hio as [k Hk]. rewrite list_lookup_imap in Hk.
    destruct (placeholders st !! k) as [entry|] eqn:Hentry; [|discriminate].
    cbn in Hk. injection Hk as <-. cbn [snd].
    rewrite Forall_forall in Hall. apply (Hall entry).
    eapply list_elem_of_lookup_2. exact Hentry.
Qed.

End ProtectFacts.
(** * Part III: the properties of the specification *)

Module Claims.

(** ** Placeholder guard *)

Section PlaceholderGuard.

Import Placeholders.

(** C1. The specification has
    [restorePlaceholders (protectPlaceholders x).text
       (protectPlaceholders x).placeholders = x]
    for every input. The input [$t($$)] is one placeholder of the
    sixth grammar; it is protected as [__PH0__], and restored as
    [$t($)]: the original is handed to [replace] as a replacement
    string, in which [$$] stands for one dollar. The input
    [__PH0__ {a}] has one placeholder of the second grammar, whose
    token is the text that precedes it; the first occurrence of the
    token is the one restored. *)
Theorem protect_restore_fails :
  (protectPlaceholders "$t($$)" = Protected "__PH0__" [("__PH0__", "$t($$)")]
   /\ restorePlaceholders (text (protectPlaceholders "$t($$)"))
                          (protected_map (protectPlaceholders "$t($$)"))
      = "$t($)")
  /\ (protectPlaceholders "__PH0__ {a}"
      = Protected "__PH0__ __PH0__" [("__PH0__", "{a}")]
      /\ restorePlaceholders (text (protectPlaceholders "__PH0__ {a}"))
                             (protected_map (protectPlaceholders "__PH0__ {a}"))
         = "{a} __PH0__").
Proof. repeat split; reflexivity. Qed.

(** C7. The specification has every occurrence of every token
    replaced by its recorded original, also when the translation
    duplicated a token. Of a token that occurs twice, the first
    occurrence is replaced and the second stays in the text; and an
    original with [$&] in it is not what replaces its token. *)
Theorem restore_fails :
  restorePlaceholders "__PH0__ and __PH0__" [("__PH0__", "{name}")]
  = "{name} and __PH0__"
  /\ restorePlaceholders "<__PH0__>" [("__PH0__", "$t($&)")]
     = "<$t(__PH0__)>".
Proof. split; reflexivity. Qed.

End PlaceholderGuard.

(** ** Markdown documents *)

Section MarkdownDocuments.

Import Str Markdown Fixtures.

(** C2, as stated, fails: white space before the opening delimiter is
    in neither part. *)
Lemma split_assemble_counterexample :
  assembleMarkdown (frontmatter (splitMarkdown indented_document))
                   (body (splitMarkdown indented_document))
  <> indented_document.
Proof. vm_compute. discriminate. Qed.

(** C2, amended. Reassembling the two parts gives the content back
    when no frontmatter is recognised, and the content without its
    leading white space when frontmatter is recognised; the two parts
    are then the two sides of a cut of the trimmed content. *)
Theorem split_assemble (content : string) :
  let file := splitMarkdown content in
  assembleMarkdown (frontmatter file) (body file)
  = match frontmatter file with
    | Some _ => trimStart content
    | None => content
    end
  /\ match frontmatter file with
     | Some fm => fm +:+ body file = trimStart content
     | None => body file = content
     end.
Proof.
  intros file. subst file. split; [apply MarkdownFacts.assemble_split|].
  destruct (frontmatter (splitMarkdown content)) as [fm|] eqn:E.
  - now destruct (MarkdownFacts.split_cut _ _ E).
  - now apply MarkdownFacts.split_without_frontmatter.
Qed.

End MarkdownDocuments.

(** ** Hierarchical documents *)

Section HierarchicalDocuments.

Import Json JsonSpec Fixtures.

(** C3, as stated, fails: a property name with a dot is read back as
    a path. *)
Lemma unflatten_flatten_counterexample :
  string_leaved (JObj dotted_name_document) = true
  /\ unflattenJson (flattenJson dotted_name_document "")
     = [("a", JObj [("b", JStr "x")])]
  /\ unflattenJson (flattenJson dotted_name_document "") <> dotted_name_document.
Proof. repeat split. discriminate. Qed.

(** C3, amended. A document of strings and non-empty nested objects
    whose property names are non-empty, have no dot and are not
    [__proto__] is what its flattening unflattens to. *)
Theorem unflatten_flatten_plain (d : object) :
  plain_doc d = true -> unflattenJson (flattenJson d "") = d.
Proof. apply JsonFacts.unflatten_flatten. Qed.

Lemma unflatten_flatten_plain_witness :
  plain_doc settings_document = true
  /\ unflattenJson (flattenJson settings_document "") = settings_document.
Proof.
  split; [reflexivity|].
  apply (unflatten_flatten_plain settings_document). reflexivity.
Defined.

(** C5. Without an existing target the diff is the list of source
    entries; with one, it is the list of the source entries, in their
    order, whose key is not a key of the flattened target. The values
    play no part, and the diff of a diff is the diff. *)
Theorem computeDiff_spec (sourceEntries : list FlatEntry) :
  computeDiff sourceEntries None = sourceEntries
  /\ forall target,
       computeDiff sourceEntries (Some target)
       = List.filter
           (fun e => negb (existsb (String.eqb (key e))
                                   (map key (flattenJson target ""))))
           sourceEntries
       /\ computeDiff (computeDiff sourceEntries (Some target)) (Some target)
          = computeDiff sourceEntries (Some target).
Proof.
  split; [reflexivity|]. intros target.
  rewrite !JsonFacts.computeDiff_filter. split; [reflexivity|].
  induction sourceEntries as [|e src IH]; simpl; [reflexivity|].
  destruct (negb _) eqn:E; simpl; [|assumption].
  now rewrite E, IH.
Qed.

(** C6, as stated, fails. The entries [a] and [a.b] are the
    flattening of a document with a dotted name: the merge walks the
    second key as a path, so that the object it makes at [a] takes
    the place of the value of the first entry, and the merged
    document has no value at the source key [a]. The entries [b] and
    [1] come out in the order [1], [b], in which an object enumerates
    these names. *)
Lemma mergeTranslations_counterexample :
  (well_formed (JObj prefix_document) = true
   /\ flattenJson prefix_document "" = [Entry "a" "x"; Entry "a.b" "y"]
   /\ mergeTranslations (flattenJson prefix_document "") ∅ None
      = [("a", JObj [("b", JStr "y")])]
   /\ merged_value ∅ None "a" "x" = "x"
   /\ flat_lookup
        (flattenJson (mergeTranslations (flattenJson prefix_document "") ∅ None) "")
        "a"
      = None)
  /\ (mergeTranslations [Entry "b" "x"; Entry "1" "y"] ∅ None
      = [("1", JStr "y"); ("b", JStr "x")]
      /\ map key
           (flattenJson (mergeTranslations [Entry "b" "x"; Entry "1" "y"] ∅ None) "")
         <> map key [Entry "b" "x"; Entry "1" "y"]).
Proof. repeat split. discriminate. Qed.

(** C6, amended. When the source entries are the flattening of a
    source document whose property names, at every level, are not
    empty, have no dot, are not [__proto__], differ within each
    object and stand in the order in which the object enumerates
    them, then, whatever the translated map and the existing target
    are: the merge is what flattening keeps of the source document,
    with each string replaced by its merged value, that is the
    translated value if the key has one, otherwise the value of the
    existing target if the key has one there, otherwise the source
    value; flattened, the merge has the keys of the source entries in
    their order, and at the key of each source entry its merged
    value. *)
Theorem mergeTranslations_spec (source : object) (sourceEntries : list FlatEntry)
    (translated : gmap string string) (existingTarget : option object) :
  named_doc source = true ->
  sourceEntries = flattenJson source "" ->
  let merged := mergeTranslations sourceEntries translated existingTarget in
  merged = relabel_doc (merged_value translated existingTarget) (prune_doc source)
  /\ flattenJson merged "" = map (merged_entry translated existingTarget) sourceEntries
  /\ map key (flattenJson merged "") = map key sourceEntries
  /\ (forall e, In e sourceEntries ->
        flat_lookup (flattenJson merged "") (key e)
        = Some (merged_value translated existingTarget (key e) (value e))).
Proof.
  intros Hnamed -> merged.
  assert (Hdoc : merged
                 = relabel_doc (merged_value translated existingTarget)
                               (prune_doc source)).
  { unfold merged. rewrite JsonFacts.merge_unflatten.
    exact (JsonFacts.unflatten_relabelled_named _ source Hnamed). }
  assert (Hflat : flattenJson merged ""
                  = map (merged_entry translated existingTarget)
                        (flattenJson source "")).
  { rewrite Hdoc, <- (JsonFacts.flatten_prune source).
    exact (JsonFacts.flatten_relabel _ (prune_doc source)). }
  assert (Hkeys : map key (flattenJson merged "") = map key (flattenJson source "")).
  { rewrite Hflat, map_map. reflexivity. }
  repeat split; try assumption.
  intros e Hin.
  change (key e) with (key (merged_entry translated existingTarget e)) at 1.
  change (merged_value translated existingTarget (key e) (value e))
    with (value (merged_entry translated existingTarget e)).
  apply PipelineFacts.flat_lookup_NoDup.
  - rewrite Hkeys. now apply PipelineFacts.named_keys_NoDup.
  - rewrite Hflat. now apply in_map.
Qed.

Lemma mergeTranslations_spec_witness :
  named_doc abc_document = true
  /\ mergeTranslations (flattenJson abc_document "") {["c" := "Nouveau"]}
       (Some [("b", JStr "Monde"); ("a", JStr "Bonjour")])
     = [("a", JStr "Bonjour"); ("b", JStr "Monde"); ("c", JStr "Nouveau")].
Proof.
  split; [reflexivity|].
  refine (eq_trans
            (proj1 (mergeTranslations_spec abc_document (flattenJson abc_document "")
                      {["c" := "Nouveau"]}
                      (Some [("b", JStr "Monde"); ("a", JStr "Bonjour")]) _ _))
            _).
  - reflexivity.
  - reflexivity.
  - vm_compute. reflexivity.
Defined.

(** C9, as stated, fails: a name with a dot and a path give the same
    key. *)
Lemma flatten_keys_counterexample :
  well_formed (JObj ambiguous_document) = true
  /\ map key (flattenJson ambiguous_document "") = ["a.b"; "a.b"]
  /\ ~ NoDup (map key (flattenJson ambiguous_document "")).
Proof.
  repeat split. intros H. apply NoDup_cons in H as [H _].
  apply H. now left.
Qed.

(** C9, amended. The entries of a flattening are the string leaves of
    the document, in depth-first order with the properties of each
    object in their order, each under the dotted key of its path; no
    two entries have the same key when the property names are
    non-empty, have no dot, and differ within each object. *)
Theorem flattenJson_string_leaves (d : object) :
  flattenJson d ""
  = map (fun leaf => Entry (dotted "" (fst leaf)) (snd leaf)) (leaves (JObj d))
  /\ (unambiguous (JObj d) = true -> NoDup (map key (flattenJson d ""))).
Proof.
  split; [apply JsonFacts.flattenJson_leaves|apply JsonFacts.flatten_keys_NoDup].
Qed.

Lemma flattenJson_string_leaves_witness :
  unambiguous (JObj settings_document) = true
  /\ NoDup (map key (flattenJson settings_document "")).
Proof.
  split; [reflexivity|].
  apply (flattenJson_string_leaves settings_document). reflexivity.
Defined.

End HierarchicalDocuments.

(** ** Batch scheduler *)

Section BatchScheduler.

Import Batch.

(** C4. With [maxItems >= 1] and [maxChars >= 1]: no batch has more
    than [maxItems] strings; the lengths of the strings of a batch of
    two or more sum to at most [maxChars]; a string longer than
    [maxChars] is alone in its batch, and every such string of the
    input has its batch; the batches, concatenated, are the input. *)
Theorem batchStrings_postconditions (strings : list string)
    (maxItems maxChars : Z) :
  1 <= maxItems -> 1 <= maxChars ->
  let result := batchStrings strings maxItems maxChars in
  Forall (fun b => Z.of_nat (length b) <= maxItems) result
  /\ Forall (fun b => (2 <= length b)%nat -> total_length b <= maxChars) result
  /\ (forall b s, In b result -> In s b -> maxChars < Str.len s -> b = [s])
  /\ (forall s, In s strings -> maxChars < Str.len s -> In [s] result)
  /\ concat result = strings.
Proof.
  intros Hitems _ result.
  destruct (BatchFacts.batchStrings_good maxItems maxChars Hitems strings)
    as [Hgood Hconcat].
  fold result in Hgood, Hconcat. rewrite Forall_forall in Hgood.
  assert (Halone : forall b s, In b result -> In s b ->
                               maxChars < Str.len s -> b = [s]).
  { intros b s Hb. apply list_elem_of_In in Hb.
    apply (BatchSpec.good_alone _ _ _ (Hgood b Hb)). }
  repeat split.
  - apply Forall_forall. intros b Hb. apply (Hgood b Hb).
  - apply Forall_forall. intros b Hb Hlen.
    rewrite <- BatchFacts.countCharacters_total.
    now apply (BatchSpec.good_chars _ _ _ (Hgood b Hb)).
  - assumption.
  - intros s Hin Hlong. rewrite <- Hconcat in Hin.
    apply in_concat in Hin as [b [Hb Hs]].
    now rewrite <- (Halone b s Hb Hs Hlong).
  - assumption.
Qed.

Lemma batchStrings_postconditions_witness :
  1 <= 50 /\ 1 <= 8
  /\ concat (batchStrings ["hello"; "world"; "foo"] 50 8)
     = ["hello"; "world"; "foo"].
Proof.
  split; [lia|]. split; [lia|].
  apply (batchStrings_postconditions ["hello"; "world"; "foo"] 50 8); lia.
Defined.

(** C10. With [maxItems >= 1] and [maxChars >= 0] no batch is
    empty. *)
Theorem batchStrings_nonempty (strings : list string) (maxItems maxChars : Z) :
  1 <= maxItems -> 0 <= maxChars ->
  Forall (fun b => b <> []) (batchStrings strings maxItems maxChars).
Proof.
  intros Hitems _.
  destruct (BatchFacts.batchStrings_good maxItems maxChars Hitems strings)
    as [Hgood _].
  eapply Forall_impl; [exact Hgood|].
  intros b Hb. apply (BatchSpec.good_nonempty _ _ _ Hb).
Qed.

Lemma batchStrings_nonempty_witness :
  1 <= 1 /\ 0 <= 0
  /\ Forall (fun b => b <> []) (batchStrings [""; "a"; ""] 1 0).
Proof.
  split; [lia|]. split; [lia|].
  apply (batchStrings_nonempty [""; "a"; ""] 1 0); lia.
Defined.

End BatchScheduler.

(** ** Translation client *)

Section TranslationClient.

Import Client ClientSpec Fixtures.

(** C8, as stated, fails: 501 is a status of the 5xx class, and is
    not retried. *)
Lemma retry_5xx_counterexample :
  (forall attempt, transient_by_class (always_501 attempt) = true)
  /\ postWithRetry MAX_RETRIES always_501
     = (Throws "Langbly API error (501): Not Implemented", [Fetch 0])
  /\ requests (snd (postWithRetry MAX_RETRIES always_501)) <> S MAX_RETRIES.
Proof. repeat split. discriminate. Qed.

(** C8, amended. If every attempt fails with a failure the client
    retries, that is a rejected request or one of the statuses 429,
    500, 502, 503, 504, then the client makes [maxRetries + 1]
    requests, calls [sleep] after each but the last, and throws. The
    delay of the call is [500 * 2 ** attempt] after a rejected
    request and after a response without [retry-after] header; after
    a response with the header it is
    [Math.min(Number(retryAfter) * 1000, 30000)]: the hint of the
    server, capped, when the header is a number, and [NaN] when it
    is not, as for an HTTP date. When the last request was rejected
    the error names the number of attempts; otherwise it is the
    error of the last response. *)
Theorem retries_exhausted {Body : Type} (maxRetries : nat)
    (network : nat -> fetched Body) :
  (forall attempt, (attempt <= maxRetries)%nat ->
                   transient (network attempt) = true) ->
  let (result, log) := postWithRetry maxRetries network in
  log = schedule network maxRetries 0
  /\ requests log = S maxRetries
  /\ result = Throws (terminal_error maxRetries (network maxRetries))
  /\ (forall message,
        network maxRetries = Rejected message ->
        result = Throws ("Langbly API request failed after "
                           +:+ Str.of_nat (maxRetries + 1)
                           +:+ " attempts: " +:+ message))
  /\ (forall resp,
        network maxRetries = Responded resp ->
        result = Throws ("Langbly API error (" +:+ Str.of_Z (status resp) +:+ "): "
                           +:+ default (statusText resp) (errorMessage resp))).
Proof.
  intros Hall. rewrite (ClientFacts.postWithRetry_exhausted _ _ Hall).
  repeat split.
  - apply ClientFacts.requests_schedule.
  - intros message ->. reflexivity.
  - intros resp ->. reflexivity.
Qed.

Lemma retries_exhausted_witness :
  (forall attempt, (attempt <= MAX_RETRIES)%nat ->
                   transient (busy_then_down attempt) = true)
  /\ postWithRetry MAX_RETRIES busy_then_down
     = (Throws "Langbly API error (429): Too Many Requests",
        [Fetch 0; Sleep Num.NaN; Fetch 1; Sleep (Num.of_Z 1000); Fetch 2]).
Proof.
  assert (H : forall attempt, (attempt <= MAX_RETRIES)%nat ->
                              transient (busy_then_down attempt) = true)
    by (intros [|[|attempt]] _; reflexivity).
  split; [exact H|].
  pose proof (retries_exhausted MAX_RETRIES busy_then_down H) as T.
  destruct (postWithRetry MAX_RETRIES busy_then_down) as [result log].
  destruct T as (Hlog & _ & Hresult & _).
  rewrite Hlog, Hresult. reflexivity.
Defined.

End TranslationClient.

End Claims.
(** * Part IV: further properties of the code *)

Module Extras.

(** ** Batch scheduler *)

Section Batches.

Import Batch BatchNeighbours.

(** X1. Whatever the limits are, also zero or negative ones, the
    batches of [batchStrings], one after the other, are the strings
    of the input in their order, and [countCharacters] over the
    batches adds up to [countCharacters] of the input. *)
Theorem batches_keep_the_strings (strings : list string) (maxItems maxChars : Z) :
  concat (batchStrings strings maxItems maxChars) = strings
  /\ fold_right Z.add 0
       (map countCharacters (batchStrings strings maxItems maxChars))
     = countCharacters strings.
Proof.
  split; [apply BatchGreedy.batchStrings_concat|].
  rewrite (map_ext countCharacters total_length BatchFacts.countCharacters_total).
  rewrite <- BatchGreedy.total_length_concat, BatchGreedy.batchStrings_concat.
  symmetry. apply BatchFacts.countCharacters_total.
Qed.

(** X2. Strings that fit the limits together, there being at least
    one, are sent as one batch. *)
Theorem one_batch_when_all_fits (strings : list string) (maxItems maxChars : Z) :
  strings <> [] ->
  Z.of_nat (length strings) <= maxItems ->
  countCharacters strings <= maxChars ->
  batchStrings strings maxItems maxChars = [strings].
Proof.
  intros Hne Hitems Hchars. rewrite BatchFacts.countCharacters_total in Hchars.
  now apply BatchGreedy.batchStrings_fits.
Qed.

Lemma one_batch_when_all_fits_witness :
  ["hello"; "world"] <> []
  /\ Z.of_nat (length ["hello"; "world"]) <= 50
  /\ countCharacters ["hello"; "world"] <= 10000
  /\ batchStrings ["hello"; "world"] 50 10000 = [["hello"; "world"]].
Proof.
  split; [discriminate|]. split; [simpl; lia|]. split; [vm_compute; discriminate|].
  apply (one_batch_when_all_fits ["hello"; "world"] 50 10000).
  - discriminate.
  - simpl; lia.
  - vm_compute; discriminate.
Defined.

(** X3. The batching is greedy: whatever the limits, no two
    consecutive batches could have been sent as one, since together
    they have more than [maxItems] strings or more than [maxChars]
    code units. *)
Theorem neighbours_do_not_fit_together (strings : list string)
    (maxItems maxChars : Z) :
  chained maxItems maxChars (batchStrings strings maxItems maxChars).
Proof. apply BatchGreedy.batchStrings_chained. Qed.

End Batches.

(** ** Translation client *)

Section Requests.

Import Client ClientSpec ClientWaits Samples.

(** X4. If the first [k] requests fail with failures the client
    retries, [k] being at most [maxRetries], and the next one is
    answered with a status from 200 to 299, then [postWithRetry]
    makes [k + 1] requests, with a wait after each of the failures,
    and ends with what [resp.json()] gives for that response: it
    returns the decoded body if the body is JSON, and throws the
    error of the decoding if it is not. *)
Theorem request_succeeds_after_failures {Body : Type} (maxRetries : nat)
    (network : nat -> fetched Body) (k : nat) (resp : Response Body) :
  (k <= maxRetries)%nat ->
  (forall attempt, (attempt < k)%nat -> transient (network attempt) = true) ->
  network k = Responded resp ->
  ok resp = true ->
  (forall data, json resp = Parsed data ->
     postWithRetry maxRetries network = (Returns data, schedule network k 0))
  /\ (forall message, json resp = ParseError message ->
        postWithRetry maxRetries network = (Throws message, schedule network k 0))
  /\ requests (schedule network k 0) = S k.
Proof.
  intros Hk Hbefore Hnet Hok.
  pose proof (ClientRuns.postWithRetry_succeeds maxRetries network k resp
                Hk Hbefore Hnet Hok) as Hrun.
  unfold delivered in Hrun. repeat split.
  - intros data Hbody. now rewrite Hbody in Hrun.
  - intros message Hbody. now rewrite Hbody in Hrun.
  - apply ClientFacts.requests_schedule.
Qed.

Lemma request_succeeds_after_failures_witness :
  (2 <= MAX_RETRIES)%nat
  /\ (forall attempt, (attempt < 2)%nat -> transient (third_time 200 attempt) = true)
  /\ third_time 200 2 = Fixtures.respond 200 "Done" None
  /\ postWithRetry MAX_RETRIES (third_time 200)
     = (Returns tt,
        [Fetch 0; Sleep (Num.of_Z 1000); Fetch 1; Sleep (Num.of_Z 1000); Fetch 2]).
Proof.
  split; [unfold MAX_RETRIES; lia|].
  split; [intros [|[|attempt]] H; [reflexivity|reflexivity|lia]|].
  split; [reflexivity|].
  refine (proj1 (request_succeeds_after_failures MAX_RETRIES (third_time 200) 2
                   {| status := 200; statusText := "Done"; retryAfter := None;
                      errorMessage := None; json := Parsed tt |} _ _ _ _)
                tt _).
  - unfold MAX_RETRIES; lia.
  - intros [|[|attempt]] H; [reflexivity|reflexivity|lia].
  - reflexivity.
  - reflexivity.
  - reflexivity.
Defined.

(** X5. A response whose status is neither from 200 to 299 nor one
    of 429, 500, 502, 503, 504 ends the loop at once: the client
    throws the error of that response and makes no further request,
    also when retries are left. *)
Theorem permanent_error_is_not_retried {Body : Type} (maxRetries : nat)
    (network : nat -> fetched Body) (k : nat) (resp : Response Body) :
  (k <= maxRetries)%nat ->
  (forall attempt, (attempt < k)%nat -> transient (network attempt) = true) ->
  network k = Responded resp ->
  ok resp = false ->
  retriable (status resp) = false ->
  postWithRetry maxRetries network
  = (Throws ("Langbly API error (" +:+ Str.of_Z (status resp) +:+ "): "
               +:+ default (statusText resp) (errorMessage resp)),
     schedule network k 0)
  /\ requests (schedule network k 0) = S k.
Proof.
  intros Hk Hbefore Hnet Hok Hperm. split.
  - now apply ClientRuns.postWithRetry_permanent.
  - apply ClientFacts.requests_schedule.
Qed.

Lemma permanent_error_is_not_retried_witness :
  (0 <= MAX_RETRIES)%nat
  /\ Fixtures.always_501 0%nat = Fixtures.respond 501 "Not Implemented" None
  /\ postWithRetry MAX_RETRIES Fixtures.always_501
     = (Throws "Langbly API error (501): Not Implemented", [Fetch 0]).
Proof.
  split; [unfold MAX_RETRIES; lia|]. split; [reflexivity|].
  apply (permanent_error_is_not_retried MAX_RETRIES Fixtures.always_501 0
           {| status := 501; statusText := "Not Implemented"; retryAfter := None;
              errorMessage := None; json := Parsed tt |}).
  - unfold MAX_RETRIES; lia.
  - intros attempt H; lia.
  - reflexivity.
  - reflexivity.
  - reflexivity.
Defined.

(** X6. Whatever the network does, what [postWithRetry] asks of it
    and of the clock is a schedule: requests numbered from 0, at
    most [maxRetries + 1] of them, with one call of [sleep] between
    each request and the next. The delay of the call is the
    exponential backoff of the failed attempt after a rejected
    request and after a response without [retry-after] header; after
    a response with the header it is the capped hint of the server,
    and [NaN] when the header is not a number. *)
Theorem requests_follow_a_schedule {Body : Type} (maxRetries : nat)
    (network : nat -> fetched Body) :
  exists k,
    (k <= maxRetries)%nat
    /\ snd (postWithRetry maxRetries network) = schedule network k 0
    /\ requests (snd (postWithRetry maxRetries network)) = S k.
Proof.
  destruct (ClientRuns.postWithRetry_log maxRetries network) as (k & Hk & Hlog).
  exists k. split; [assumption|]. split; [assumption|].
  rewrite Hlog. apply ClientFacts.requests_schedule.
Qed.

(** X7. The client as it is constructed, with [maxRetries = 2],
    makes at most three requests for a call, waits at most 30
    seconds at a time and at most 60 seconds in all. *)
Theorem constructed_client_is_bounded {Body : Type} (network : nat -> fetched Body) :
  (requests (snd (postWithRetry MAX_RETRIES network)) <= 3)%nat
  /\ waits_within 30000 (snd (postWithRetry MAX_RETRIES network))
  /\ total_wait (snd (postWithRetry MAX_RETRIES network)) <= 60000.
Proof. apply ClientRuns.constructed_client_bounds. Qed.

End Requests.

(** ** Markdown documents *)

Section Frontmatter.

Import Str Markdown Samples.

(** X8. A frontmatter that [splitMarkdown] recognises starts with
    the delimiter [---] and ends with a line feed and the delimiter;
    the two do not overlap. *)
Theorem frontmatter_is_delimited (content fm : string) :
  frontmatter (splitMarkdown content) = Some fm ->
  startsWith fm DELIMITER = true
  /\ drop (String.length fm - 4) fm = LF +:+ DELIMITER
  /\ (7 <= String.length fm)%nat.
Proof. apply MarkdownShape.frontmatter_shape. Qed.

Lemma frontmatter_is_delimited_witness :
  frontmatter (splitMarkdown post) = Some post_frontmatter
  /\ startsWith post_frontmatter DELIMITER = true
  /\ drop (String.length post_frontmatter - 4) post_frontmatter = LF +:+ DELIMITER
  /\ (7 <= String.length post_frontmatter)%nat.
Proof.
  split; [reflexivity|].
  apply (frontmatter_is_delimited post post_frontmatter). reflexivity.
Defined.

(** X9. The output written for a document with frontmatter splits
    again into that frontmatter and the translated body, whatever the
    translated body is: the translation cannot move the end of the
    frontmatter. *)
Theorem assembled_splits_back (content fm translatedBody : string) :
  frontmatter (splitMarkdown content) = Some fm ->
  splitMarkdown (assembleMarkdown (Some fm) translatedBody)
  = File (Some fm) translatedBody.
Proof. apply MarkdownShape.split_assembled. Qed.

Lemma assembled_splits_back_witness :
  frontmatter (splitMarkdown post) = Some post_frontmatter
  /\ splitMarkdown (assembleMarkdown (Some post_frontmatter) "---")
     = File (Some post_frontmatter) "---".
Proof.
  split; [reflexivity|].
  apply (assembled_splits_back post post_frontmatter "---"). reflexivity.
Defined.

End Frontmatter.

(** ** The translation of a file *)

Section Files.

Import Json JsonSpec Markdown Pipeline PipelineSpec Samples.

(** X10. If the service answers every call with one text for each
    string, the text depending on the string alone, then
    [batchTranslateWithPlaceholders] returns the [Map] that has, for
    the key of every entry, what [restorePlaceholders] makes of the
    answer to the protected value of that entry: how the values
    were batched does not show, and no text goes to the key of
    another entry. *)
Theorem translations_align_with_entries
    (translate : nat -> list string -> completion (list string))
    (f : string -> string) (entries : list FlatEntry) :
  pointwise translate f ->
  batchTranslateWithPlaceholders translate entries
  = Fulfilled (flat_map_of (map (translated_entry f) entries)).
Proof. apply PipelineFacts.batchTranslate_pointwise. Qed.

Lemma translations_align_with_entries_witness :
  pointwise (answering french) french
  /\ batchTranslateWithPlaceholders (answering french)
       (flattenJson greeting_document "")
     = Fulfilled
         (flat_map_of
            (map (translated_entry french) (flattenJson greeting_document ""))).
Proof.
  split; [intros i batch; reflexivity|].
  apply (translations_align_with_entries (answering french) french
           (flattenJson greeting_document "")).
  intros i batch; reflexivity.
Defined.

(** X11. All or nothing, with a service that answers, when it
    answers, with one text for each string: if the call for one
    batch of a file fails, the calls for the batches before it
    having been answered, then [translateJsonFile] fails with the
    error of that call, and so writes nothing, although the earlier
    batches were translated. *)
Theorem failed_batch_fails_the_file
    (translate : nat -> list string -> completion (list string))
    (sourceJson : object) (existingTarget : option object)
    (k : nat) (batch : list string) (message : string) :
  aligned translate ->
  batches_of (computeDiff (flattenJson sourceJson "") existingTarget) !! k
    = Some batch ->
  translate k batch = Thrown message ->
  (forall j earlier, (j < k)%nat ->
     batches_of (computeDiff (flattenJson sourceJson "") existingTarget) !! j
       = Some earlier ->
     exists results, translate j earlier = Fulfilled results) ->
  translateJsonFile translate sourceJson existingTarget false = Thrown message.
Proof.
  intros Haligned Hk Hthrown Hbefore. unfold translateJsonFile.
  destruct (flattenJson sourceJson "") as [|e es] eqn:Hsrc.
  { destruct existingTarget; discriminate. }
  destruct (computeDiff (e :: es) existingTarget) as [|e' es'] eqn:Hdiff;
    [discriminate|].
  rewrite (PipelineFacts.batchTranslate_thrown translate (e' :: es') k batch
             message Haligned Hk Hthrown Hbefore).
  reflexivity.
Qed.

Lemma failed_batch_fails_the_file_witness :
  aligned (failing_from 1 "quota exceeded")
  /\ batches_of (computeDiff (flattenJson long_document "") None) !! 1%nat
     = Some ["Hello __PH0__"]
  /\ failing_from 1 "quota exceeded" 1 ["Hello __PH0__"] = Thrown "quota exceeded"
  /\ translateJsonFile (failing_from 1 "quota exceeded") long_document None false
     = Thrown "quota exceeded".
Proof.
  assert (Haligned : aligned (failing_from 1 "quota exceeded")).
  { intros i batch results. unfold failing_from.
    destruct (i <? 1)%nat; [|discriminate].
    intros [= <-]. apply length_map. }
  split; [exact Haligned|]. split; [vm_compute; reflexivity|].
  split; [reflexivity|].
  apply (failed_batch_fails_the_file (failing_from 1 "quota exceeded")
           long_document None 1 ["Hello __PH0__"] "quota exceeded").
  - exact Haligned.
  - vm_compute; reflexivity.
  - reflexivity.
  - intros [|j] earlier Hj _; [|lia]. eexists. reflexivity.
Defined.

(** X12. Whatever the service answers, also when it answers with
    fewer or more texts than it was sent, a [Map] that
    [batchTranslateWithPlaceholders] returns has translations only
    for keys of the entries. *)
Theorem translations_only_for_entries
    (translate : nat -> list string -> completion (list string))
    (entries : list FlatEntry) :
  match batchTranslateWithPlaceholders translate entries with
  | Fulfilled m => forall k, is_Some (m !! k) -> In k (map key entries)
  | Thrown _ => True
  end.
Proof.
  destruct (batchTranslateWithPlaceholders translate entries) as [m|] eqn:H;
    [|exact I].
  exact (PipelineFacts.batchTranslate_keys translate entries m H).
Qed.

(** X13. Translation is incremental: against the document that a run
    has written for a source with plain property names, a next run
    for the same source finds every key translated; it calls no
    service and writes nothing. *)
Theorem second_run_translates_nothing
    (first next : nat -> list string -> completion (list string))
    (sourceJson : object) (existingTarget : option object)
    (s : summary object) (out : object) (dryRun : bool) :
  named_doc sourceJson = true ->
  translateJsonFile first sourceJson existingTarget false = Fulfilled s ->
  written s = Some out ->
  translateJsonFile next sourceJson (Some out) dryRun
  = Fulfilled (Summary 0 0 None).
Proof.
  intros Hnamed Hrun Hout. unfold translateJsonFile in *.
  pose proof (PipelineFacts.computeDiff_merged sourceJson) as Hdone.
  destruct (flattenJson sourceJson "") as [|e es]; [reflexivity|].
  destruct (computeDiff (e :: es) existingTarget) as [|e' es'].
  { injection Hrun as <-. discriminate. }
  destruct (batchTranslateWithPlaceholders first (e' :: es')) as [m|];
    [|discriminate].
  cbn [and_then] in Hrun. injection Hrun as <-. cbn [written] in Hout.
  injection Hout as <-. now rewrite (Hdone m existingTarget Hnamed).
Qed.

Lemma second_run_translates_nothing_witness :
  named_doc Fixtures.abc_document = true
  /\ translateJsonFile (answering french) Fixtures.abc_document (Some abc_target)
       false
     = Fulfilled
         (Summary 1 3
            (Some [("a", JStr "Bonjour"); ("b", JStr "Monde");
                   ("c", JStr "fr:New")]))
  /\ translateJsonFile (failing_from 0 "not called") Fixtures.abc_document
       (Some [("a", JStr "Bonjour"); ("b", JStr "Monde"); ("c", JStr "fr:New")])
       false
     = Fulfilled (Summary 0 0 None).
Proof.
  split; [reflexivity|]. split; [vm_compute; reflexivity|].
  apply (second_run_translates_nothing (answering french)
           (failing_from 0 "not called") Fixtures.abc_document (Some abc_target)
           (Summary 1 3
              (Some [("a", JStr "Bonjour"); ("b", JStr "Monde");
                     ("c", JStr "fr:New")]))
           [("a", JStr "Bonjour"); ("b", JStr "Monde"); ("c", JStr "fr:New")]
           false).
  - reflexivity.
  - vm_compute; reflexivity.
  - reflexivity.
Defined.

(** X14. The whole of [translateJsonFile] for a source with plain
    property names and a service that answers string by string: if
    a key of the source lacks in the target, the file is counted,
    the characters are those of the source values that lack in the
    target, and the document written is the source, reduced to its
    strings, in which every string is replaced by the value the
    target has for its key or, if it has none, by the restored
    translation of the string. *)
Theorem json_file_end_to_end
    (translate : nat -> list string -> completion (list string))
    (f : string -> string) (sourceJson : object)
    (existingTarget : option object) :
  named_doc sourceJson = true ->
  pointwise translate f ->
  computeDiff (flattenJson sourceJson "") existingTarget <> [] ->
  translateJsonFile translate sourceJson existingTarget false
  = Fulfilled
      (Summary 1
         (Batch.countCharacters
            (map value (computeDiff (flattenJson sourceJson "") existingTarget)))
         (Some (relabel_doc (output_value f existingTarget)
                            (prune_doc sourceJson)))).
Proof.
  intros Hnamed Hf Hdiff. unfold translateJsonFile.
  pose proof (PipelineFacts.named_keys_NoDup sourceJson Hnamed) as Hnd.
  pose proof (JsonFacts.unflatten_relabelled_named
                (output_value f existingTarget) sourceJson Hnamed) as Hdoc.
  destruct (flattenJson sourceJson "") as [|e es] eqn:Hsrc.
  { destruct existingTarget; now destruct Hdiff. }
  destruct (computeDiff (e :: es) existingTarget) as [|e' es'] eqn:Hmissing;
    [now destruct Hdiff|].
  rewrite (PipelineFacts.batchTranslate_pointwise translate f _ Hf).
  cbn [and_then]. do 3 f_equal.
  rewrite JsonFacts.merge_unflatten, <- Hdoc, <- Hmissing. f_equal.
  apply map_ext_in. intros x Hx. unfold merged_entry. f_equal.
  now apply PipelineFacts.merged_output.
Qed.

Lemma json_file_end_to_end_witness :
  named_doc Fixtures.abc_document = true
  /\ pointwise (answering french) french
  /\ computeDiff (flattenJson Fixtures.abc_document "") (Some abc_target) <> []
  /\ translateJsonFile (answering french) Fixtures.abc_document (Some abc_target)
       false
     = Fulfilled
         (Summary 1
            (Batch.countCharacters
               (map value
                  (computeDiff (flattenJson Fixtures.abc_document "")
                               (Some abc_target))))
            (Some (relabel_doc (output_value french (Some abc_target))
                               (prune_doc Fixtures.abc_document)))).
Proof.
  split; [reflexivity|]. split; [intros i batch; reflexivity|].
  split; [vm_compute; discriminate|].
  apply (json_file_end_to_end (answering french) french Fixtures.abc_document
           (Some abc_target)).
  - reflexivity.
  - intros i batch; reflexivity.
  - vm_compute; discriminate.
Defined.

(** X15. For a source with plain property names, flattening the
    merged document and unflattening it again, as [translateYamlFile]
    does before it prints, changes nothing: the YAML path writes the
    document, and returns the counts, of the JSON path. *)
Theorem yaml_file_as_json_file
    (translate : nat -> list string -> completion (list string))
    (sourceJson : object) (existingTarget : option object) (dryRun : bool) :
  named_doc sourceJson = true ->
  translateYamlFile translate (JObj sourceJson) existingTarget dryRun
  = translateJsonFile translate sourceJson existingTarget dryRun.
Proof.
  intros Hnamed. unfold translateYamlFile, translateJsonFile. cbn [parseYaml].
  pose proof (PipelineFacts.merge_round_trip sourceJson) as Hround.
  destruct (flattenJson sourceJson "") as [|e es]; [reflexivity|].
  destruct (computeDiff (e :: es) existingTarget) as [|e' es']; [reflexivity|].
  destruct dryRun; [reflexivity|].
  destruct (batchTranslateWithPlaceholders translate (e' :: es')) as [m|];
    [|reflexivity].
  cbn [and_then]. now rewrite (Hround m existingTarget Hnamed).
Qed.

Lemma yaml_file_as_json_file_witness :
  named_doc Fixtures.settings_document = true
  /\ translateYamlFile (answering french) (JObj Fixtures.settings_document) None
       false
     = translateJsonFile (answering french) Fixtures.settings_document None false.
Proof.
  split; [reflexivity|].
  apply (yaml_file_as_json_file (answering french) Fixtures.settings_document
           None false).
  reflexivity.
Defined.

(** X16. What [translateMarkdownFile] writes: the first text of the
    service's answer for the body, after the frontmatter of the
    source, if it has one, unchanged; the output then splits into
    that frontmatter and that text. The characters counted are those
    of the body, the frontmatter not included. *)
Theorem markdown_file_keeps_frontmatter
    (translate : nat -> list string -> completion (list string))
    (sourceContent : string) (s : summary string) (out : string) :
  translateMarkdownFile translate sourceContent false = Fulfilled s ->
  written s = Some out ->
  exists text more,
    translate 0%nat [body (splitMarkdown sourceContent)] = Fulfilled (text :: more)
    /\ chars s = Str.len (body (splitMarkdown sourceContent))
    /\ match frontmatter (splitMarkdown sourceContent) with
       | Some fm => out = fm +:+ text /\ splitMarkdown out = File (Some fm) text
       | None => out = text
       end.
Proof.
  unfold translateMarkdownFile, translate_one. intros Hrun Hout.
  destruct (StrTrim.is_empty _).
  { injection Hrun as <-. discriminate. }
  destruct (translate 0%nat [body (splitMarkdown sourceContent)])
    as [[|text more]|]; try discriminate.
  cbn [and_then head] in Hrun. injection Hrun as <-.
  cbn [written chars] in *. injection Hout as <-.
  exists text, more. split; [reflexivity|]. split; [reflexivity|].
  destruct (frontmatter (splitMarkdown sourceContent)) as [fm|] eqn:Hfm;
    [|reflexivity].
  pose proof (MarkdownShape.split_assembled sourceContent fm text Hfm) as Hsplit.
  destruct (MarkdownShape.frontmatter_shape _ _ Hfm) as (_ & _ & Hlen).
  rewrite MarkdownFacts.assemble_some in Hsplit |- *
    by (intros ->; simpl in Hlen; lia).
  split; [reflexivity|exact Hsplit].
Qed.

Lemma markdown_file_keeps_frontmatter_witness :
  translateMarkdownFile (answering french) post false
  = Fulfilled (Summary 1 5 (Some (post_frontmatter +:+ "fr:" +:+ Str.LF +:+ "Body")))
  /\ exists text more,
       answering french 0%nat [body (splitMarkdown post)] = Fulfilled (text :: more)
       /\ 5 = Str.len (body (splitMarkdown post))
       /\ match frontmatter (splitMarkdown post) with
          | Some fm =>
              post_frontmatter +:+ "fr:" +:+ Str.LF +:+ "Body" = fm +:+ text
              /\ splitMarkdown (post_frontmatter +:+ "fr:" +:+ Str.LF +:+ "Body")
                 = File (Some fm) text
          | None => post_frontmatter +:+ "fr:" +:+ Str.LF +:+ "Body" = text
          end.
Proof.
  split; [vm_compute; reflexivity|].
  apply (markdown_file_keeps_frontmatter (answering french) post
           (Summary 1 5 (Some (post_frontmatter +:+ "fr:" +:+ Str.LF +:+ "Body")))
           (post_frontmatter +:+ "fr:" +:+ Str.LF +:+ "Body")).
  - vm_compute; reflexivity.
  - reflexivity.
Defined.

(** X17. Answers that are too short go unnoticed: if the service
    answers every call, with no more texts than it was sent strings,
    then [batchTranslateWithPlaceholders] returns a [Map]; it does
    not check that every string has its text. *)
Theorem short_answers_are_accepted
    (translate : nat -> list string -> completion (list string))
    (entries : list FlatEntry) :
  answers_within translate ->
  exists m, batchTranslateWithPlaceholders translate entries = Fulfilled m.
Proof. apply PipelineFacts.batchTranslate_short. Qed.

Lemma short_answers_are_accepted_witness :
  answers_within (fun _ _ => Fulfilled [])
  /\ exists m,
       batchTranslateWithPlaceholders (fun _ _ => Fulfilled [])
         (flattenJson greeting_document "")
       = Fulfilled m.
Proof.
  assert (H : answers_within (fun _ _ => Fulfilled [])).
  { intros i batch. exists []. split; [reflexivity|simpl; lia]. }
  split; [exact H|].
  apply (short_answers_are_accepted (fun _ _ => Fulfilled [])
           (flattenJson greeting_document "")).
  exact H.
Defined.

(** X18. An answer that is too long is not reported as such: if the
    answer to the first batch has more texts than there are entries,
    [batchTranslateWithPlaceholders] fails with the error of the
    engine for reading [protected] of [undefined]. *)
Theorem long_answer_is_a_type_error
    (translate : nat -> list string -> completion (list string))
    (entries : list FlatEntry) (batch : list string)
    (others : list (list string)) (results : list string) :
  batches_of entries = batch :: others ->
  translate 0%nat batch = Fulfilled results ->
  (length entries < length results)%nat ->
  batchTranslateWithPlaceholders translate entries
  = Thrown "Cannot read properties of undefined (reading 'protected')".
Proof. apply PipelineFacts.batchTranslate_beyond. Qed.

Lemma long_answer_is_a_type_error_witness :
  batches_of (flattenJson greeting_document "") = [["Hello __PH0__"; "Bye"]]
  /\ (length (flattenJson greeting_document "") < length ["a"; "b"; "c"])%nat
  /\ batchTranslateWithPlaceholders (fun _ _ => Fulfilled ["a"; "b"; "c"])
       (flattenJson greeting_document "")
     = Thrown "Cannot read properties of undefined (reading 'protected')".
Proof.
  split; [vm_compute; reflexivity|]. split; [simpl; lia|].
  apply (long_answer_is_a_type_error (fun _ _ => Fulfilled ["a"; "b"; "c"])
           (flattenJson greeting_document "") ["Hello __PH0__"; "Bye"] []
           ["a"; "b"; "c"]).
  - vm_compute; reflexivity.
  - reflexivity.
  - simpl; lia.
Defined.

End Files.

(** ** The client as the service of the pipeline *)

Section Composition.

Import Json Client ClientSpec Pipeline PipelineSpec Service Samples.

(** X19. The retries do their work: if for every call the network
    fails at most [maxRetries] times with failures the client
    retries and then answers with status 200 to 299 and the
    translations, string by string, then the entries are translated
    as by a service that never fails. *)
Theorem retries_do_not_show
    (network : nat -> list string -> nat -> fetched decoded)
    (f : string -> string) (entries : list FlatEntry) :
  (forall i q, recovers f q (network i q)) ->
  batchTranslateWithPlaceholders (over network) entries
  = Fulfilled (flat_map_of (map (translated_entry f) entries)).
Proof.
  intros H. apply PipelineFacts.batchTranslate_pointwise.
  now apply ServiceFacts.over_pointwise.
Qed.

Lemma retries_do_not_show_witness :
  (forall i q, recovers french q (unsteady french i q))
  /\ batchTranslateWithPlaceholders (over (unsteady french))
       (flattenJson greeting_document "")
     = Fulfilled
         (flat_map_of
            (map (translated_entry french) (flattenJson greeting_document ""))).
Proof.
  assert (H : forall i q, recovers french q (unsteady french i q)).
  { intros i q. exists 2%nat. eexists. split; [unfold MAX_RETRIES; lia|].
    split; [intros [|[|a]] Ha; [reflexivity|reflexivity|lia]|].
    split; [reflexivity|]. split; reflexivity. }
  split; [exact H|].
  apply (retries_do_not_show (unsteady french) french
           (flattenJson greeting_document "")).
  exact H.
Defined.

End Composition.

(** ** The indentation of the source *)

Section Indentation.

Import Str StrTrim Indent IndentSpec.

(** X20. For a source whose first line is not empty and does not
    start with white space, [detectIndent] returns what follows the
    first line terminator: the number of the white space code units
    there, if there is at least one and none is a tab, and the tab
    if one is a tab. *)
Theorem indent_of_second_line (first : string) (t : ascii) (ws rest : string) :
  first_line first = true ->
  is_line_terminator t = true ->
  ws <> "" ->
  all is_white_space ws = true ->
  starts_black rest = true ->
  detectIndent (first +:+ String t (ws +:+ rest))
  = if includes ws TAB then Text (String TAB "") else Count (String.length ws).
Proof.
  intros Hfirst Ht Hne Hws Hrest. unfold detectIndent.
  now rewrite (IndentFacts.first_indent_line first t ws rest).
Qed.

Lemma indent_of_second_line_witness :
  first_line "{" = true
  /\ is_line_terminator NL = true
  /\ "    " <> ""
  /\ all is_white_space "    " = true
  /\ starts_black "x: 1 }" = true
  /\ detectIndent ("{" +:+ String NL ("    " +:+ "x: 1 }")) = Count 4.
Proof.
  split; [reflexivity|]. split; [reflexivity|]. split; [discriminate|].
  split; [reflexivity|]. split; [reflexivity|].
  apply (indent_of_second_line "{" NL "    " "x: 1 }").
  - reflexivity.
  - reflexivity.
  - discriminate.
  - reflexivity.
  - reflexivity.
Defined.

(** X21. For a source with CR LF line ends the line feed counts as
    indentation: a second line indented by [n] spaces gives [n + 1],
    and a second line that is not indented gives 1. *)
Theorem indent_after_crlf (first : string) (n : nat) (rest : string) :
  first_line first = true ->
  starts_black rest = true ->
  detectIndent (first +:+ String CR (String NL (spaces n +:+ rest))) = Count (S n).
Proof.
  intros Hfirst Hrest. unfold detectIndent.
  change (String NL (spaces n +:+ rest)) with (String NL (spaces n) +:+ rest).
  rewrite (IndentFacts.first_indent_line first CR (String NL (spaces n)) rest);
    try assumption; try reflexivity; try discriminate.
  - cbn [includes]. rewrite IndentFacts.includes_spaces. cbn [orb Ascii.eqb].
    simpl. now rewrite IndentFacts.length_spaces.
  - cbn [all]. now rewrite IndentFacts.all_spaces.
Qed.

Lemma indent_after_crlf_witness :
  first_line "{" = true
  /\ starts_black "x: 1 }" = true
  /\ detectIndent ("{" +:+ String CR (String NL ("  " +:+ "x: 1 }"))) = Count 3.
Proof.
  split; [reflexivity|]. split; [reflexivity|].
  apply (indent_after_crlf "{" 2 "x: 1 }"); reflexivity.
Defined.

(** X22. A source of one line that does not start with white space
    gives the default, 2. *)
Theorem indent_of_one_line (content : string) :
  starts_black content = true ->
  all (fun c => negb (is_line_terminator c)) content = true ->
  detectIndent content = Count 2.
Proof.
  intros Hblack Hline. unfold detectIndent.
  now rewrite IndentFacts.first_indent_one_line.
Qed.

Lemma indent_of_one_line_witness :
  starts_black "{ x: 1 }" = true
  /\ all (fun c => negb (is_line_terminator c)) "{ x: 1 }" = true
  /\ detectIndent "{ x: 1 }" = Count 2.
Proof.
  split; [reflexivity|]. split; [reflexivity|].
  apply (indent_of_one_line "{ x: 1 }"); reflexivity.
Defined.

End Indentation.

(** ** The target languages *)

Section Languages.

Import Str StrTrim Inputs.

(** X23. Every target language that [run] passes on is a string that
    is not empty, has no comma in it and no white space at either
    end. *)
Theorem languages_are_trimmed (targetLanguagesRaw : string) :
  Forall (fun l => l <> "" /\ includes l COMMA = false /\ trim l = l)
    (targetLanguages targetLanguagesRaw).
Proof.
  unfold targetLanguages. apply Forall_forall. intros l Hl.
  apply list_elem_of_In in Hl. apply List.filter_In in Hl as [Hl Hlen].
  apply in_map_iff in Hl as [piece [<- Hpiece]].
  pose proof (InputsFacts.split_pieces COMMA targetLanguagesRaw) as Hall.
  rewrite Forall_forall in Hall. apply list_elem_of_In in Hpiece.
  specialize (Hall piece Hpiece). repeat split.
  - intros Hempty. rewrite Hempty in Hlen. discriminate.
  - now apply InputsFacts.includes_trim.
  - apply InputsFacts.trim_idem.
Qed.

(** X24. Once the inputs are read, with [targetLanguagesRaw] the
    value that [core.getInput] returned for [target-languages]:
    [run] fails with "No target languages specified" exactly when
    that value has nothing but commas and white space, and goes on
    with the parsed list, which is then not empty, otherwise. What
    [getInput] does with an input that is not supplied comes before,
    and is no part of this. *)
Theorem no_language_iff_blank (targetLanguagesRaw : string) :
  (check_languages targetLanguagesRaw = Failed "No target languages specified"
   <-> all separates targetLanguagesRaw = true)
  /\ (all separates targetLanguagesRaw = false ->
      check_languages targetLanguagesRaw
      = Proceeds (targetLanguages targetLanguagesRaw)
      /\ targetLanguages targetLanguagesRaw <> []).
Proof.
  assert (Hparsed : targetLanguages targetLanguagesRaw = []
                    <-> all separates targetLanguagesRaw = true).
  { rewrite <- InputsFacts.split_separates. unfold targetLanguages.
    generalize (split COMMA targetLanguagesRaw). intros pieces.
    induction pieces as [|piece pieces IH]; [now split|].
    cbn [map List.filter forallb]. rewrite InputsFacts.len_pos.
    destruct (trim piece) as [|c kept] eqn:Htrim.
    - cbn [is_empty negb]. apply InputsFacts.trim_empty in Htrim.
      rewrite Htrim. exact IH.
    - cbn [is_empty negb]. split; [discriminate|]. intros H.
      apply andb_true_iff in H as [H _].
      apply InputsFacts.trim_empty in H. congruence. }
  unfold check_languages.
  destruct (targetLanguages targetLanguagesRaw) as [|l ls].
  - split; [tauto|]. intros Hblack.
    destruct Hparsed as [Hparsed _]. rewrite Hparsed in Hblack by reflexivity.
    discriminate.
  - split.
    + split; [discriminate|]. intros Hblank.
      apply Hparsed in Hblank. discriminate.
    + intros _. split; [reflexivity|discriminate].
Qed.

End Languages.

(** ** Placeholder guard *)

Section Guard.

Import Placeholders Tokens.

(** X25. The tokens that [protectPlaceholders] records are
    [__PH0__], [__PH1__], ... in the order of their numbers, one for
    each original, and no two are the same: no placeholder is
    recorded over another one. *)
Theorem tokens_are_numbered (input : string) :
  map fst (protected_map (protectPlaceholders input))
  = tokens (length (protected_map (protectPlaceholders input)))
  /\ NoDup (map fst (protected_map (protectPlaceholders input))).
Proof.
  split; [apply TokensFacts.protect_numbered|].
  rewrite TokensFacts.protect_numbered. apply TokensFacts.tokens_NoDup.
Qed.

(** X26. A text in which none of the six patterns matches goes
    through the guard untouched: it is protected as itself, with no
    token, and restored as itself. *)
Theorem text_without_placeholders_is_kept (input : string) :
  placeholder_free input = true ->
  protectPlaceholders input = Protected input []
  /\ restorePlaceholders (text (protectPlaceholders input))
       (protected_map (protectPlaceholders input))
     = input.
Proof.
  intros H. split.
  - now apply PlaceholdersFacts.protect_placeholder_free.
  - now apply PlaceholdersFacts.protect_restore_placeholder_free.
Qed.

Lemma text_without_placeholders_is_kept_witness :
  placeholder_free "100% sure {not a name}" = true
  /\ protectPlaceholders "100% sure {not a name}"
     = Protected "100% sure {not a name}" []
  /\ restorePlaceholders (text (protectPlaceholders "100% sure {not a name}"))
       (protected_map (protectPlaceholders "100% sure {not a name}"))
     = "100% sure {not a name}".
Proof.
  split; [reflexivity|].
  apply (text_without_placeholders_is_kept "100% sure {not a name}").
  reflexivity.
Defined.

(** X27. [restorePlaceholders] on a translated text: if every token
    stands at most once in the text, wherever the translation moved
    it, then every token that has an original is replaced by it and
    the rest of the text is kept, provided that no original has a
    dollar before [$], [&], a backquote or a quote, and that the
    restored text has no [PH] with a digit after it. *)
Theorem restore_puts_the_originals_back (t : Marked.marked)
    (originals : list (nat * string)) :
  NoDup (map fst (Marked.parts t)) ->
  Forall (fun io => Marked.inert (snd io) = true) originals ->
  Marked.clear (Marked.restored originals t) = true ->
  restorePlaceholders (Marked.render t) (Marked.token_entries originals)
  = Marked.restored originals t.
Proof. apply MarkedFacts.restore_marked. Qed.

Lemma restore_puts_the_originals_back_witness :
  NoDup (map fst (Marked.parts (Marked.Mark "" [(1%nat, " then "); (0%nat, "")])))
  /\ Forall (fun io => Marked.inert (snd io) = true)
       [(0%nat, "{a}"); (1%nat, "{b}")]
  /\ Marked.clear "{b} then {a}" = true
  /\ restorePlaceholders "__PH1__ then __PH0__"
       [("__PH0__", "{a}"); ("__PH1__", "{b}")]
     = "{b} then {a}".
Proof.
  assert (Hnd : NoDup (map fst (Marked.parts
                                  (Marked.Mark "" [(1%nat, " then "); (0%nat, "")])))).
  { apply (bool_decide_unpack _). vm_compute. exact I. }
  assert (Hinert : Forall (fun io => Marked.inert (snd io) = true)
                     [(0%nat, "{a}"); (1%nat, "{b}")])
    by (repeat constructor).
  split; [exact Hnd|]. split; [exact Hinert|]. split; [reflexivity|].
  apply (restore_puts_the_originals_back
           (Marked.Mark "" [(1%nat, " then "); (0%nat, "")])
           [(0%nat, "{a}"); (1%nat, "{b}")]).
  - exact Hnd.
  - exact Hinert.
  - reflexivity.
Defined.

(** X28. The round trip, where it holds: an input that has no [PH]
    with a digit after it, and whose recorded originals have none
    either, so that no placeholder was found around the token of
    another one, and have no dollar before [$], [&], a backquote or
    a quote, is restored from its protected form exactly. *)
Theorem protect_then_restore (input : string) :
  Marked.clear input = true ->
  Forall (fun entry => Marked.clear (snd entry) = true
                       /\ Marked.inert (snd entry) = true)
    (protected_map (protectPlaceholders input)) ->
  restorePlaceholders (text (protectPlaceholders input))
    (protected_map (protectPlaceholders input))
  = input.
Proof. apply ProtectFacts.protect_restore. Qed.

Lemma protect_then_restore_witness :
  Marked.clear "Hi {name}, {{count}} items, %s of %1$d, $t(key.a)" = true
  /\ Forall (fun entry => Marked.clear (snd entry) = true
                          /\ Marked.inert (snd entry) = true)
       (protected_map
          (protectPlaceholders "Hi {name}, {{count}} items, %s of %1$d, $t(key.a)"))
  /\ restorePlaceholders
       (text (protectPlaceholders
                "Hi {name}, {{count}} items, %s of %1$d, $t(key.a)"))
       (protected_map
          (protectPlaceholders "Hi {name}, {{count}} items, %s of %1$d, $t(key.a)"))
     = "Hi {name}, {{count}} items, %s of %1$d, $t(key.a)".
Proof.
  assert (Hall : Forall (fun entry => Marked.clear (snd entry) = true
                                      /\ Marked.inert (snd entry) = true)
                   (protected_map
                      (protectPlaceholders
                         "Hi {name}, {{count}} items, %s of %1$d, $t(key.a)")))
    by (vm_compute; repeat constructor).
  split; [reflexivity|]. split; [exact Hall|].
  apply (protect_then_restore "Hi {name}, {{count}} items, %s of %1$d, $t(key.a)").
  - reflexivity.
  - exact Hall.
Defined.

End Guard.

(** ** Hierarchical documents *)

Section Documents.

Import Json JsonSpec.

(** X29. For entries without [__proto__] in their keys, whatever
    else the keys are (empty segments, a key that is also the
    beginning of another one), the document [unflattenJson] builds
    has only objects and strings in it; so the document that
    [mergeTranslations] returns has no number, boolean, null or
    array of the source. (With [__proto__] in a key the walk leaves
    the document for the prototype, where it is not followed; hence
    the condition, of which the proof has no need.) *)
Theorem merged_document_has_string_leaves (entries : list FlatEntry)
    (translated : gmap string string) (existingTarget : option object) :
  JsonKeys.proto_free entries = true ->
  string_leaved (JObj (unflattenJson entries)) = true
  /\ string_leaved (JObj (mergeTranslations entries translated existingTarget))
     = true.
Proof.
  intros _. split.
  - apply JsonFacts.unflattenJson_built.
  - rewrite JsonFacts.merge_unflatten. apply JsonFacts.unflattenJson_built.
Qed.

Lemma merged_document_has_string_leaves_witness :
  JsonKeys.proto_free [Entry "a" "x"; Entry "a.b" "y"; Entry "c..d" "z"] = true
  /\ string_leaved
       (JObj (unflattenJson [Entry "a" "x"; Entry "a.b" "y"; Entry "c..d" "z"]))
     = true
  /\ string_leaved
       (JObj (mergeTranslations [Entry "a" "x"; Entry "a.b" "y"; Entry "c..d" "z"]
                ∅ None))
     = true.
Proof.
  split; [reflexivity|].
  apply (merged_document_has_string_leaves
           [Entry "a" "x"; Entry "a.b" "y"; Entry "c..d" "z"] ∅ None).
  reflexivity.
Defined.

(** X30. For a document with plain property names, whatever its
    leaves are, flattening and unflattening gives the document
    reduced to its strings: the values that are not strings, and the
    objects without a string below them, are gone, and the rest is
    as it was. *)
Theorem round_trip_keeps_the_strings (d : object) :
  named_doc d = true ->
  unflattenJson (flattenJson d "") = prune_doc d.
Proof. apply JsonFacts.unflatten_flatten_named. Qed.

Lemma round_trip_keeps_the_strings_witness :
  named_doc Fixtures.mixed_document = true
  /\ unflattenJson (flattenJson Fixtures.mixed_document "")
     = prune_doc Fixtures.mixed_document.
Proof.
  split; [reflexivity|].
  apply (round_trip_keeps_the_strings Fixtures.mixed_document). reflexivity.
Defined.

End Documents.

End Extras.
